(** * The YAML-subset codec and the frontmatter codec of [api/content.js]

    A shallow embedding of [parseYAML], [toYAML], [parseFrontmatter] and
    [toMarkdown], with the JavaScript data they work on:

    - a string is its sequence of UTF-16 code units (what [trim], [split],
      [slice] and a regular expression without the [u] flag operate on);
    - a plain object is its list of own properties in the order
      [Object.entries] enumerates them;
    - an exception is a value of an error type.  *)

From Stdlib Require Import String Ascii.
From Stdlib Require Import List NArith ZArith Bool Lia Sorted.
From Stdlib Require Import NArithRing.
From Stdlib Require Decimal.
Import ListNotations.

Set Warnings "-register-all".


(* ================================================================== *)
(** * JavaScript strings *)
(* ================================================================== *)

Module JsString.

Definition char := N.
Definition jstr := list char.

(** A string literal restricted to ASCII, as the source writes them. *)
Definition lit (s : string) : jstr :=
  List.map N_of_ascii (list_ascii_of_string s).

Definition NL    : char := 10%N.   (* \n *)
Definition SP    : char := 32%N.
Definition DQ    : char := 34%N.   (* the double quote *)
Definition SQ    : char := 39%N.   (* the single quote *)
Definition HASH  : char := 35%N.
Definition COMMA : char := 44%N.
Definition DASH  : char := 45%N.
Definition COLON : char := 58%N.
Definition PIPE  : char := 124%N.

(** [WhiteSpace] and [LineTerminator] of ECMAScript: what [trim] removes and
    what [\s] matches (so [\S] is the complement). *)
Definition is_ws (c : char) : bool :=
  ((9 <=? c) && (c <=? 13) || (c =? 32) || (c =? 160) || (c =? 5760)
   || ((8192 <=? c) && (c <=? 8202)) || (c =? 8232) || (c =? 8233)
   || (c =? 8239) || (c =? 8287) || (c =? 12288) || (c =? 65279))%N.

Definition is_quote (c : char) : bool := ((c =? DQ) || (c =? SQ))%N.

Fixpoint eqb (a b : jstr) : bool :=
  match a, b with
  | [], [] => true
  | x :: a', y :: b' => (x =? y)%N && eqb a' b'
  | _, _ => false
  end.

(** Truthiness of a string: the empty string is falsy. *)
Definition truthy (s : jstr) : bool :=
  match s with [] => false | _ => true end.

Fixpoint trimStart (s : jstr) : jstr :=
  match s with
  | c :: s' => if is_ws c then trimStart s' else s
  | [] => []
  end.

Definition trimEnd (s : jstr) : jstr := rev (trimStart (rev s)).

Definition trim (s : jstr) : jstr := trimEnd (trimStart s).

(** [s.search(/\S/)]: the index of the first character that is not white
    space, [-1] when there is none. *)
Fixpoint search_nonspace_from (i : Z) (s : jstr) : Z :=
  match s with
  | [] => (-1)%Z
  | c :: s' => if is_ws c then search_nonspace_from (i + 1)%Z s' else i
  end.

Definition search_nonspace (s : jstr) : Z := search_nonspace_from 0%Z s.

Fixpoint startsWith (p s : jstr) : bool :=
  match p, s with
  | [], _ => true
  | x :: p', y :: s' => (x =? y)%N && startsWith p' s'
  | _ :: _, [] => false
  end.

Definition endsWith (p s : jstr) : bool := startsWith (rev p) (rev s).

(** [s.includes(c)] for a one-character needle. *)
Definition includes (c : char) (s : jstr) : bool :=
  existsb (N.eqb c) s.

(** [s.split(c)] for a one-character separator. The result is never empty:
    [split1] gives its first piece and the others, which is how the source
    destructures it ([const [key, ...valueParts] = content.split(':')]). *)
Fixpoint split1 (sep : char) (s : jstr) : jstr * list jstr :=
  match s with
  | [] => ([], [])
  | c :: s' =>
      let (h, t) := split1 sep s' in
      if (c =? sep)%N then ([], h :: t) else (c :: h, t)
  end.

Definition split (sep : char) (s : jstr) : list jstr :=
  let (h, t) := split1 sep s in h :: t.

(** [parts.join(c)]. *)
Fixpoint join (sep : char) (parts : list jstr) : jstr :=
  match parts with
  | [] => []
  | [p] => p
  | p :: rest => p ++ sep :: join sep rest
  end.

(** [s.indexOf(c)]; only called where [c] occurs. *)
Fixpoint indexOf (c : char) (s : jstr) : nat :=
  match s with
  | [] => 0
  | x :: s' => if (x =? c)%N then 0 else S (indexOf c s')
  end.

(** [s.slice(0, -1)]. *)
Definition dropLast (s : jstr) : jstr := removelast s.

(** [s.replace(c, '')] with a string pattern: the first occurrence only. *)
Fixpoint removeFirst (c : char) (s : jstr) : jstr :=
  match s with
  | [] => []
  | x :: s' => if (x =? c)%N then s' else x :: removeFirst c s'
  end.

(** [s.replace(/^["']|["']$/g, '')]: the global replace scans the string
    from the left; at each position the first alternative needs the start of
    the input and the second one the last character. A match is deleted and
    the scan resumes behind it. *)
Fixpoint replace_quotes_from (at_start : bool) (s : jstr) : jstr :=
  match s with
  | [] => []
  | c :: s' =>
      if is_quote c && (at_start || negb (truthy s'))
      then replace_quotes_from false s'
      else c :: replace_quotes_from false s'
  end.

Definition stripQuotes (s : jstr) : jstr := replace_quotes_from true s.

(** ['  '.repeat(n)] and friends. *)
Fixpoint repeat_str (s : jstr) (n : nat) : jstr :=
  match n with
  | O => []
  | S n' => s ++ repeat_str s n'
  end.

End JsString.
Import JsString.

(* ================================================================== *)
(** * JavaScript values and plain objects *)
(* ================================================================== *)

Module JsValue.

(** The value shapes the codec exchanges: [null], a string, an array, a
    plain object; its scalars are strings. An object is the list of its own
    properties in the order [Object.keys] and [Object.entries] enumerate
    them; its values are data, never functions. *)
Inductive value : Type :=
| VNull
| VStr (s : jstr)
| VList (items : list value)
| VObj (props : list (jstr * value)).

Definition object := list (jstr * value).

Definition keys (o : object) : list jstr := List.map fst o.

(** Exceptions: the only one these functions can raise is a [TypeError]. *)
Inductive js_error := TypeError.

Inductive completion (A : Type) : Type :=
| OK (a : A)
| Throw (e : js_error).
Arguments OK {A} a.
Arguments Throw {A} e.

Definition bind {A B} (r : completion A) (f : A -> completion B) : completion B :=
  match r with
  | OK a => f a
  | Throw e => Throw e
  end.

(** ** Array indices

    A property key is an array index when it is the canonical decimal
    numeral of an integer below [2^32 - 1]: those keys are enumerated first,
    in ascending numeric order, ahead of the other string keys, which come in
    the order of their creation. *)
Definition digit_val (c : char) : option N :=
  if ((48 <=? c) && (c <=? 57))%N then Some (c - 48)%N else None.

Fixpoint digits_val (acc : N) (s : jstr) : option N :=
  match s with
  | [] => Some acc
  | c :: s' =>
      match digit_val c with
      | Some d => digits_val (10 * acc + d)%N s'
      | None => None
      end
  end.

Definition array_index (k : jstr) : option N :=
  match k with
  | [] => None
  | c :: k' =>
      if (c =? 48)%N && truthy k' then None
      else match digits_val 0%N k with
           | Some n => if (n <=? 4294967294)%N then Some n else None
           | None => None
           end
  end.

(** ** Own properties *)
Fixpoint obj_has (o : object) (k : jstr) : bool :=
  match o with
  | [] => false
  | (k', _) :: o' => eqb k' k || obj_has o' k
  end.

(** Writing an existing property keeps its place. *)
Fixpoint obj_update (o : object) (k : jstr) (v : value) : object :=
  match o with
  | [] => []
  | (k', v') :: o' =>
      if eqb k' k then (k, v) :: o' else (k', v') :: obj_update o' k v
  end.

(** A new array index goes after the smaller indices. *)
Fixpoint obj_insert_index (n : N) (k : jstr) (v : value) (o : object)
  : object :=
  match o with
  | [] => [(k, v)]
  | (k', v') :: o' =>
      match array_index k' with
      | Some m =>
          if (m <? n)%N then (k', v') :: obj_insert_index n k v o'
          else (k, v) :: o
      | None => (k, v) :: o
      end
  end.

Definition obj_define (o : object) (k : jstr) (v : value) : object :=
  if obj_has o k then obj_update o k v
  else match array_index k with
       | Some n => obj_insert_index n k v o
       | None => o ++ [(k, v)]
       end.

(** [o[k] = v] on an object created by [{}]. The key [__proto__] is the
    accessor inherited from [Object.prototype]: the assignment creates no
    own property (with a string it does nothing, with an array it replaces
    the prototype, which neither [Object.keys] nor [Object.entries] sees). *)
Definition obj_set (o : object) (k : jstr) (v : value) : object :=
  if eqb k (lit "__proto__") then o else obj_define o k v.

End JsValue.
Import JsValue.

(* ================================================================== *)
(** * parseYAML *)
(* ================================================================== *)

(** The variables the line loop of [parseYAML] mutates. [null] is [None];
    an array or an object, even an empty one, is truthy. *)
Record pstate : Type := mkState {
  result : object;
  currentKey : option jstr;
  currentList : option (list value);
  currentListItem : option object;
  inMultilineString : bool;
  multilineKey : option jstr;
  multilineContent : jstr;
  indentLevel : Z
}.

Definition init_state : pstate :=
  mkState [] None None None false None [] 0%Z.

Definition with_result (r : object) (st : pstate) : pstate :=
  mkState r (currentKey st) (currentList st) (currentListItem st)
          (inMultilineString st) (multilineKey st) (multilineContent st)
          (indentLevel st).

Definition with_currentKey (k : option jstr) (st : pstate) : pstate :=
  mkState (result st) k (currentList st) (currentListItem st)
          (inMultilineString st) (multilineKey st) (multilineContent st)
          (indentLevel st).

Definition with_list (l : option (list value)) (i : option object)
  (st : pstate) : pstate :=
  mkState (result st) (currentKey st) l i
          (inMultilineString st) (multilineKey st) (multilineContent st)
          (indentLevel st).

Definition with_multilineContent (c : jstr) (st : pstate) : pstate :=
  mkState (result st) (currentKey st) (currentList st) (currentListItem st)
          (inMultilineString st) (multilineKey st) c (indentLevel st).

(** A property key that is [null] is the string ["null"]. *)
Definition key_of (k : option jstr) : jstr :=
  match k with Some k => k | None => lit "null" end.

(** [if (currentKey) result[currentKey] = currentList]: the empty key is
    falsy, like [null]. *)
Definition commit_list (r : object) (k : option jstr) (l : list value)
  : object :=
  match k with
  | Some ((_ :: _) as key) => obj_set r key (VList l)
  | _ => r
  end.

(** [Object.keys(item).length > 0]. *)
Definition has_fields (item : object) : bool :=
  match item with [] => false | _ => true end.

(** Lines 139-144: a blank line or a comment. *)
Definition skip_line (st : pstate) (trimmed : jstr) : pstate :=
  if inMultilineString st && negb (truthy trimmed)
  then with_multilineContent (multilineContent st ++ [NL]) st
  else st.

(** Lines 146-155: inside a block scalar. [inl] is [continue]. *)
Definition multiline_line (st : pstate) (line trimmed : jstr)
  : pstate + pstate :=
  if inMultilineString st then
    let currentIndent := search_nonspace line in
    if (indentLevel st <? currentIndent)%Z then
      inl (with_multilineContent
             (multilineContent st
              ++ (if truthy (multilineContent st) then [NL] else [])
              ++ trimmed) st)
    else
      inr (mkState
             (obj_set (result st) (key_of (multilineKey st))
                      (VStr (trim (multilineContent st))))
             (currentKey st) (currentList st) (currentListItem st)
             false (multilineKey st) (multilineContent st) (indentLevel st))
  else inr st.

(** Lines 157-163: a line ending in the block scalar marker. *)
Definition open_block (st : pstate) (line trimmed : jstr) : pstate :=
  mkState (result st) (currentKey st) (currentList st) (currentListItem st)
          true
          (Some (trim (removeFirst COLON (dropLast trimmed))))
          []
          (search_nonspace line).

(** Lines 165-182: a line starting with a dash and a space. *)
Definition list_item (st : pstate) (trimmed : jstr) : pstate :=
  let content := skipn 2 trimmed in
  let list0 := match currentList st with Some l => l | None => [] end in
  if includes COLON content then
    let (key, valueParts) := split1 COLON content in
    let value := stripQuotes (trim (join COLON valueParts)) in
    let item0 := match currentListItem st with Some o => o | None => [] end in
    with_list (Some list0) (Some (obj_set item0 (trim key) (VStr value))) st
  else
    let entry := VObj [(lit "text", VStr (stripQuotes content))] in
    match currentListItem st with
    | Some item =>
        if has_fields item
        then with_list (Some ((list0 ++ [VObj item]) ++ [entry])) (Some []) st
        else with_list (Some (list0 ++ [entry])) (Some item) st
    | None => with_list (Some (list0 ++ [entry])) None st
    end.

(** Lines 186-191: a field of the open record. *)
Definition record_field (st : pstate) (item : object) (trimmed : jstr)
  : pstate :=
  if includes COLON trimmed then
    let (key, valueParts) := split1 COLON trimmed in
    let value := stripQuotes (trim (join COLON valueParts)) in
    with_list (currentList st) (Some (obj_set item (trim key) (VStr value))) st
  else st.

(** Lines 194-203: a key at column 0 closes the list. *)
Definition close_list (st : pstate) (leadingSpaces : Z) (trimmed : jstr)
  : pstate :=
  match currentList st with
  | Some l =>
      if (leadingSpaces =? 0)%Z && includes COLON trimmed then
        let (l', item') :=
          match currentListItem st with
          | Some item =>
              if has_fields item then (l ++ [VObj item], None)
              else (l, Some item)
          | None => (l, None)
          end in
        with_list None item'
          (with_result (commit_list (result st) (currentKey st) l') st)
      else st
  | None => st
  end.

(** Lines 205-215: a [key: value] line. *)
Definition key_value (st : pstate) (trimmed : jstr) : pstate :=
  if includes COLON trimmed && negb (startsWith [DASH] trimmed) then
    let colonIndex := indexOf COLON trimmed in
    let key := trim (firstn colonIndex trimmed) in
    let value := stripQuotes (trim (skipn (colonIndex + 1) trimmed)) in
    if negb (truthy value) && negb (endsWith [PIPE] trimmed)
    then with_currentKey (Some key) st
    else with_result (obj_set (result st) key (VStr value)) st
  else st.

(** The body of the [for] loop. *)
Definition step (st : pstate) (line : jstr) : pstate :=
  let trimmed := trim line in
  if negb (truthy trimmed) || startsWith [HASH] trimmed then
    skip_line st trimmed
  else
    match multiline_line st line trimmed with
    | inl st' => st'
    | inr st1 =>
        if endsWith [PIPE] trimmed then open_block st1 line trimmed
        else if startsWith [DASH; SP] trimmed then list_item st1 trimmed
        else
          let leadingSpaces := search_nonspace line in
          match currentListItem st1 with
          | Some item =>
              if (4 <=? leadingSpaces)%Z then record_field st1 item trimmed
              else key_value (close_list st1 leadingSpaces trimmed) trimmed
          | None => key_value (close_list st1 leadingSpaces trimmed) trimmed
          end
    end.

(** Lines 218-227: after the loop. *)
Definition finish (st : pstate) : object :=
  match currentList st with
  | Some l =>
      let l' :=
        match currentListItem st with
        | Some item => if has_fields item then l ++ [VObj item] else l
        | None => l
        end in
      commit_list (result st) (currentKey st) l'
  | None => result st
  end.

Definition parseYAML (text : jstr) : object :=
  finish (fold_left step (split NL text) init_state).

(* ================================================================== *)
(** * toYAML *)
(* ================================================================== *)

(** The decimal numeral of an array position, the key under which
    [Object.entries] lists an array element. *)
Fixpoint digits_of_uint (d : Decimal.uint) : jstr :=
  match d with
  | Decimal.Nil => []
  | Decimal.D0 d' => 48%N :: digits_of_uint d'
  | Decimal.D1 d' => 49%N :: digits_of_uint d'
  | Decimal.D2 d' => 50%N :: digits_of_uint d'
  | Decimal.D3 d' => 51%N :: digits_of_uint d'
  | Decimal.D4 d' => 52%N :: digits_of_uint d'
  | Decimal.D5 d' => 53%N :: digits_of_uint d'
  | Decimal.D6 d' => 54%N :: digits_of_uint d'
  | Decimal.D7 d' => 55%N :: digits_of_uint d'
  | Decimal.D8 d' => 56%N :: digits_of_uint d'
  | Decimal.D9 d' => 57%N :: digits_of_uint d'
  end.

Definition index_key (i : nat) : jstr := digits_of_uint (Nat.to_uint i).

Fixpoint indexed (i : nat) (items : list value) : object :=
  match items with
  | [] => []
  | x :: rest => (index_key i, x) :: indexed (S i) rest
  end.

(** The string a template literal interpolates for a value. An array is its
    elements joined by commas, [null] elements being empty; a plain object is
    ["[object Object]"], unless an own property shadows [toString]: it is not
    callable, [valueOf] returns the object itself, and the conversion raises
    a [TypeError]. *)
Fixpoint toStr (v : value) : completion jstr :=
  match v with
  | VNull => OK (lit "null")
  | VStr s => OK s
  | VList items =>
      (fix join_items (l : list value) : completion jstr :=
         match l with
         | [] => OK []
         | x :: rest =>
             bind (match x with VNull => OK [] | _ => toStr x end) (fun a =>
             match rest with
             | [] => OK a
             | _ => bind (join_items rest) (fun b => OK (a ++ COMMA :: b))
             end)
         end) items
  | VObj props =>
      if obj_has props (lit "toString") then Throw TypeError
      else OK (lit "[object Object]")
  end.

(** Lines 243 and 245: one field of a record, behind its prefix. *)
Definition emit_field (pre : jstr) (kv : jstr * value) : completion jstr :=
  bind (toStr (snd kv)) (fun s =>
  OK (pre ++ fst kv ++ lit ": " ++ [DQ] ++ s ++ [DQ; NL])).

Fixpoint emit_more (pre : jstr) (es : object) : completion jstr :=
  match es with
  | [] => OK []
  | kv :: es' =>
      bind (emit_field pre kv) (fun a =>
      bind (emit_more pre es') (fun b => OK (a ++ b)))
  end.

(** Lines 241-247: the entries of an item whose [typeof] is ['object']. *)
Definition emit_record (spaces : jstr) (entries : object)
  : completion jstr :=
  match entries with
  | [] => OK []
  | first :: more =>
      bind (emit_field (spaces ++ lit "  - ") first) (fun a =>
      bind (emit_more (spaces ++ lit "    ") more) (fun b =>
      OK (a ++ b)))
  end.

(** Lines 240-250: what one element of an array adds to [yaml].
    [typeof null] is ['object'] and [Object.entries(null)] raises a
    [TypeError]; the entries of an array are its elements under their
    positions. *)
Definition emit_item (spaces : jstr) (item : value) : completion jstr :=
  match item with
  | VStr s => OK (spaces ++ lit "  - " ++ [DQ] ++ s ++ [DQ; NL])
  | VNull => Throw TypeError
  | VObj props => emit_record spaces props
  | VList items => emit_record spaces (indexed 0 items)
  end.

Fixpoint emit_items (spaces : jstr) (items : list value) : completion jstr :=
  match items with
  | [] => OK []
  | item :: rest =>
      bind (emit_item spaces item) (fun a =>
      bind (emit_items spaces rest) (fun b => OK (a ++ b)))
  end.

(** Lines 255-258: a block scalar. *)
Definition emit_block (spaces : jstr) (s : jstr) : jstr :=
  concat (List.map (fun line => spaces ++ lit "  " ++ line ++ [NL])
                   (split NL s)).

(** Lines 235-261, the body of the loop over [Object.entries(obj)]: what the
    entry [key, value] adds to [yaml]. The recursive call of [toYAML] on a
    nested object is the inner loop over its properties. *)
Fixpoint emit_entry (indent : nat) (key : jstr) (value : value)
  {struct value} : completion jstr :=
  let spaces := repeat_str (lit "  ") indent in
  match value with
  | VNull => OK []
  | VList items =>
      bind (emit_items spaces items) (fun sub =>
      OK (spaces ++ key ++ [COLON; NL] ++ sub))
  | VObj props =>
      bind ((fix each (es : list (jstr * JsValue.value)) : completion jstr :=
               match es with
               | [] => OK []
               | (k, v) :: es' =>
                   bind (emit_entry (S indent) k v) (fun a =>
                   bind (each es') (fun b => OK (a ++ b)))
               end) props) (fun sub =>
      OK (spaces ++ key ++ [COLON; NL] ++ sub))
  | VStr s =>
      if includes NL s
      then OK (spaces ++ key ++ lit ": |" ++ [NL] ++ emit_block spaces s)
      else OK (spaces ++ key ++ lit ": " ++ [DQ] ++ s ++ [DQ; NL])
  end.

(** [toYAML(obj, indent)]: [yaml] is the concatenation of what each entry
    adds, in the order of [Object.entries]. *)
Fixpoint toYAML (obj : object) (indent : nat) : completion jstr :=
  match obj with
  | [] => OK []
  | (k, v) :: es' =>
      bind (emit_entry indent k v) (fun a =>
      bind (toYAML es' indent) (fun b => OK (a ++ b)))
  end.

(* ================================================================== *)
(** * The frontmatter codec *)
(* ================================================================== *)

(** The first place where [sep] occurs in [s]: what is before it and what is
    after it. *)
Fixpoint cut (sep s : jstr) : option (jstr * jstr) :=
  if startsWith sep s then Some ([], skipn (length sep) s)
  else match s with
       | [] => None
       | c :: s' =>
           match cut sep s' with
           | Some (a, b) => Some (c :: a, b)
           | None => None
           end
       end.

Definition delimiter : jstr := lit "---".

(** [text.match(re)] for the pattern of line 268: the delimiter line at
    the start of the input, a lazy group of any characters, a newline, the
    delimiter, a newline, and a greedy group of any characters up to the end
    of the input. The lazy group stops at the first closing delimiter line
    that a newline follows, the second group takes the rest. The result is
    the two groups. *)
Definition frontmatter_match (text : jstr) : option (jstr * jstr) :=
  if startsWith (delimiter ++ [NL]) text
  then cut (NL :: delimiter ++ [NL]) (skipn 4 text)
  else None.

Record document : Type := mkDoc { data : object; content : jstr }.

Definition parseFrontmatter (text : jstr) : document :=
  match frontmatter_match text with
  | None => mkDoc [] text
  | Some (g1, g2) => mkDoc (parseYAML g1) (trim g2)
  end.

(** [toMarkdown(data, content)]: [md] after each of its four statements. *)
Definition toMarkdown (data : object) (content : jstr) : completion jstr :=
  let md0 := delimiter ++ [NL] in
  bind (toYAML data 0) (fun yaml =>
  let md1 := md0 ++ yaml in
  let md2 := md1 ++ delimiter ++ [NL; NL] in
  let md3 := md2 ++ content in
  OK md3).

(* ================================================================== *)
(** * What the statements below are written with *)
(* ================================================================== *)

(** ** Objects in enumeration order *)

(** [key_before a b]: the key [a] is enumerated ahead of the key [b]. *)
Definition key_before (a b : jstr) : Prop :=
  match array_index a, array_index b with
  | Some m, Some n => (m < n)%N
  | Some _, None => True
  | None, Some _ => False
  | None, None => True
  end.

(** The own properties of an object: no key twice, the array indices first
    and ascending. *)
Definition wf_obj (o : object) : Prop :=
  NoDup (keys o) /\ StronglySorted key_before (keys o).

(** [o[k] = v] for each entry of [es] in turn. *)
Definition write_all (acc : object) (es : object) : object :=
  fold_left (fun o kv => obj_set o (fst kv) (snd kv)) es acc.

(** ** The values [parseYAML] builds *)

Definition is_string (v : value) : bool :=
  match v with VStr _ => true | _ => false end.

Definition string_fields (o : object) : Prop :=
  Forall (fun v => is_string v = true) (List.map snd o).

(** A record of a list: an object with string fields. *)
Definition is_record (v : value) : Prop :=
  match v with
  | VObj fields => wf_obj fields /\ string_fields fields
  | _ => False
  end.

(** A value of the result: a string or a list of records. *)
Definition parsed_value (v : value) : Prop :=
  match v with
  | VStr _ => True
  | VList items => Forall is_record items
  | _ => False
  end.

(** A mapping as [parseYAML] returns them. *)
Definition parsed_mapping (o : object) : Prop :=
  wf_obj o /\ Forall parsed_value (List.map snd o).

(** What the loop keeps true of its variables. *)
Definition state_ok (st : pstate) : Prop :=
  parsed_mapping (result st)
  /\ match currentList st with
     | Some l => Forall is_record l
     | None => True
     end
  /\ match currentListItem st with
     | Some item => wf_obj item /\ string_fields item
     | None => True
     end.

(** The loop is neither in a list nor in a block scalar. *)
Definition at_top (st : pstate) : Prop :=
  currentList st = None /\ currentListItem st = None
  /\ inMultilineString st = false.

(** A line no branch of the loop recognizes, read outside a block scalar. *)
Definition unrecognized (line : jstr) : bool :=
  let trimmed := trim line in
  truthy trimmed && negb (startsWith [HASH] trimmed)
  && negb (endsWith [PIPE] trimmed) && negb (startsWith [DASH; SP] trimmed)
  && negb (includes COLON trimmed).

(** ** Quotes *)

Definition strip_leading_quote (s : jstr) : jstr :=
  match s with
  | c :: s' => if is_quote c then s' else s
  | [] => []
  end.

Definition strip_trailing_quote (s : jstr) : jstr :=
  match rev s with
  | c :: r => if is_quote c then rev r else s
  | [] => []
  end.

(** ** The subset the round trip is claimed for *)

Definition single_line (s : jstr) : bool := negb (includes NL s).

(** A record with one level of string fields. *)
Definition flat_record (v : value) : bool :=
  match v with
  | VObj fields => forallb is_string (List.map snd fields)
  | _ => false
  end.

(** A string, a list of strings, a list of single-level records, or a
    nested mapping of such values. *)
Fixpoint supported (v : value) : bool :=
  match v with
  | VNull => false
  | VStr _ => true
  | VList items => forallb is_string items || forallb flat_record items
  | VObj props =>
      (fix all (es : list (jstr * value)) : bool :=
         match es with
         | [] => true
         | (_, x) :: es' => supported x && all es'
         end) props
  end.

(** ** Flat mappings *)

(** A key that a [key: "value"] line gives back: already trimmed, without
    colon or newline, not starting like a comment or a list item, and not
    the accessor [__proto__]. *)
Definition key_ok (k : jstr) : bool :=
  eqb (trim k) k && negb (includes COLON k) && negb (includes NL k)
  && negb (startsWith [HASH] k) && negb (startsWith [DASH] k)
  && negb (eqb k (lit "__proto__")).

(** A scalar that a [key: "value"] line gives back: not empty, one line. *)
Definition scalar_ok (s : jstr) : bool := truthy s && single_line s.

(** The line the serializer writes for a string entry at indentation 0. *)
Definition scalar_line (k s : jstr) : jstr :=
  k ++ lit ": " ++ [DQ] ++ s ++ [DQ].

(** [key: "value"] lines, each closed by a newline. *)
Fixpoint scalar_lines (kvs : list (jstr * jstr)) : jstr :=
  match kvs with
  | [] => []
  | (k, s) :: rest => scalar_line k s ++ NL :: scalar_lines rest
  end.

Definition source_entry (ks : jstr * jstr) : bool :=
  key_ok (fst ks) && scalar_ok (snd ks).

(** The mapping with these keys and string values, in this order. *)
Definition flat_mapping (kvs : list (jstr * jstr)) : object :=
  List.map (fun ks => (fst ks, VStr (snd ks))) kvs.

(** ** The frontmatter pattern *)

Definition opening : jstr := delimiter ++ [NL].
Definition closing : jstr := NL :: delimiter ++ [NL].

(** The text is an opening delimiter line, a metadata block, a closing
    delimiter line with its newline, and a body. *)
Definition frontmatter_pattern (text : jstr) : Prop :=
  exists meta body : jstr, text = opening ++ meta ++ closing ++ body.

(** [sep] occurs in [s]. *)
Definition occurs (sep s : jstr) : Prop :=
  exists a b : jstr, s = a ++ sep ++ b.

(** ** Texts and mappings of the examples *)

(** Lines joined by newlines, and a string between double quotes. *)
Definition text_of (lines : list jstr) : jstr := join NL lines.
Definition quoted (s : jstr) : jstr := DQ :: s ++ [DQ].

Definition stats_text : jstr :=
  text_of [ lit "stats:";
            lit "  - number: " ++ quoted (lit "500");
            lit "    label: " ++ quoted (lit "Workouts");
            lit "  - number: " ++ quoted (lit "10");
            lit "    label: " ++ quoted (lit "Years") ].

Definition stats_records : list value :=
  [ VObj [(lit "number", VStr (lit "500")); (lit "label", VStr (lit "Workouts"))];
    VObj [(lit "number", VStr (lit "10")); (lit "label", VStr (lit "Years"))] ].

Definition bio_text : jstr :=
  text_of [ lit "bio: |"; lit "  Line one."; []; lit "  Line two." ].

Definition bio_value : jstr :=
  text_of [ lit "Line one."; []; lit "Line two." ].

(** Mappings of the claimed subset that do not come back. *)
Definition m_tags : object :=
  [(lit "tags", VList [VStr (lit "a"); VStr (lit "b")])].
Definition m_stats : object := [(lit "stats", VList stats_records)].
Definition m_nested : object :=
  [(lit "social", VObj [(lit "twitter", VStr (lit "x"))])].
Definition m_bio : object := [(lit "bio", VStr bio_value)].
Definition m_empty : object := [(lit "title", VStr [])].

Definition year_text : jstr := text_of [ lit "b: x"; lit "2020: y" ].
Definition year_mapping : object :=
  obj_set (obj_set [] (lit "b") (VStr (lit "x"))) (lit "2020") (VStr (lit "y")).

Definition two_closings : jstr :=
  text_of [ lit "---"; lit "a: 1"; lit "---"; lit "x"; lit "---" ].

Definition not_index (ks : jstr * jstr) : bool :=
  match array_index (fst ks) with None => true | Some _ => false end.

(* ================================================================== *)
(** * The handlers around the codec *)
(* ================================================================== *)

(** [s.replace(pat, '')] with a string pattern: the first occurrence of
    [pat] is taken out. *)
Definition remove_substring (pat s : jstr) : jstr :=
  match cut pat s with
  | Some (a, b) => a ++ b
  | None => s
  end.

(** ** authenticateRequest (lines 42-57)

    [verifyJWT] computes an HMAC and reads the clock; it is a parameter
    here. It catches what it raises and returns either a payload or an
    error message. *)
Inductive verification (P : Type) : Type :=
| Valid (payload : P)
| Invalid (error : jstr).
Arguments Valid {P} payload.
Arguments Invalid {P} error.

Inductive authentication (P : Type) : Type :=
| Authenticated (user : P)
| Rejected (error : jstr).
Arguments Authenticated {P} user.
Arguments Rejected {P} error.

(** Lines 43-44: [req.headers.authorization || ''] without the first
    ["Bearer "] in it. *)
Definition bearer_token (authorization : option jstr) : jstr :=
  let authHeader :=
    match authorization with
    | Some h => if truthy h then h else []
    | None => []
    end in
  remove_substring (lit "Bearer ") authHeader.

Definition authenticateRequest {P : Type}
  (verifyJWT : jstr -> verification P) (authorization : option jstr)
  : authentication P :=
  let token := bearer_token authorization in
  if negb (truthy token) then Rejected (lit "No token provided")
  else match verifyJWT token with
       | Invalid error => Rejected error
       | Valid payload => Authenticated payload
       end.

(** ** The slug of a new post (lines 404-408)

    [toLowerCase] follows the Unicode case mappings; it is a parameter. *)
Definition is_slug_char (c : char) : bool :=
  ((97 <=? c) && (c <=? 122) || (48 <=? c) && (c <=? 57))%N.

(** [s.replace(/[^a-z0-9]+/g, '-')]: each maximal run of characters outside
    [a-z0-9] becomes one dash. [in_run] says that the run the scan is in has
    its dash already. *)
Fixpoint dashify_from (in_run : bool) (s : jstr) : jstr :=
  match s with
  | [] => []
  | c :: s' =>
      if is_slug_char c then c :: dashify_from false s'
      else if in_run then dashify_from true s'
      else DASH :: dashify_from true s'
  end.

(** [s.replace(/^-|-$/g, '')], scanned like the quotes of [stripQuotes]. *)
Fixpoint replace_dashes_from (at_start : bool) (s : jstr) : jstr :=
  match s with
  | [] => []
  | c :: s' =>
      if (c =? DASH)%N && (at_start || negb (truthy s'))
      then replace_dashes_from false s'
      else c :: replace_dashes_from false s'
  end.

Definition newSlug (toLowerCase : jstr -> jstr) (title : jstr) : jstr :=
  replace_dashes_from true (dashify_from false (toLowerCase title)).

Definition blogDir : jstr := lit "content/blog".

(** Lines 390, 408 and 420: the file of a slug. *)
Definition blog_file (slug : jstr) : jstr :=
  blogDir ++ lit "/" ++ slug ++ lit ".md".

(** ** Reading a property *)

(** [o[k]] for a key that [Object.prototype] does not define. *)
Fixpoint obj_get (o : object) (k : jstr) : option value :=
  match o with
  | [] => None
  | (k', v) :: o' => if eqb k' k then Some v else obj_get o' k
  end.

(** ** The listing of the posts (lines 367-383)

    An object literal that ends in [...source], [target] being the
    properties written ahead of the spread: each own property of [source],
    in its order, is defined on the object, over a property of the same key
    if there is one. The key [__proto__] is defined like any other. *)
Definition spread (target source : object) : object :=
  fold_left (fun o kv => obj_define o (fst kv) (snd kv)) source target.

(** Lines 372-381: what the listing pushes for a file of the blog directory
    whose name, hash and text are given: [slug] and [sha], then the
    metadata of the text spread over them. A file whose name does not end
    in [.md] is not listed. *)
Definition listed_post (name sha text : jstr) : option object :=
  if endsWith (lit ".md") name then
    Some (spread [ (lit "slug", VStr (remove_substring (lit ".md") name));
                   (lit "sha", VStr sha) ]
                 (data (parseFrontmatter text)))
  else None.

(** ** The creation of a post (lines 398-412)

    The path and the text of the file that a POST request with the body
    [{ data, content }] writes; [None] is the answer 400 for a title that
    is missing or falsy. A title that is an array or an object has no
    [toLowerCase] and the call raises. [content || ''] is [content]. *)
Definition new_post (toLowerCase : jstr -> jstr) (data : object)
  (content : jstr) : completion (option (jstr * jstr)) :=
  match obj_get data (lit "title") with
  | None | Some VNull => OK None
  | Some (VStr title) =>
      if truthy title then
        let filePath := blog_file (newSlug toLowerCase title) in
        bind (toMarkdown data content) (fun markdown =>
        OK (Some (filePath, markdown)))
      else OK None
  | Some (VList _) | Some (VObj _) => Throw TypeError
  end.

(** ** What the page does with the quotes (loadQuotes) *)

Definition truthy_value (v : value) : bool :=
  match v with
  | VNull => false
  | VStr s => truthy s
  | VList _ | VObj _ => true
  end.

(** [q => q.text || q]; reading a property of [null] raises. *)
Definition quote_text (q : value) : completion value :=
  match q with
  | VNull => Throw TypeError
  | VObj fields =>
      match obj_get fields (lit "text") with
      | Some t => if truthy_value t then OK t else OK q
      | None => OK q
      end
  | VStr _ | VList _ => OK q
  end.

Fixpoint map_quotes (qs : list value) : completion (list value) :=
  match qs with
  | [] => OK []
  | q :: qs' =>
      bind (quote_text q) (fun t =>
      bind (map_quotes qs') (fun ts => OK (t :: ts)))
  end.

(** [window.dynamicQuotes] after [loadQuotes], if it is assigned:
    [data.quotes.map(q => q.text || q)] when [data.quotes] is an array. *)
Definition dynamicQuotes (data : object) : completion (option (list value)) :=
  match obj_get data (lit "quotes") with
  | Some (VList qs) => bind (map_quotes qs) (fun ts => OK (Some ts))
  | _ => OK None
  end.

(** ** What the further statements are written with *)

Definition drop_leading_dash (s : jstr) : jstr :=
  match s with
  | c :: s' => if (c =? DASH)%N then s' else s
  | [] => []
  end.

Definition drop_trailing_dash (s : jstr) : jstr :=
  match rev s with
  | c :: r => if (c =? DASH)%N then rev r else s
  | [] => []
  end.

(** A line of a block scalar that is read back as it is: not blank,
    without white space around it, not a comment. *)
Definition clean_line (b : jstr) : bool :=
  truthy b && eqb (trim b) b && negb (startsWith [HASH] b)
  && negb (includes NL b).

(** The lines of a multiline string that is read back as it is: two lines
    at least, the first and the last one clean, the others clean or empty. *)
Definition block_ok (bs : list jstr) : bool :=
  match bs with
  | b1 :: (_ :: _) as rest =>
      clean_line b1 && clean_line (last rest [])
      && forallb (fun b => clean_line b || negb (truthy b)) rest
  | _ => false
  end.

(** The lines the serializer writes for a multiline string under [k]. *)
Definition block_header (k : jstr) : jstr := k ++ lit ": |".
Definition block_line (b : jstr) : jstr := lit "  " ++ b.

(** The variables of the loop inside the block scalar of [k], opened at
    column 0 at the top level. *)
Definition in_block (st : pstate) (k text : jstr) : pstate :=
  mkState (result st) (currentKey st) None None true (Some k) text 0%Z.

(** The variables once a line at column 0 has closed that block. *)
Definition block_closed (st : pstate) (k text : jstr) : pstate :=
  mkState (obj_set (result st) k (VStr (trim text))) (currentKey st)
          None None false (Some k) text 0%Z.

(** The lines the serializer writes for a list that holds one record. *)
Definition first_field_line (f v : jstr) : jstr :=
  lit "  - " ++ scalar_line f v.
Definition field_line (f v : jstr) : jstr :=
  lit "    " ++ scalar_line f v.

(** A field that such a line gives back: the value may be empty. *)
Definition field_ok (fv : jstr * jstr) : bool :=
  key_ok (fst fv) && single_line (snd fv).

(** The variables of the loop inside the only record of the list under
    [k]. *)
Definition in_record (k : jstr) (item : object) : pstate :=
  mkState [] (Some k) (Some []) (Some item) false None [] 0%Z.

(** The variables of the loop while it reads the items of the list under
    [k] at the start of a text. *)
Definition in_list (k : jstr) (items : option (list value)) : pstate :=
  mkState [] (Some k) items None false None [] 0%Z.

(** The line is skipped at the top of the loop: blank, or a comment. *)
Definition skippable (line : jstr) : bool :=
  negb (truthy (trim line)) || startsWith [HASH] (trim line).

(** The line opens a block scalar. *)
Definition opens_block (line : jstr) : bool :=
  endsWith [PIPE] (trim line).

(** The value of the last line that has the key [k]. *)
Definition last_value (k : jstr) (kvs : list (jstr * jstr)) : option jstr :=
  fold_left (fun found ks => if eqb (fst ks) k then Some (snd ks) else found)
            kvs None.

(** The lines the serializer writes for a list of strings under [k]. *)
Definition list_header (k : jstr) : jstr := k ++ [COLON].
Definition list_line (s : jstr) : jstr := lit "  - " ++ quoted s.

Fixpoint list_lines (ss : list jstr) : jstr :=
  match ss with
  | [] => []
  | s :: rest => list_line s ++ NL :: list_lines rest
  end.

Definition text_record (s : jstr) : value := VObj [(lit "text", VStr s)].

(** A string that a [- "value"] line gives back. *)
Definition item_ok (s : jstr) : bool :=
  negb (includes COLON s) && negb (includes NL s).

(** ** Texts in the forms the serializer writes *)

(** An entry of such a text: a string on one line, a list of strings, a
    list that holds one record, a multiline string. *)
Inductive entry : Type :=
| EScalar (k s : jstr)
| EStrings (k : jstr) (ss : list jstr)
| ERecord (k : jstr) (fields : list (jstr * jstr))
| EBlock (k : jstr) (bs : list jstr).

Definition entry_key (e : entry) : jstr :=
  match e with
  | EScalar k _ | EStrings k _ | ERecord k _ | EBlock k _ => k
  end.

(** The value that [toYAML] is given for the entry. *)
Definition entry_value (e : entry) : value :=
  match e with
  | EScalar _ s => VStr s
  | EStrings _ ss => VList (List.map VStr ss)
  | ERecord _ fields => VList [VObj (flat_mapping fields)]
  | EBlock _ bs => VStr (join NL bs)
  end.

(** The value that [parseYAML] stores for the entry: a string of a list
    comes back as a [text] record, the fields of a record are written one
    after the other. *)
Definition entry_parsed (e : entry) : value :=
  match e with
  | EScalar _ s => VStr s
  | EStrings _ ss => VList (List.map text_record ss)
  | ERecord _ fields => VList [VObj (write_all [] (flat_mapping fields))]
  | EBlock _ bs => VStr (join NL bs)
  end.

(** The lines that [toYAML] writes for the entry at indentation 0. *)
Definition entry_lines (e : entry) : list jstr :=
  match e with
  | EScalar k s => [scalar_line k s]
  | EStrings k ss => list_header k :: List.map list_line ss
  | ERecord k [] => [list_header k]
  | ERecord k ((f, v) :: more) =>
      list_header k :: first_field_line f v
      :: List.map (fun fv => field_line (fst fv) (snd fv)) more
  | EBlock k bs => block_header k :: List.map block_line bs
  end.

Definition is_list_entry (e : entry) : bool :=
  match e with EStrings _ _ | ERecord _ _ => true | _ => false end.

Definition is_block_entry (e : entry) : bool :=
  match e with EBlock _ _ => true | _ => false end.

Definition nonempty {A : Type} (l : list A) : bool :=
  match l with [] => false | _ => true end.

(** An entry that is read back: its key and its strings are as the lines
    give them back, a list has a key that is not empty and an item. *)
Definition entry_ok (e : entry) : bool :=
  match e with
  | EScalar k s => key_ok k && scalar_ok s
  | EStrings k ss => key_ok k && truthy k && nonempty ss && forallb item_ok ss
  | ERecord k fields =>
      key_ok k && truthy k && nonempty fields && forallb field_ok fields
  | EBlock k bs => key_ok k && block_ok bs
  end.

(** A text of such entries in which no multiline string comes right behind
    a list. *)
Fixpoint doc_ok (doc : list entry) : bool :=
  match doc with
  | [] => true
  | e :: rest =>
      entry_ok e
      && match rest with
         | [] => true
         | e2 :: _ => negb (is_list_entry e && is_block_entry e2)
         end
      && doc_ok rest
  end.

(** The last entry of the text is a multiline string. *)
Definition ends_in_block (doc : list entry) : bool :=
  match doc with
  | [] => false
  | e :: rest => is_block_entry (last rest e)
  end.

Definition doc_object (doc : list entry) : object :=
  List.map (fun e => (entry_key e, entry_value e)) doc.

Definition doc_parsed (doc : list entry) : object :=
  List.map (fun e => (entry_key e, entry_parsed e)) doc.

Definition doc_lines (doc : list entry) : list jstr :=
  concat (List.map entry_lines doc).

Definition doc_text (doc : list entry) : jstr :=
  concat (List.map (fun l => l ++ [NL]) (doc_lines doc)).

(** A line at column 0 that holds a colon and is neither skipped nor an
    item of a list. *)
Definition key_line (line : jstr) : bool :=
  negb (skippable line) && (search_nonspace line =? 0)%Z
  && includes COLON (trim line) && negb (startsWith [DASH; SP] (trim line)).

(** A key that is not an array index. *)
Definition plain_key (k : jstr) : bool :=
  match array_index k with None => true | Some _ => false end.

(** The keys of [o] that are no array indices are enumerated by [o'] in
    the same order, ahead of those that [o'] adds. *)
Definition keeps_order (o o' : object) : Prop :=
  exists more : list jstr,
    filter plain_key (keys o') = filter plain_key (keys o) ++ more.

(** The result once the entry [e], read behind the result [r], is stored. *)
Definition settled (r : object) (e : entry) : object :=
  obj_set r (entry_key e) (entry_parsed e).

(** The variables of the loop when the lines of the entry [e] have been
    read behind the result [r]: a string is stored, a list or a multiline
    string is still open. *)
Definition after (r : object) (e : entry) (st : pstate) : Prop :=
  match e with
  | EScalar _ _ => at_top st /\ result st = settled r e
  | EStrings k ss =>
      result st = r /\ currentKey st = Some k
      /\ currentList st = Some (List.map text_record ss)
      /\ currentListItem st = None /\ inMultilineString st = false
  | ERecord k fields =>
      result st = r /\ currentKey st = Some k
      /\ currentList st = Some []
      /\ currentListItem st = Some (write_all [] (flat_mapping fields))
      /\ inMultilineString st = false
  | EBlock k bs =>
      exists st0, result st0 = r /\ st = in_block st0 k (join NL bs)
  end.

(** A text in which a multiline string comes right behind a list. *)
Definition list_then_block_text : jstr :=
  text_of [ lit "items:"; lit "  - a"; lit "bio: |"; lit "  text";
            lit "name: x" ].

(* ================================================================== *)
(** * Strings: lemmas *)
(* ================================================================== *)

Section StringLemmas.

Lemma eqb_eq (a b : jstr) : eqb a b = true <-> a = b.
Proof.
  revert b; induction a as [|x a IH]; intros [|y b]; simpl; split;
    try congruence; try reflexivity.
  - intros H. apply andb_true_iff in H as [H1 H2].
    apply N.eqb_eq in H1. apply IH in H2. congruence.
  - intros H. injection H as -> ->.
    apply andb_true_iff. split; [apply N.eqb_refl | now apply IH].
Qed.

Lemma eqb_refl (a : jstr) : eqb a a = true.
Proof. now apply eqb_eq. Qed.

Lemma eqb_neq (a b : jstr) : eqb a b = false <-> a <> b.
Proof.
  split.
  - intros H E. apply eqb_eq in E. congruence.
  - intros H. destruct (eqb a b) eqn:E; [|reflexivity].
    apply eqb_eq in E. contradiction.
Qed.

Lemma startsWith_app (p s : jstr) : startsWith p (p ++ s) = true.
Proof.
  induction p as [|x p IH]; simpl; [reflexivity|].
  now rewrite N.eqb_refl.
Qed.

Lemma startsWith_spec (p s : jstr) :
  startsWith p s = true <-> exists r, s = p ++ r.
Proof.
  split.
  - revert s; induction p as [|x p IH]; intros s H.
    + now exists s.
    + destruct s as [|y s]; simpl in H; [discriminate|].
      apply andb_true_iff in H as [H1 H2]. apply N.eqb_eq in H1.
      destruct (IH _ H2) as [r ->]. exists r. now subst.
  - intros [r ->]. apply startsWith_app.
Qed.

Lemma skipn_length_app (p s : jstr) : skipn (length p) (p ++ s) = s.
Proof. induction p; simpl; auto. Qed.

Lemma includes_app (c : char) (a b : jstr) :
  includes c (a ++ b) = includes c a || includes c b.
Proof. unfold includes. apply existsb_app. Qed.

Lemma includes_false_cons (c x : char) (s : jstr) :
  includes c (x :: s) = false -> (x =? c)%N = false /\ includes c s = false.
Proof.
  unfold includes; simpl. intros H. apply orb_false_iff in H as [H1 H2].
  split; [now rewrite N.eqb_sym | assumption].
Qed.

(** *** trim *)

Lemma trimStart_length (s : jstr) : length (trimStart s) <= length s.
Proof.
  induction s as [|c s IH]; simpl; [lia|].
  destruct (is_ws c); simpl; lia.
Qed.

Lemma trimEnd_length (s : jstr) : length (trimEnd s) <= length s.
Proof.
  unfold trimEnd. rewrite length_rev.
  pose proof (trimStart_length (rev s)) as H. now rewrite length_rev in H.
Qed.

Lemma trimEnd_snoc (s : jstr) (c : char) :
  is_ws c = false -> trimEnd (s ++ [c]) = s ++ [c].
Proof.
  intros H. unfold trimEnd. rewrite rev_app_distr. simpl. rewrite H.
  simpl. now rewrite rev_involutive.
Qed.

Lemma trim_fixed_head (c : char) (s : jstr) :
  trim (c :: s) = c :: s -> is_ws c = false.
Proof.
  intros H. destruct (is_ws c) eqn:E; [|reflexivity].
  exfalso. unfold trim in H. simpl in H. rewrite E in H.
  apply (f_equal (@length char)) in H. simpl in H.
  pose proof (trimEnd_length (trimStart s)).
  pose proof (trimStart_length s). lia.
Qed.

Lemma trim_between (c : char) (s : jstr) (d : char) :
  is_ws c = false -> is_ws d = false ->
  trim (c :: s ++ [d]) = c :: s ++ [d].
Proof.
  intros Hc Hd. unfold trim. simpl. rewrite Hc.
  change (c :: s ++ [d]) with ((c :: s) ++ [d]). now apply trimEnd_snoc.
Qed.

Lemma trim_nil : trim [] = [].
Proof. reflexivity. Qed.

(** *** split *)

Lemma split1_no_sep (sep : char) (s : jstr) :
  includes sep s = false -> split1 sep s = (s, []).
Proof.
  induction s as [|c s IH]; intros H; simpl; [reflexivity|].
  apply includes_false_cons in H as [H1 H2].
  rewrite (IH H2), H1. reflexivity.
Qed.

Lemma split1_app (sep : char) (a b : jstr) :
  includes sep a = false ->
  split1 sep (a ++ sep :: b) = (a, split sep b).
Proof.
  induction a as [|c a IH]; intros H; simpl.
  - rewrite N.eqb_refl. unfold split. now destruct (split1 sep b).
  - apply includes_false_cons in H as [H1 H2].
    rewrite (IH H2), H1. reflexivity.
Qed.

Lemma split_no_sep (sep : char) (s : jstr) :
  includes sep s = false -> split sep s = [s].
Proof. intros H. unfold split. now rewrite split1_no_sep. Qed.

Lemma split_app (sep : char) (a b : jstr) :
  includes sep a = false ->
  split sep (a ++ sep :: b) = a :: split sep b.
Proof. intros H. unfold split at 1. now rewrite split1_app. Qed.

Lemma indexOf_app (c : char) (a b : jstr) :
  includes c a = false -> indexOf c (a ++ c :: b) = length a.
Proof.
  induction a as [|x a IH]; intros H; simpl.
  - now rewrite N.eqb_refl.
  - apply includes_false_cons in H as [H1 H2]. rewrite H1.
    now rewrite (IH H2).
Qed.

End StringLemmas.

(* ================================================================== *)
(** * Quote stripping: the scan against its reading *)
(* ================================================================== *)

Section Quotes.

Lemma strip_trailing_snoc (t : jstr) (e : char) :
  strip_trailing_quote (t ++ [e]) = if is_quote e then t else t ++ [e].
Proof.
  unfold strip_trailing_quote. rewrite rev_app_distr. simpl.
  destruct (is_quote e); [apply rev_involutive | reflexivity].
Qed.

Lemma strip_trailing_cons (c d : char) (s : jstr) :
  strip_trailing_quote (c :: d :: s) = c :: strip_trailing_quote (d :: s).
Proof.
  destruct (exists_last (l := d :: s)) as [t [e E]]; [discriminate|].
  rewrite E. change (c :: t ++ [e]) with ((c :: t) ++ [e]).
  rewrite !strip_trailing_snoc. now destruct (is_quote e).
Qed.

Lemma replace_quotes_inner (s : jstr) :
  replace_quotes_from false s = strip_trailing_quote s.
Proof.
  induction s as [|c s IH]; [reflexivity|].
  destruct s as [|d s].
  - simpl. unfold strip_trailing_quote. simpl.
    rewrite andb_true_r. now destruct (is_quote c).
  - rewrite strip_trailing_cons, <- IH.
    cbn [replace_quotes_from truthy negb orb]. now rewrite andb_false_r.
Qed.

Lemma stripQuotes_reading (s : jstr) :
  stripQuotes s = strip_trailing_quote (strip_leading_quote s).
Proof.
  unfold stripQuotes. destruct s as [|c s]; [reflexivity|].
  cbn [replace_quotes_from strip_leading_quote orb].
  rewrite andb_true_r, replace_quotes_inner.
  destruct (is_quote c) eqn:E; [reflexivity|].
  destruct s as [|d s].
  - unfold strip_trailing_quote. simpl. now rewrite E.
  - now rewrite strip_trailing_cons.
Qed.

Lemma stripQuotes_pair (q1 q2 : char) (body : jstr) :
  is_quote q1 = true -> is_quote q2 = true ->
  stripQuotes (q1 :: body ++ [q2]) = body.
Proof.
  intros H1 H2. rewrite stripQuotes_reading. simpl. rewrite H1.
  rewrite strip_trailing_snoc. now rewrite H2.
Qed.

Lemma stripQuotes_none (s : jstr) :
  is_quote (hd 0%N s) = false -> is_quote (last s 0%N) = false ->
  stripQuotes s = s.
Proof.
  intros H1 H2. rewrite stripQuotes_reading.
  destruct s as [|c s]; [reflexivity|].
  simpl in H1. cbn [strip_leading_quote]. rewrite H1.
  destruct (exists_last (l := c :: s)) as [t [e E]]; [discriminate|].
  rewrite E in *. rewrite last_last in H2.
  rewrite strip_trailing_snoc. now rewrite H2.
Qed.

End Quotes.

(* ================================================================== *)
(** * The frontmatter pattern: the matcher against its reading *)
(* ================================================================== *)

Section Frontmatter.

Lemma cut_eq (sep s : jstr) :
  cut sep s =
  if startsWith sep s then Some ([], skipn (length sep) s)
  else match s with
       | [] => None
       | c :: s' =>
           match cut sep s' with
           | Some (a, b) => Some (c :: a, b)
           | None => None
           end
       end.
Proof. destruct s; reflexivity. Qed.

Lemma startsWith_skipn (p s : jstr) :
  startsWith p s = true -> s = p ++ skipn (length p) s.
Proof.
  intros H. apply startsWith_spec in H as [r ->].
  now rewrite skipn_length_app.
Qed.

Lemma cut_Some (sep s a b : jstr) :
  cut sep s = Some (a, b) -> s = a ++ sep ++ b.
Proof.
  revert a b; induction s as [|c s IH]; intros a b; rewrite cut_eq.
  - destruct (startsWith sep []) eqn:E; [|discriminate].
    intros [= <- <-]. now apply startsWith_skipn.
  - destruct (startsWith sep (c :: s)) eqn:E.
    + intros [= <- <-]. now apply startsWith_skipn.
    + destruct (cut sep s) as [[a' b']|] eqn:C; [|discriminate].
      intros [= <- <-]. simpl. f_equal. now apply IH.
Qed.

Lemma cut_None (sep s : jstr) :
  cut sep s = None -> ~ occurs sep s.
Proof.
  intros H [a [b E]]. revert s H E.
  induction a as [|x a IH]; intros s H E; subst s; rewrite cut_eq in H.
  - simpl in H. now rewrite startsWith_app in H.
  - destruct (startsWith sep ((x :: a) ++ sep ++ b)); [discriminate|].
    simpl in H.
    destruct (cut sep (a ++ sep ++ b)) as [[a' b']|] eqn:C; [discriminate|].
    now apply (IH _ C).
Qed.

Lemma cut_occurs (sep s : jstr) :
  occurs sep s -> cut sep s <> None.
Proof. intros H C. now apply cut_None in C. Qed.

(** The lazy group is the shortest one. *)
Lemma cut_first (sep s a b : jstr) :
  cut sep s = Some (a, b) ->
  forall a' b', s = a' ++ sep ++ b' -> length a <= length a'.
Proof.
  revert a b; induction s as [|c s IH]; intros a b; rewrite cut_eq.
  - destruct (startsWith sep []); [|discriminate].
    intros [= <- _] a' b' _. simpl. lia.
  - destruct (startsWith sep (c :: s)) eqn:E.
    + intros [= <- _] a' b' _. simpl. lia.
    + destruct (cut sep s) as [[a0 b0]|] eqn:C; [|discriminate].
      intros [= <- <-] a' b' H. destruct a' as [|x a'].
      * simpl in H. rewrite H, startsWith_app in E. discriminate.
      * simpl in H. injection H as _ H. simpl.
        apply le_n_S. now apply (IH a0 b0 eq_refl a' b').
Qed.

Lemma frontmatter_match_Some (text g1 g2 : jstr) :
  frontmatter_match text = Some (g1, g2) ->
  text = opening ++ g1 ++ closing ++ g2.
Proof.
  unfold frontmatter_match. fold opening.
  destruct (startsWith opening text) eqn:E; [|discriminate].
  apply startsWith_spec in E as [r ->].
  change 4 with (length opening). rewrite skipn_length_app.
  intros H. apply cut_Some in H. now subst r.
Qed.

Lemma frontmatter_match_pattern (text : jstr) :
  frontmatter_match text <> None <-> frontmatter_pattern text.
Proof.
  split.
  - destruct (frontmatter_match text) as [[g1 g2]|] eqn:E; [|congruence].
    intros _. exists g1, g2. now apply frontmatter_match_Some.
  - intros [meta [body ->]]. unfold frontmatter_match. fold opening.
    rewrite startsWith_app. change 4 with (length opening).
    rewrite skipn_length_app. apply cut_occurs. now exists meta, body.
Qed.

Lemma parseFrontmatter_no_match (text : jstr) :
  frontmatter_match text = None ->
  parseFrontmatter text = mkDoc [] text.
Proof. unfold parseFrontmatter. now intros ->. Qed.

End Frontmatter.

(* ================================================================== *)
(** * Array indices are canonical numerals *)
(* ================================================================== *)

Section ArrayIndex.

Local Open Scope N_scope.

Lemma digit_val_Some (c : char) (d : N) :
  digit_val c = Some d -> d < 10 /\ c = d + 48.
Proof.
  unfold digit_val. destruct ((48 <=? c) && (c <=? 57)) eqn:E; [|discriminate].
  intros [= <-]. apply andb_true_iff in E as [E1 E2].
  apply N.leb_le in E1, E2. lia.
Qed.

Lemma digits_val_snoc (s : jstr) (c : char) (acc : N) :
  digits_val acc (s ++ [c]) =
  match digits_val acc s, digit_val c with
  | Some v, Some d => Some (10 * v + d)
  | _, _ => None
  end.
Proof.
  revert acc; induction s as [|x s IH]; intros acc; simpl.
  - now destruct (digit_val c).
  - destruct (digit_val x); [apply IH | reflexivity].
Qed.

(** The value of a numeral under an accumulator. *)
Lemma digits_val_uniform (s : jstr) :
  (forall acc, digits_val acc s = None) \/
  (exists v, v < 10 ^ N.of_nat (length s) /\
     forall acc, digits_val acc s = Some (acc * 10 ^ N.of_nat (length s) + v)).
Proof.
  induction s as [|c s IH].
  - right. exists 0. split; [simpl; lia|]. intros acc. simpl. f_equal. lia.
  - cbn [digits_val]. destruct (digit_val c) as [d|] eqn:D; [|now left].
    apply digit_val_Some in D as [D _].
    destruct IH as [IH|[v [Hv IH]]]; [left; intros; apply IH|].
    right. exists (d * 10 ^ N.of_nat (length s) + v).
    replace (N.of_nat (length (c :: s))) with (N.succ (N.of_nat (length s)))
      by (simpl length; lia).
    rewrite N.pow_succ_r'.
    assert (d * 10 ^ N.of_nat (length s) <= 9 * 10 ^ N.of_nat (length s))
      by (apply N.mul_le_mono_r; lia).
    split; [lia|].
    intros acc. rewrite IH. f_equal. ring.
Qed.

Lemma digits_val_acc (s : jstr) (acc n : N) :
  digits_val acc s = Some n ->
  exists v, digits_val 0 s = Some v
            /\ n = acc * 10 ^ N.of_nat (length s) + v
            /\ v < 10 ^ N.of_nat (length s).
Proof.
  destruct (digits_val_uniform s) as [H|[v [Hv H]]]; [now rewrite H|].
  rewrite H. intros [= <-]. exists v. rewrite H. repeat split; trivial.
Qed.

(** Two numerals of the same length and value are the same. *)
Lemma digits_val_inj (s1 s2 : jstr) (n : N) :
  length s1 = length s2 ->
  digits_val 0 s1 = Some n -> digits_val 0 s2 = Some n -> s1 = s2.
Proof.
  revert s2 n; induction s1 as [|c1 s1 IH] using rev_ind; intros s2 n L.
  - destruct s2; [reflexivity | discriminate].
  - destruct s2 as [|c2 s2] using rev_ind.
    + rewrite length_app in L. simpl in L. lia.
    + clear IHs2. rewrite !length_app in L. simpl in L.
      rewrite !digits_val_snoc.
      destruct (digits_val 0 s1) as [v1|] eqn:V1; [|discriminate].
      destruct (digit_val c1) as [d1|] eqn:D1; [|discriminate].
      destruct (digits_val 0 s2) as [v2|] eqn:V2; [|discriminate].
      destruct (digit_val c2) as [d2|] eqn:D2; [|discriminate].
      apply digit_val_Some in D1 as [B1 ->], D2 as [B2 ->].
      intros H1 H2. rewrite <- H1 in H2.
      assert (E : 10 * v2 + d2 = 10 * v1 + d1)
        by (injection H2; intros E; exact E).
      assert (v1 = v2 /\ d1 = d2) as [-> ->] by lia.
      f_equal. apply (IH s2 v2); [lia | reflexivity | assumption].
Qed.

Lemma pow10_lt_mono (a b : nat) (n : N) :
  10 ^ N.of_nat a <= n -> n < 10 ^ N.of_nat b -> (a < b)%nat.
Proof.
  intros H1 H2. destruct (Nat.lt_ge_cases a b) as [|G]; [assumption|].
  exfalso. assert (10 ^ N.of_nat b <= 10 ^ N.of_nat a).
  { apply N.pow_le_mono_r; lia. }
  lia.
Qed.

(** What [array_index] accepts, and the bounds its length puts on the
    value. *)
Lemma array_index_Some (k : jstr) (n : N) :
  array_index k = Some n ->
  digits_val 0 k = Some n /\
  (k = [48] /\ n = 0 \/
   10 ^ N.of_nat (length k - 1) <= n /\ 1 <= n) /\
  n < 10 ^ N.of_nat (length k).
Proof.
  destruct k as [|c k]; [discriminate|].
  unfold array_index.
  destruct ((c =? 48) && truthy k) eqn:Z; [discriminate|].
  destruct (digits_val 0 (c :: k)) as [v|] eqn:V; [|discriminate].
  destruct (v <=? 4294967294); [|discriminate]. intros [= <-].
  pose proof V as V'. apply digits_val_acc in V' as [v' [Hv' [_ Hb]]].
  assert (v' = v) as -> by congruence.
  split; [reflexivity|]. split; [|assumption].
  simpl in V. destruct (digit_val c) as [d|] eqn:D; [|discriminate].
  apply digit_val_Some in D as [Dlt ->].
  apply digits_val_acc in V as [w [_ [-> Hw]]].
  assert (EL : forall x : char, (length (x :: k) - 1)%nat = length k)
    by (intros; simpl; lia).
  rewrite EL.
  destruct (N.eq_dec d 0) as [->|Hd].
  - left. simpl in Z. destruct k; [|discriminate]. simpl in Hw.
    split; [reflexivity | simpl; lia].
  - right. assert (0 < 10 ^ N.of_nat (length k)).
    { apply N.neq_0_lt_0, N.pow_nonzero. lia. }
    nia.
Qed.

Lemma array_index_inj (a b : jstr) (n : N) :
  array_index a = Some n -> array_index b = Some n -> a = b.
Proof.
  intros Ha Hb.
  apply array_index_Some in Ha as [Va [Ca Ua]].
  apply array_index_Some in Hb as [Vb [Cb Ub]].
  destruct Ca as [[-> ->]|[La Pa]], Cb as [[-> Eb]|[Lb Pb]];
    try reflexivity; try lia.
  apply (digits_val_inj a b n); try assumption.
  pose proof (pow10_lt_mono _ _ _ La Ub).
  pose proof (pow10_lt_mono _ _ _ Lb Ua). lia.
Qed.

End ArrayIndex.

(* ================================================================== *)
(** * Objects: writing a property *)
(* ================================================================== *)

Section Objects.

Lemma key_before_trans (a b c : jstr) :
  key_before a b -> key_before b c -> key_before a c.
Proof.
  unfold key_before.
  destruct (array_index a), (array_index b), (array_index c);
    try tauto. apply N.lt_trans.
Qed.

Lemma obj_has_In (o : object) (k : jstr) :
  obj_has o k = true <-> In k (keys o).
Proof.
  induction o as [|[k' v'] o IH]; simpl; [intuition discriminate|].
  rewrite orb_true_iff, eqb_eq, IH. reflexivity.
Qed.

Lemma obj_has_not_In (o : object) (k : jstr) :
  obj_has o k = false <-> ~ In k (keys o).
Proof.
  rewrite <- obj_has_In. destruct (obj_has o k); intuition congruence.
Qed.

Lemma obj_update_keys (o : object) (k : jstr) (v : value) :
  keys (obj_update o k v) = keys o.
Proof.
  induction o as [|[k' v'] o IH]; simpl; [reflexivity|].
  destruct (eqb k' k) eqn:E; simpl.
  - apply eqb_eq in E. now subst.
  - now rewrite IH.
Qed.

Lemma obj_insert_index_In (n : N) (k : jstr) (v : value) (o : object)
  (x : jstr) :
  In x (keys (obj_insert_index n k v o)) <-> x = k \/ In x (keys o).
Proof.
  induction o as [|[k' v'] o IH]; simpl; [intuition|].
  destruct (array_index k') as [m|]; [destruct (m <? n)%N|]; simpl;
    try rewrite IH; intuition.
Qed.

Lemma obj_insert_index_wf (n : N) (k : jstr) (v : value) (o : object) :
  array_index k = Some n -> ~ In k (keys o) -> wf_obj o ->
  wf_obj (obj_insert_index n k v o).
Proof.
  intros Hk. induction o as [|[k' v'] o IH]; intros Hin [Hnd Hs].
  - split; simpl; repeat constructor. intros [].
  - simpl in Hin, Hnd, Hs. apply NoDup_cons_iff in Hnd as [Hk' Hnd].
    apply StronglySorted_inv in Hs as [Hs Hall].
    assert (Hfront : key_before k k' -> wf_obj ((k, v) :: (k', v') :: o)).
    { intros B. split; simpl.
      - constructor; [simpl; tauto|]. now constructor.
      - constructor; [now constructor|]. constructor; [assumption|].
        apply Forall_forall. intros x Hx.
        apply (key_before_trans k k' x B).
        now apply (proj1 (Forall_forall _ _) Hall). }
    simpl. destruct (array_index k') as [m|] eqn:Ek'.
    + destruct (m <? n)%N eqn:L.
      * apply N.ltb_lt in L.
        destruct IH as [Hnd' Hs']; [tauto | now split |].
        split; simpl.
        -- constructor; [|assumption].
           rewrite obj_insert_index_In. intros [->|H]; tauto.
        -- constructor; [assumption|]. apply Forall_forall. intros x Hx.
           apply obj_insert_index_In in Hx as [->|Hx].
           ++ unfold key_before. now rewrite Ek', Hk.
           ++ now apply (proj1 (Forall_forall _ _) Hall).
      * apply N.ltb_ge in L. apply Hfront. unfold key_before.
        rewrite Hk, Ek'. destruct (N.eq_dec n m) as [->|Hne]; [|lia].
        exfalso. apply Hin. left.
        now apply (array_index_inj k' k m).
    + apply Hfront. unfold key_before. now rewrite Hk, Ek'.
Qed.

Lemma StronglySorted_snoc (l : list jstr) (k : jstr) :
  StronglySorted key_before l -> Forall (fun a => key_before a k) l ->
  StronglySorted key_before (l ++ [k]).
Proof.
  induction l as [|a l IH]; intros Hs Hall; simpl.
  - repeat constructor.
  - apply StronglySorted_inv in Hs as [Hs Ha].
    apply Forall_cons_iff in Hall as [Hak Hall].
    constructor; [now apply IH|].
    apply Forall_app. split; [assumption | now constructor].
Qed.

Lemma obj_define_wf (o : object) (k : jstr) (v : value) :
  wf_obj o -> wf_obj (obj_define o k v).
Proof.
  intros [Hnd Hs]. unfold obj_define.
  destruct (obj_has o k) eqn:H.
  - split; now rewrite obj_update_keys.
  - apply obj_has_not_In in H.
    destruct (array_index k) as [n|] eqn:E.
    + now apply obj_insert_index_wf.
    + split; unfold keys; rewrite map_app; simpl.
      * apply NoDup_app; [assumption | repeat constructor; intros [] |].
        intros x Hx [<-|[]]. contradiction.
      * apply StronglySorted_snoc; [assumption|].
        apply Forall_forall. intros a _. unfold key_before. rewrite E.
        now destruct (array_index a).
Qed.

Lemma obj_set_wf (o : object) (k : jstr) (v : value) :
  wf_obj o -> wf_obj (obj_set o k v).
Proof.
  intros H. unfold obj_set. destruct (eqb k (lit "__proto__")); [assumption|].
  now apply obj_define_wf.
Qed.

Lemma wf_obj_nil : wf_obj [].
Proof. split; constructor. Qed.

(** Values under a predicate stay so. *)
Lemma obj_set_values (P : value -> Prop) (o : object) (k : jstr)
  (v : value) :
  Forall P (List.map snd o) -> P v -> Forall P (List.map snd (obj_set o k v)).
Proof.
  intros Ho Hv. unfold obj_set, obj_define.
  destruct (eqb k (lit "__proto__")); [assumption|].
  destruct (obj_has o k).
  - induction o as [|[k' v'] o IH]; simpl; [constructor|].
    simpl in Ho. apply Forall_cons_iff in Ho as [H1 H2].
    destruct (eqb k' k); simpl; constructor; auto.
  - destruct (array_index k) as [n|].
    + induction o as [|[k' v'] o IH]; simpl; [now repeat constructor|].
      simpl in Ho. pose proof Ho as Ho'.
      apply Forall_cons_iff in Ho as [H1 H2].
      destruct (array_index k') as [m|]; [destruct (m <? n)%N|]; simpl;
        constructor; auto.
    + rewrite map_app. apply Forall_app. split; [assumption|].
      now repeat constructor.
Qed.

(** *** Writing the entries of an object again, in their order *)

Lemma StronglySorted_app_before (l1 l2 : list jstr) (k : jstr) :
  StronglySorted key_before (l1 ++ k :: l2) ->
  Forall (fun a => key_before a k) l1.
Proof.
  induction l1 as [|a l1 IH]; simpl; intros H; [constructor|].
  apply StronglySorted_inv in H as [Hs Ha].
  constructor; [|now apply IH].
  apply Forall_app in Ha as [_ Ha]. now apply Forall_cons_iff in Ha as [Ha _].
Qed.

Lemma obj_insert_index_last (n : N) (k : jstr) (v : value) (o : object) :
  array_index k = Some n ->
  Forall (fun a => key_before a k) (keys o) ->
  obj_insert_index n k v o = o ++ [(k, v)].
Proof.
  intros Hk. induction o as [|[k' v'] o IH]; simpl; intros H; [reflexivity|].
  apply Forall_cons_iff in H as [H1 H2].
  unfold key_before in H1. rewrite Hk in H1.
  destruct (array_index k') as [m|]; [|contradiction].
  apply N.ltb_lt in H1. rewrite H1. now rewrite IH.
Qed.

Lemma obj_set_last (acc rest : object) (k : jstr) (v : value) :
  wf_obj (acc ++ (k, v) :: rest) -> eqb k (lit "__proto__") = false ->
  obj_set acc k v = acc ++ [(k, v)].
Proof.
  intros [Hnd Hs] Hp. unfold keys in Hnd, Hs. rewrite map_app in Hnd, Hs.
  simpl in Hnd, Hs.
  apply NoDup_remove_2 in Hnd.
  apply StronglySorted_app_before in Hs.
  unfold obj_set, obj_define. rewrite Hp.
  assert (H : obj_has acc k = false).
  { apply obj_has_not_In. intros H. apply Hnd. apply in_or_app. now left. }
  rewrite H. destruct (array_index k) as [n|] eqn:E; [|reflexivity].
  now apply obj_insert_index_last.
Qed.

Lemma write_all_wf (acc es : object) :
  wf_obj (acc ++ es) ->
  forallb (fun kv => negb (eqb (fst kv) (lit "__proto__"))) es = true ->
  write_all acc es = acc ++ es.
Proof.
  unfold write_all.
  revert acc; induction es as [|[k v] es IH]; intros acc Hwf Hp; simpl.
  - now rewrite app_nil_r.
  - simpl in Hp. apply andb_true_iff in Hp as [Hk Hp].
    apply negb_true_iff in Hk.
    rewrite (obj_set_last acc es k v Hwf Hk).
    rewrite IH; [now rewrite <- app_assoc | | assumption].
    now rewrite <- app_assoc.
Qed.

End Objects.

(* ================================================================== *)
(** * The parser keeps its result a mapping *)
(* ================================================================== *)

Section ParserInvariant.

Lemma parsed_mapping_set_string (r : object) (k s : jstr) :
  parsed_mapping r -> parsed_mapping (obj_set r k (VStr s)).
Proof.
  intros [Hwf Hv]. split; [now apply obj_set_wf|].
  now apply obj_set_values.
Qed.

Lemma parsed_mapping_commit (r : object) (k : option jstr) (l : list value) :
  parsed_mapping r -> Forall is_record l -> parsed_mapping (commit_list r k l).
Proof.
  intros Hr Hl. unfold commit_list. destruct k as [[|c k]|]; try assumption.
  destruct Hr as [Hwf Hv]. split; [now apply obj_set_wf|].
  now apply obj_set_values.
Qed.

Lemma record_set_string (item : object) (k s : jstr) :
  wf_obj item /\ string_fields item ->
  wf_obj (obj_set item k (VStr s)) /\ string_fields (obj_set item k (VStr s)).
Proof.
  intros [Hwf Hs]. split; [now apply obj_set_wf|].
  unfold string_fields. now apply obj_set_values.
Qed.

Lemma record_nil : wf_obj [] /\ string_fields [].
Proof. split; [apply wf_obj_nil | constructor]. Qed.

Lemma is_record_text (s : jstr) : is_record (VObj [(lit "text", VStr s)]).
Proof.
  split; [split|]; simpl; repeat constructor. intros [].
Qed.

Lemma records_push (l : list value) (v : value) :
  Forall is_record l -> is_record v -> Forall is_record (l ++ [v]).
Proof.
  intros Hl Hv. apply Forall_app. split; [assumption | now constructor].
Qed.

Lemma state_ok_init : state_ok init_state.
Proof.
  split; [split; [apply wf_obj_nil | constructor] | split; exact I].
Qed.

Lemma skip_line_ok (st : pstate) (trimmed : jstr) :
  state_ok st -> state_ok (skip_line st trimmed).
Proof.
  intros H. unfold skip_line.
  now destruct (inMultilineString st && negb (truthy trimmed)).
Qed.

Lemma multiline_line_ok (st : pstate) (line trimmed : jstr) :
  state_ok st ->
  match multiline_line st line trimmed with
  | inl st' => state_ok st'
  | inr st' => state_ok st'
  end.
Proof.
  intros H. unfold multiline_line.
  destruct (inMultilineString st); [|assumption].
  destruct (indentLevel st <? search_nonspace line)%Z; [assumption|].
  destruct H as [Hr Hrest]. split; [|exact Hrest].
  now apply parsed_mapping_set_string.
Qed.

Lemma open_block_ok (st : pstate) (line trimmed : jstr) :
  state_ok st -> state_ok (open_block st line trimmed).
Proof. intros H. exact H. Qed.

Lemma list_item_ok (st : pstate) (trimmed : jstr) :
  state_ok st -> state_ok (list_item st trimmed).
Proof.
  intros [Hr [Hl Hi]]. unfold list_item.
  assert (Hl0 : Forall is_record
                  match currentList st with Some l => l | None => [] end).
  { destruct (currentList st); [assumption | constructor]. }
  destruct (includes COLON (skipn 2 trimmed)).
  - destruct (split1 COLON (skipn 2 trimmed)) as [key valueParts].
    split; [exact Hr|]. split; [exact Hl0|]. simpl.
    apply record_set_string.
    destruct (currentListItem st); [assumption | apply record_nil].
  - destruct (currentListItem st) as [item|].
    + destruct (has_fields item); (split; [exact Hr|]); split; simpl.
      * apply records_push; [|apply is_record_text].
        now apply records_push.
      * apply record_nil.
      * apply records_push; [assumption | apply is_record_text].
      * assumption.
    + split; [exact Hr|]. split; simpl; [|exact I].
      apply records_push; [assumption | apply is_record_text].
Qed.

Lemma record_field_ok (st : pstate) (item : object) (trimmed : jstr) :
  state_ok st -> currentListItem st = Some item ->
  state_ok (record_field st item trimmed).
Proof.
  intros [Hr [Hl Hi]] E. rewrite E in Hi. unfold record_field.
  destruct (includes COLON trimmed).
  - destruct (split1 COLON trimmed) as [key valueParts].
    split; [exact Hr|]. split; [exact Hl|]. simpl.
    now apply record_set_string.
  - split; [exact Hr|]. split; [exact Hl|]. now rewrite E.
Qed.

Lemma close_list_ok (st : pstate) (leadingSpaces : Z) (trimmed : jstr) :
  state_ok st -> state_ok (close_list st leadingSpaces trimmed).
Proof.
  intros H. pose proof H as [Hr [Hl Hi]]. unfold close_list.
  destruct (currentList st) as [l|]; [|exact H].
  destruct ((leadingSpaces =? 0)%Z && includes COLON trimmed); [|exact H].
  destruct (currentListItem st) as [item|].
  - destruct (has_fields item); (split; [|split; simpl; trivial]); simpl;
      apply parsed_mapping_commit; trivial.
    now apply records_push.
  - split; [|split; simpl; trivial]. simpl.
    now apply parsed_mapping_commit.
Qed.

Lemma key_value_ok (st : pstate) (trimmed : jstr) :
  state_ok st -> state_ok (key_value st trimmed).
Proof.
  intros H. unfold key_value.
  destruct (includes COLON trimmed && negb (startsWith [DASH] trimmed));
    [|assumption].
  match goal with |- context [if ?b then _ else _] => destruct b end.
  - exact H.
  - destruct H as [Hr Hrest]. split; [|exact Hrest].
    now apply parsed_mapping_set_string.
Qed.

Lemma step_ok (st : pstate) (line : jstr) :
  state_ok st -> state_ok (step st line).
Proof.
  intros H. unfold step.
  destruct (negb (truthy (trim line)) || startsWith [HASH] (trim line));
    [now apply skip_line_ok|].
  pose proof (multiline_line_ok st line (trim line) H) as M.
  destruct (multiline_line st line (trim line)) as [st'|st1]; [exact M|].
  destruct (endsWith [PIPE] (trim line)); [now apply open_block_ok|].
  destruct (startsWith [DASH; SP] (trim line)); [now apply list_item_ok|].
  destruct (currentListItem st1) as [item|] eqn:E.
  - destruct (4 <=? search_nonspace line)%Z.
    + now apply record_field_ok.
    + now apply key_value_ok, close_list_ok.
  - now apply key_value_ok, close_list_ok.
Qed.

Lemma fold_step_ok (lines : list jstr) (st : pstate) :
  state_ok st -> state_ok (fold_left step lines st).
Proof.
  revert st; induction lines as [|line lines IH]; intros st H; simpl;
    [assumption|].
  now apply IH, step_ok.
Qed.

Lemma finish_ok (st : pstate) :
  state_ok st -> parsed_mapping (finish st).
Proof.
  intros [Hr [Hl Hi]]. unfold finish.
  destruct (currentList st) as [l|]; [|assumption].
  apply parsed_mapping_commit; [assumption|].
  destruct (currentListItem st) as [item|]; [|assumption].
  destruct (has_fields item); [|assumption].
  now apply records_push.
Qed.

Lemma parseYAML_parsed_mapping (text : jstr) :
  parsed_mapping (parseYAML text).
Proof. apply finish_ok, fold_step_ok, state_ok_init. Qed.

(** A line without colon, dash or pipe changes nothing. *)
Lemma step_unrecognized (st : pstate) (line : jstr) :
  inMultilineString st = false -> unrecognized line = true ->
  step st line = st.
Proof.
  intros HM HU. unfold unrecognized in HU.
  repeat (apply andb_true_iff in HU as [HU ?]).
  repeat match goal with H : negb _ = true |- _ =>
    apply negb_true_iff in H end.
  unfold step. rewrite HU. simpl negb.
  match goal with H : startsWith [HASH] _ = false |- _ => rewrite H end.
  simpl orb. unfold multiline_line. rewrite HM.
  match goal with H : endsWith _ _ = false |- _ => rewrite H end.
  match goal with H : startsWith [DASH; SP] _ = false |- _ => rewrite H end.
  assert (KV : forall s, key_value s (trim line) = s).
  { intros s. unfold key_value.
    match goal with H : includes _ _ = false |- _ => now rewrite H end. }
  assert (CL : forall z, close_list st z (trim line) = st).
  { intros z. unfold close_list. destruct (currentList st); [|reflexivity].
    match goal with H : includes _ _ = false |- _ => rewrite H end.
    now rewrite andb_false_r. }
  destruct (currentListItem st) as [item|].
  - destruct (4 <=? search_nonspace line)%Z.
    + unfold record_field.
      match goal with H : includes _ _ = false |- _ => now rewrite H end.
    + now rewrite CL, KV.
  - now rewrite CL, KV.
Qed.

End ParserInvariant.

(* ================================================================== *)
(** * Reading back [key: "value"] lines *)
(* ================================================================== *)

Section ScalarLines.

Lemma firstn_length_app (a b : jstr) : firstn (length a) (a ++ b) = a.
Proof. induction a; simpl; congruence. Qed.

Lemma skipn_succ_app (a b : jstr) (c : char) :
  skipn (length a + 1) (a ++ c :: b) = b.
Proof. induction a; simpl; auto. Qed.

Lemma scalar_line_eq (k s : jstr) :
  scalar_line k s = k ++ COLON :: SP :: DQ :: s ++ [DQ].
Proof. reflexivity. Qed.

(** What [key_ok] says, one fact at a time. *)
Lemma key_ok_inv (k : jstr) :
  key_ok k = true ->
  trim k = k /\ includes COLON k = false /\ includes NL k = false
  /\ startsWith [HASH] k = false /\ startsWith [DASH] k = false
  /\ eqb k (lit "__proto__") = false.
Proof.
  unfold key_ok. intros H.
  repeat (apply andb_true_iff in H as [H ?]).
  repeat match goal with G : negb _ = true |- _ =>
    apply negb_true_iff in G end.
  apply eqb_eq in H. tauto.
Qed.

(** The first character of the line: not white space, not [#], not [-]. *)
Lemma scalar_line_shape (k s : jstr) :
  key_ok k = true ->
  exists c mid, scalar_line k s = c :: mid ++ [DQ]
    /\ is_ws c = false /\ (HASH =? c)%N = false /\ (DASH =? c)%N = false.
Proof.
  intros H. apply key_ok_inv in H as [Ht [_ [_ [Hh [Hd _]]]]].
  rewrite scalar_line_eq. destruct k as [|c k].
  - exists COLON, (SP :: DQ :: s). repeat split.
  - exists c, (k ++ COLON :: SP :: DQ :: s). repeat split.
    + simpl. now rewrite <- app_assoc.
    + now apply (trim_fixed_head c k).
    + cbn [startsWith] in Hh. now rewrite andb_true_r in Hh.
    + cbn [startsWith] in Hd. now rewrite andb_true_r in Hd.
Qed.

Lemma scalar_line_no_newline (k s : jstr) :
  key_ok k = true -> scalar_ok s = true ->
  includes NL (scalar_line k s) = false.
Proof.
  intros Hk Hs. apply key_ok_inv in Hk as [_ [_ [Hn _]]].
  unfold scalar_ok, single_line in Hs.
  apply andb_true_iff in Hs as [_ Hs]. apply negb_true_iff in Hs.
  rewrite scalar_line_eq, includes_app, Hn. simpl.
  change (existsb (N.eqb NL) (s ++ [DQ])) with (includes NL (s ++ [DQ])).
  now rewrite includes_app, Hs.
Qed.

(** One line, read at the top level: the key gets the string. *)
Lemma step_scalar_line (st : pstate) (k s : jstr) :
  at_top st -> key_ok k = true -> scalar_ok s = true ->
  step st (scalar_line k s) = with_result (obj_set (result st) k (VStr s)) st.
Proof.
  intros [HL [HI HM]] Hk Hs.
  destruct (scalar_line_shape k s Hk) as [c [mid [E [Hws [Hh Hd]]]]].
  apply key_ok_inv in Hk as [Ht [Hc _]].
  unfold scalar_ok in Hs. apply andb_true_iff in Hs as [Hs _].
  assert (T : trim (scalar_line k s) = scalar_line k s).
  { rewrite E. now apply trim_between. }
  unfold step. rewrite T.
  assert (E1 : truthy (scalar_line k s) = true) by now rewrite E.
  assert (E2 : startsWith [HASH] (scalar_line k s) = false).
  { rewrite E. cbn [startsWith]. now rewrite Hh. }
  assert (E3 : endsWith [PIPE] (scalar_line k s) = false).
  { unfold endsWith. rewrite E.
    change (c :: mid ++ [DQ]) with ((c :: mid) ++ [DQ]).
    now rewrite rev_app_distr. }
  assert (E4 : startsWith [DASH; SP] (scalar_line k s) = false).
  { rewrite E. cbn [startsWith]. now rewrite Hd. }
  assert (E5 : startsWith [DASH] (scalar_line k s) = false).
  { rewrite E. cbn [startsWith]. now rewrite Hd. }
  assert (E6 : includes COLON (scalar_line k s) = true).
  { rewrite scalar_line_eq, includes_app. simpl. apply orb_true_r. }
  rewrite E1, E2. simpl orb. unfold multiline_line. rewrite HM, E3, E4, HI.
  unfold close_list. rewrite HL.
  unfold key_value. rewrite E6, E5, E3. simpl andb.
  rewrite scalar_line_eq.
  rewrite (indexOf_app COLON k _ Hc), firstn_length_app, skipn_succ_app, Ht.
  assert (V : stripQuotes (trim (SP :: DQ :: s ++ [DQ])) = s).
  { unfold trim. simpl trimStart.
    change (DQ :: s ++ [DQ]) with ((DQ :: s) ++ [DQ]).
    rewrite trimEnd_snoc by reflexivity. now apply stripQuotes_pair. }
  rewrite V, Hs. reflexivity.
Qed.

Lemma at_top_with_result (r : object) (st : pstate) :
  at_top st -> at_top (with_result r st).
Proof. intros H. exact H. Qed.

Lemma split_scalar_lines (kvs : list (jstr * jstr)) :
  forallb source_entry kvs = true ->
  split NL (scalar_lines kvs)
  = List.map (fun ks => scalar_line (fst ks) (snd ks)) kvs ++ [[]].
Proof.
  induction kvs as [|[k s] kvs IH]; intros H; [reflexivity|].
  simpl in H. apply andb_true_iff in H as [H1 H2].
  unfold source_entry in H1. apply andb_true_iff in H1 as [Hk Hs].
  simpl. rewrite split_app by now apply scalar_line_no_newline.
  now rewrite IH.
Qed.

Lemma step_blank (st : pstate) : at_top st -> step st [] = st.
Proof.
  intros [_ [_ HM]]. unfold step, skip_line. simpl. now rewrite HM.
Qed.

Lemma fold_scalar_lines (kvs : list (jstr * jstr)) (st : pstate) :
  at_top st -> forallb source_entry kvs = true ->
  exists st', at_top st'
    /\ fold_left step (List.map (fun ks => scalar_line (fst ks) (snd ks)) kvs) st
       = st'
    /\ result st' = write_all (result st) (flat_mapping kvs).
Proof.
  revert st; induction kvs as [|[k s] kvs IH]; intros st Ht H.
  - exists st. split; [assumption | split; reflexivity].
  - simpl in H. apply andb_true_iff in H as [H1 H2].
    unfold source_entry in H1. apply andb_true_iff in H1 as [Hk Hs].
    simpl in Hk, Hs. simpl fold_left.
    rewrite (step_scalar_line st k s Ht Hk Hs).
    destruct (IH (with_result (obj_set (result st) k (VStr s)) st))
      as [st' [Ht' [E R]]]; [now apply at_top_with_result | assumption |].
    exists st'. split; [assumption | split; assumption].
Qed.

(** The lines are read in their order, each writing its key. *)
Lemma parseYAML_scalar_lines (kvs : list (jstr * jstr)) :
  forallb source_entry kvs = true ->
  parseYAML (scalar_lines kvs) = write_all [] (flat_mapping kvs).
Proof.
  intros H. unfold parseYAML. rewrite split_scalar_lines by assumption.
  rewrite fold_left_app.
  destruct (fold_scalar_lines kvs init_state) as [st' [Ht [E R]]];
    [now repeat split | assumption |].
  rewrite E. simpl fold_left. rewrite step_blank by assumption.
  unfold finish. destruct Ht as [-> _]. exact R.
Qed.

(** What the serializer writes for a mapping of one-line strings. *)
Lemma toYAML_flat_mapping (kvs : list (jstr * jstr)) :
  forallb (fun ks => single_line (snd ks)) kvs = true ->
  toYAML (flat_mapping kvs) 0 = OK (scalar_lines kvs).
Proof.
  induction kvs as [|[k s] kvs IH]; intros H; [reflexivity|].
  simpl in H. apply andb_true_iff in H as [H1 H2].
  unfold single_line in H1. apply negb_true_iff in H1.
  cbn [flat_mapping List.map fst snd toYAML emit_entry].
  fold (flat_mapping kvs). rewrite H1, (IH H2).
  cbn [bind repeat_str app scalar_lines]. f_equal.
  unfold scalar_line. rewrite <- !app_assoc. cbn [app].
  rewrite <- !app_assoc. reflexivity.
Qed.

Lemma source_entries_single_line (kvs : list (jstr * jstr)) :
  forallb source_entry kvs = true ->
  forallb (fun ks => single_line (snd ks)) kvs = true.
Proof.
  induction kvs as [|[k s] kvs IH]; intros H; [reflexivity|].
  simpl in *. apply andb_true_iff in H as [H1 H2].
  unfold source_entry, scalar_ok in H1.
  apply andb_true_iff in H1 as [_ H1]. apply andb_true_iff in H1 as [_ H1].
  simpl in H1. now rewrite H1, IH.
Qed.

Lemma source_entries_not_proto (kvs : list (jstr * jstr)) :
  forallb source_entry kvs = true ->
  forallb (fun kv => negb (eqb (fst kv) (lit "__proto__")))
          (flat_mapping kvs) = true.
Proof.
  induction kvs as [|[k s] kvs IH]; intros H; [reflexivity|].
  simpl in *. apply andb_true_iff in H as [H1 H2].
  unfold source_entry in H1. apply andb_true_iff in H1 as [H1 _].
  apply key_ok_inv in H1 as [_ [_ [_ [_ [_ H1]]]]].
  simpl in H1. now rewrite H1, IH.
Qed.

End ScalarLines.

(* ================================================================== *)
(** * The serializer, entry by entry *)
(* ================================================================== *)

Section Serializer.

(** The inner loop of [emit_entry] on a nested object is [toYAML] one level
    deeper: line 253. *)
Lemma emit_entry_object (indent : nat) (key : jstr) (props : object) :
  emit_entry indent key (VObj props)
  = bind (toYAML props (S indent)) (fun sub =>
    OK (repeat_str (lit "  ") indent ++ key ++ [COLON; NL] ++ sub)).
Proof.
  cbn [emit_entry]. f_equal.
  induction props as [|[k v] props IH]; [reflexivity|].
  cbn [toYAML]. now rewrite <- IH.
Qed.

Lemma toYAML_app (o1 o2 : object) (indent : nat) :
  toYAML (o1 ++ o2) indent
  = bind (toYAML o1 indent) (fun a =>
    bind (toYAML o2 indent) (fun b => OK (a ++ b))).
Proof.
  induction o1 as [|[k v] o1 IH].
  - simpl. now destruct (toYAML o2 indent).
  - cbn [app toYAML]. rewrite IH.
    destruct (emit_entry indent k v); [|reflexivity].
    destruct (toYAML o1 indent); [|reflexivity].
    destruct (toYAML o2 indent); [|reflexivity].
    simpl. now rewrite app_assoc.
Qed.

Lemma no_index_sorted (l : list jstr) :
  Forall (fun k => array_index k = None) l -> StronglySorted key_before l.
Proof.
  induction 1 as [|k l Hk Hl IH]; constructor; [assumption|].
  apply Forall_forall. intros x Hx. unfold key_before. rewrite Hk.
  now rewrite (proj1 (Forall_forall _ _) Hl x Hx).
Qed.

Lemma flat_mapping_keys (kvs : list (jstr * jstr)) :
  keys (flat_mapping kvs) = List.map fst kvs.
Proof.
  unfold keys, flat_mapping. rewrite map_map. reflexivity.
Qed.

Lemma flat_mapping_wf (kvs : list (jstr * jstr)) :
  NoDup (List.map fst kvs) -> forallb not_index kvs = true ->
  wf_obj (flat_mapping kvs).
Proof.
  intros Hnd Hi. split; rewrite flat_mapping_keys; [assumption|].
  apply no_index_sorted. apply Forall_forall. intros k Hk.
  apply in_map_iff in Hk as [ks [<- Hks]].
  apply (proj1 (forallb_forall _ _) Hi) in Hks. unfold not_index in Hks.
  now destruct (array_index (fst ks)).
Qed.

Lemma obj_set_existing_keys (o : object) (k : jstr) (v : value) :
  obj_has o k = true -> keys (obj_set o k v) = keys o.
Proof.
  intros H. unfold obj_set, obj_define. rewrite H.
  destruct (eqb k (lit "__proto__")); [reflexivity|].
  apply obj_update_keys.
Qed.

Lemma obj_set_new_key (o : object) (k : jstr) (v : value) :
  obj_has o k = false -> array_index k = None ->
  eqb k (lit "__proto__") = false -> obj_set o k v = o ++ [(k, v)].
Proof.
  intros H1 H2 H3. unfold obj_set, obj_define. now rewrite H1, H2, H3.
Qed.

End Serializer.

(* ================================================================== *)
(** * Where the loop leaves work undone *)
(* ================================================================== *)

Section Defects.

(** A [- key: value] line leaves the list as it is: the open record is
    written into, never appended. *)
Lemma list_item_record_keeps_list (st : pstate) (trimmed : jstr) :
  includes COLON (skipn 2 trimmed) = true ->
  currentList (list_item st trimmed)
  = Some (match currentList st with Some l => l | None => [] end)
  /\ result (list_item st trimmed) = result st.
Proof.
  intros H. unfold list_item. rewrite H.
  now destruct (split1 COLON (skipn 2 trimmed)).
Qed.

(** A blank line inside a block scalar adds a newline to it; outside, a
    blank line or a comment changes nothing. *)
Lemma step_blank_in_block (st : pstate) (line : jstr) :
  inMultilineString st = true -> trim line = [] ->
  step st line = with_multilineContent (multilineContent st ++ [NL]) st.
Proof.
  intros HM HT. unfold step, skip_line. rewrite HT, HM. reflexivity.
Qed.

Lemma step_skipped_outside_block (st : pstate) (line : jstr) :
  inMultilineString st = false ->
  negb (truthy (trim line)) || startsWith [HASH] (trim line) = true ->
  step st line = st.
Proof.
  intros HM HT. unfold step, skip_line. now rewrite HT, HM.
Qed.

(** What is returned after the loop does not depend on the block scalar
    that is open: its key and its text are dropped. *)
Lemma finish_drops_open_block (st : pstate) (k : option jstr) (c : jstr)
  (i : Z) :
  finish (mkState (result st) (currentKey st) (currentList st)
                  (currentListItem st) true k c i)
  = finish st.
Proof. reflexivity. Qed.

(** Serializing what the parser returned never raises. *)
Lemma emit_more_strings (pre : jstr) (fields : object) :
  string_fields fields -> exists y, emit_more pre fields = OK y.
Proof.
  induction fields as [|[k v] fields IH]; intros H; [now exists []|].
  apply Forall_cons_iff in H as [Hv H]. simpl in Hv.
  destruct v; try discriminate. destruct (IH H) as [y E].
  cbn [emit_more emit_field snd fst toStr bind]. rewrite E.
  eexists. reflexivity.
Qed.

Lemma emit_items_records (spaces : jstr) (items : list value) :
  Forall is_record items -> exists y, emit_items spaces items = OK y.
Proof.
  induction 1 as [|item items Hi _ [y E]]; [now exists []|].
  cbn [emit_items]. rewrite E.
  destruct item as [| |? |fields]; try contradiction.
  destruct Hi as [_ Hs]. unfold emit_item, emit_record.
  destruct fields as [|[k v] fields]; [eexists; reflexivity|].
  apply Forall_cons_iff in Hs as [Hv Hs]. simpl in Hv.
  destruct v; try discriminate.
  destruct (emit_more_strings (spaces ++ lit "    ") fields Hs) as [z Ez].
  unfold emit_field. cbn [snd fst toStr bind]. rewrite Ez.
  eexists. reflexivity.
Qed.

Lemma toYAML_parsed_values (o : object) (indent : nat) :
  Forall parsed_value (List.map snd o) -> exists y, toYAML o indent = OK y.
Proof.
  induction o as [|[k v] o IH]; intros H; [now exists []|].
  apply Forall_cons_iff in H as [Hv H]. destruct (IH H) as [y E].
  cbn [toYAML]. rewrite E. simpl in Hv.
  destruct v as [|s|items|]; try contradiction.
  - cbn [emit_entry]. destruct (includes NL s); eexists; reflexivity.
  - destruct (emit_items_records (repeat_str (lit "  ") indent) items Hv)
      as [z Ez].
    cbn [emit_entry]. rewrite Ez. eexists. reflexivity.
Qed.

Lemma toYAML_parseYAML_returns (text : jstr) :
  exists y, toYAML (parseYAML text) 0 = OK y.
Proof.
  apply toYAML_parsed_values. apply parseYAML_parsed_mapping.
Qed.

End Defects.

(* ================================================================== *)
(** * The claims *)
(* ================================================================== *)

(** C1, as the specification states it, fails: mappings of the claimed
    subset that [parseYAML (toYAML m)] does not give back. A list of
    strings comes back as a list of [text] records, the records of a list
    come back merged into one, a nested mapping comes back flattened and
    without its key, a multiline string at the end of the mapping and an
    empty string are lost. *)
Lemma roundtrip_counterexample :
  (supported (VObj m_tags) = true
   /\ bind (toYAML m_tags 0) (fun y => OK (parseYAML y))
      = OK [(lit "tags", VList [VObj [(lit "text", VStr (lit "a"))];
                                VObj [(lit "text", VStr (lit "b"))]])])
  /\ (supported (VObj m_stats) = true
      /\ bind (toYAML m_stats 0) (fun y => OK (parseYAML y))
         = OK [(lit "stats",
                VList [VObj [(lit "number", VStr (lit "10"));
                             (lit "label", VStr (lit "Years"))]])])
  /\ (supported (VObj m_nested) = true
      /\ bind (toYAML m_nested 0) (fun y => OK (parseYAML y))
         = OK [(lit "twitter", VStr (lit "x"))])
  /\ (supported (VObj m_bio) = true
      /\ bind (toYAML m_bio 0) (fun y => OK (parseYAML y)) = OK [])
  /\ (supported (VObj m_empty) = true
      /\ bind (toYAML m_empty 0) (fun y => OK (parseYAML y)) = OK [])
  /\ ~ (forall m : object, supported (VObj m) = true ->
        bind (toYAML m 0) (fun y => OK (parseYAML y)) = OK m).
Proof.
  repeat (split; [split; vm_compute; reflexivity|]).
  intros H. specialize (H m_tags eq_refl). vm_compute in H. discriminate H.
Qed.

(** C1, amended: a mapping of non-empty one-line strings under keys that a
    [key: "value"] line gives back comes back from
    [parseYAML (toYAML m)] as it was: same keys, same order, same strings. *)
Theorem roundtrip_flat_strings (kvs : list (jstr * jstr)) :
  wf_obj (flat_mapping kvs) ->
  forallb source_entry kvs = true ->
  exists y, toYAML (flat_mapping kvs) 0 = OK y
            /\ parseYAML y = flat_mapping kvs.
Proof.
  intros Hwf H. exists (scalar_lines kvs). split.
  - now apply toYAML_flat_mapping, source_entries_single_line.
  - rewrite parseYAML_scalar_lines by assumption.
    apply (write_all_wf [] (flat_mapping kvs)); [assumption|].
    now apply source_entries_not_proto.
Qed.

Lemma roundtrip_flat_strings_witness :
  exists y,
    toYAML (flat_mapping [(lit "title", lit "My post"); (lit "date", lit "2024-01-01")]) 0
    = OK y
    /\ parseYAML y
       = flat_mapping [(lit "title", lit "My post"); (lit "date", lit "2024-01-01")].
Proof.
  apply roundtrip_flat_strings.
  - apply flat_mapping_wf; [|reflexivity].
    repeat constructor; simpl; intuition discriminate.
  - reflexivity.
Defined.

(** C2: on the list-of-records example of the specification the code
    returns one record, not two. A [- key: value] line writes into the open
    record without appending it to the list first, so the second record
    overwrites the fields of the first. *)
Theorem parse_stats_merges_records :
  parseYAML stats_text
  = [(lit "stats",
      VList [VObj [(lit "number", VStr (lit "10"));
                   (lit "label", VStr (lit "Years"))]])]
  /\ parseYAML stats_text <> [(lit "stats", VList stats_records)].
Proof. split; [vm_compute; reflexivity | vm_compute; discriminate]. Qed.

(** C3: for every input, [parseYAML] returns a mapping: an object with
    distinct keys whose values are strings or lists of records. The empty
    input gives the empty mapping, and a line that no branch recognizes,
    read outside a block scalar, leaves every variable of the loop as it
    was. *)
Theorem parseYAML_total_mapping :
  (forall text : jstr,
      exists m : object, parseYAML text = m /\ parsed_mapping m)
  /\ parseYAML [] = []
  /\ (forall (st : pstate) (line : jstr),
        inMultilineString st = false -> unrecognized line = true ->
        step st line = st).
Proof.
  split; [|split].
  - intros text. exists (parseYAML text). split; [reflexivity|].
    apply parseYAML_parsed_mapping.
  - reflexivity.
  - apply step_unrecognized.
Qed.

Lemma parseYAML_total_mapping_witness :
  step init_state (lit "hello world") = init_state.
Proof.
  apply (proj2 (proj2 parseYAML_total_mapping)); reflexivity.
Defined.

(** C4: [toYAML] raises a [TypeError] on a list that holds [null]:
    [typeof null] is ['object'], and the entries of [null] cannot be
    taken. A [null] that is the value of a key is skipped. *)
Theorem toYAML_null_item_throws :
  toYAML [(lit "a", VList [VNull])] 0 = Throw TypeError
  /\ toYAML [(lit "a", VNull)] 0 = OK [].
Proof. split; reflexivity. Qed.

(** C5, as the specification states it, fails: a value with a quote at one
    end only does not stay as it is, the quote is removed. *)
Lemma one_sided_quote_counterexample :
  stripQuotes (DQ :: lit "hello") = lit "hello"
  /\ stripQuotes (lit "hello" ++ [SQ]) = lit "hello"
  /\ parseYAML (lit "key: " ++ DQ :: lit "hello")
     = [(lit "key", VStr (lit "hello"))]
  /\ parseYAML (lit "key: " ++ DQ :: lit "hello")
     <> [(lit "key", VStr (DQ :: lit "hello"))].
Proof. repeat split; vm_compute; try reflexivity; discriminate. Qed.

(** C5, amended: a quote character at the start of the value is removed
    and a quote character at the end is removed, each whether or not the
    other end has one, and one at most at each end; what lies between is kept
    as it is, without any escape processing. A value between two quote
    characters loses both, a value with none stays as it is. The scalar of a
    [key: value] line and of a record field is trimmed first, the one of a
    list item is not. [key: "hello"] and [key: hello] store the same
    [hello]. *)
Theorem quote_stripping :
  (forall s : jstr,
      stripQuotes s = strip_trailing_quote (strip_leading_quote s))
  /\ (forall (q1 q2 : char) (body : jstr),
        is_quote q1 = true -> is_quote q2 = true ->
        stripQuotes (q1 :: body ++ [q2]) = body)
  /\ (forall s : jstr,
        is_quote (hd 0%N s) = false -> is_quote (last s 0%N) = false ->
        stripQuotes s = s)
  /\ parseYAML (lit "key: " ++ quoted (lit "hello"))
     = [(lit "key", VStr (lit "hello"))]
  /\ parseYAML (lit "key: hello") = [(lit "key", VStr (lit "hello"))]
  /\ parseYAML (text_of [lit "tags:"; lit "  - " ++ quoted (lit "a");
                         lit "  - b"])
     = [(lit "tags", VList [VObj [(lit "text", VStr (lit "a"))];
                            VObj [(lit "text", VStr (lit "b"))]])]
  /\ parseYAML (text_of [lit "stats:"; lit "  - number: " ++ quoted (lit "500");
                         lit "    label:   'Workouts'  "])
     = [(lit "stats", VList [VObj [(lit "number", VStr (lit "500"));
                                   (lit "label", VStr (lit "Workouts"))]])]
  /\ parseYAML (text_of [lit "tags:"; lit "  -   " ++ quoted (lit "a")])
     = [(lit "tags", VList [VObj [(lit "text", VStr (lit "  " ++ DQ :: lit "a"))]])].
Proof.
  split; [exact stripQuotes_reading|].
  split; [exact stripQuotes_pair|].
  split; [exact stripQuotes_none|].
  repeat split; vm_compute; reflexivity.
Qed.

Lemma quote_stripping_witness :
  stripQuotes (SQ :: lit "a \ b" ++ [DQ]) = lit "a \ b"
  /\ stripQuotes (lit "it's") = lit "it's".
Proof.
  split.
  - apply (proj1 (proj2 quote_stripping)); reflexivity.
  - apply (proj1 (proj2 (proj2 quote_stripping))); reflexivity.
Defined.

(** C6: on the block scalar example of the specification the code returns
    the empty mapping. The block is stored only when a later line at or
    below its indentation closes it; nothing after the loop stores a block
    that is still open at the end of the input. With one more line behind
    it the example gives the value the specification states. *)
Theorem block_scalar_at_end_is_lost :
  parseYAML bio_text = []
  /\ parseYAML (bio_text ++ NL :: lit "name: x")
     = [(lit "bio", VStr bio_value); (lit "name", VStr (lit "x"))].
Proof. split; vm_compute; reflexivity. Qed.

(** C7: a text that is not an opening delimiter line, a metadata block, a
    closing delimiter line and a body comes back from [parseFrontmatter]
    as the body, with empty metadata; so does ["no delimiters here"]. *)
Theorem frontmatter_fallback :
  (forall text : jstr,
      ~ frontmatter_pattern text ->
      parseFrontmatter text = mkDoc [] text)
  /\ parseFrontmatter (lit "no delimiters here")
     = mkDoc [] (lit "no delimiters here").
Proof.
  split; [|reflexivity].
  intros text H. apply parseFrontmatter_no_match.
  destruct (frontmatter_match text) eqn:E; [|reflexivity].
  exfalso. apply H. apply frontmatter_match_pattern. congruence.
Qed.

Lemma frontmatter_fallback_witness :
  parseFrontmatter (lit "# A title") = mkDoc [] (lit "# A title").
Proof.
  apply (proj1 frontmatter_fallback).
  intros [meta [body H]]. vm_compute in H. discriminate H.
Defined.

(** C8: [toMarkdown data body] is the opening delimiter line, the
    serialization of [data], the closing delimiter line, a blank line and
    [body] as it is; it raises what [toYAML data] raises. *)
Theorem toMarkdown_structure (data : object) (body : jstr) :
  toMarkdown data body
  = bind (toYAML data 0) (fun yaml =>
    OK (delimiter ++ [NL] ++ yaml ++ delimiter ++ [NL] ++ [NL] ++ body)).
Proof.
  unfold toMarkdown. destruct (toYAML data 0) as [yaml|e]; [|reflexivity].
  simpl bind. f_equal. rewrite <- !app_assoc. reflexivity.
Qed.

(** C10, as the specification states it, fails: a text that begins with the
    delimiter line and ends with the delimiter may hold an earlier closing
    delimiter line, and then the metadata before that line is parsed. *)
Lemma closing_delimiter_counterexample :
  startsWith opening two_closings = true
  /\ endsWith (NL :: delimiter) two_closings = true
  /\ parseFrontmatter two_closings
     = mkDoc [(lit "a", VStr (lit "1"))] (text_of [lit "x"; lit "---"])
  /\ parseFrontmatter two_closings <> mkDoc [] two_closings.
Proof. repeat split; vm_compute; try reflexivity; discriminate. Qed.

(** C10, amended: when [parseFrontmatter] parses metadata, the text is the
    opening delimiter line, the metadata, a closing delimiter line with a
    newline behind it, and the body. A text that begins with the delimiter
    line and ends with the delimiter, and in which no closing delimiter line
    with its newline occurs behind the opening one, comes back whole as the
    body, with empty metadata. *)
Theorem closing_delimiter_needs_newline :
  (forall text g1 g2 : jstr,
      frontmatter_match text = Some (g1, g2) ->
      text = opening ++ g1 ++ closing ++ g2
      /\ parseFrontmatter text = mkDoc (parseYAML g1) (trim g2))
  /\ (forall text : jstr,
        startsWith opening text = true ->
        endsWith (NL :: delimiter) text = true ->
        ~ occurs closing (skipn 4 text) ->
        parseFrontmatter text = mkDoc [] text).
Proof.
  split.
  - intros text g1 g2 H. split; [now apply frontmatter_match_Some|].
    unfold parseFrontmatter. now rewrite H.
  - intros text _ _ H. apply parseFrontmatter_no_match.
    unfold frontmatter_match.
    destruct (startsWith (delimiter ++ [NL]) text); [|reflexivity].
    destruct (cut (NL :: delimiter ++ [NL]) (skipn 4 text)) as [[a b]|] eqn:E;
      [|reflexivity].
    exfalso. apply H. exists a, b. now apply cut_Some.
Qed.

Lemma closing_delimiter_needs_newline_witness :
  parseFrontmatter (text_of [lit "---"; lit "a: 1"; lit "---"])
  = mkDoc [] (text_of [lit "---"; lit "a: 1"; lit "---"])
  /\ text_of [lit "---"; lit "a: 1"; lit "---"; lit "body"]
     = opening ++ lit "a: 1" ++ closing ++ lit "body".
Proof.
  split.
  - apply (proj2 closing_delimiter_needs_newline);
      [reflexivity | reflexivity |].
    apply cut_None. reflexivity.
  - apply (proj1 closing_delimiter_needs_newline). reflexivity.
Defined.

(* ================================================================== *)
(** * Further properties of the serializer *)
(* ================================================================== *)

Section SerializerOutput.

(** Induction on a value through its lists and objects. *)
Lemma value_nested_ind (P : value -> Prop) :
  P VNull ->
  (forall s, P (VStr s)) ->
  (forall items, Forall P items -> P (VList items)) ->
  (forall props, Forall (fun kv => P (snd kv)) props -> P (VObj props)) ->
  forall v, P v.
Proof.
  intros Hnull Hstr Hlist Hobj. fix IH 1. intros [|s|items|props].
  - exact Hnull.
  - apply Hstr.
  - apply Hlist. induction items as [|x items IHi]; constructor.
    + apply IH.
    + exact IHi.
  - apply Hobj. induction props as [|[k x] props IHp]; constructor.
    + apply IH.
    + exact IHp.
Qed.

(** A text that is empty or ends with a newline. *)
Lemma closed_app (a b : jstr) :
  (a = [] \/ exists a', a = a' ++ [NL]) ->
  (b = [] \/ exists b', b = b' ++ [NL]) ->
  a ++ b = [] \/ exists c, a ++ b = c ++ [NL].
Proof.
  intros [->|[a' ->]] [->|[b' ->]].
  - now left.
  - right. now exists b'.
  - right. exists a'. now rewrite app_nil_r.
  - right. exists ((a' ++ [NL]) ++ b'). now rewrite app_assoc.
Qed.

Lemma closed_snoc (a : jstr) : exists c, a ++ [NL] = c ++ [NL].
Proof. now exists a. Qed.

Lemma closed_two (a : jstr) (c : char) :
  exists b, a ++ [c; NL] = b ++ [NL].
Proof. exists (a ++ [c]). now rewrite <- app_assoc. Qed.

Lemma emit_field_closed (pre : jstr) (kv : jstr * value) (y : jstr) :
  emit_field pre kv = OK y -> exists c, y = c ++ [NL].
Proof.
  unfold emit_field. destruct (toStr (snd kv)) as [s|]; [|discriminate].
  intros [= <-]. exists (pre ++ fst kv ++ lit ": " ++ [DQ] ++ s ++ [DQ]).
  now rewrite <- !app_assoc.
Qed.

Lemma emit_more_closed (pre : jstr) (es : object) (y : jstr) :
  emit_more pre es = OK y -> y = [] \/ exists c, y = c ++ [NL].
Proof.
  revert y; induction es as [|kv es IH]; intros y; cbn [emit_more].
  - intros [= <-]. now left.
  - destruct (emit_field pre kv) as [a|] eqn:Ea; [|discriminate].
    destruct (emit_more pre es) as [b|] eqn:Eb; [|discriminate].
    intros [= <-]. apply closed_app; [right | now apply IH].
    eapply emit_field_closed; eassumption.
Qed.

Lemma emit_record_closed (spaces : jstr) (es : object) (y : jstr) :
  emit_record spaces es = OK y -> y = [] \/ exists c, y = c ++ [NL].
Proof.
  destruct es as [|kv es]; cbn [emit_record].
  - intros [= <-]. now left.
  - destruct (emit_field (spaces ++ lit "  - ") kv) as [a|] eqn:Ea;
      [|discriminate].
    destruct (emit_more (spaces ++ lit "    ") es) as [b|] eqn:Eb;
      [|discriminate].
    intros [= <-]. apply closed_app.
    + right. eapply emit_field_closed; eassumption.
    + eapply emit_more_closed; eassumption.
Qed.

Lemma emit_items_closed (spaces : jstr) (items : list value) (y : jstr) :
  emit_items spaces items = OK y -> y = [] \/ exists c, y = c ++ [NL].
Proof.
  revert y; induction items as [|item items IH]; intros y; cbn [emit_items].
  - intros [= <-]. now left.
  - destruct (emit_item spaces item) as [a|] eqn:Ea; [|discriminate].
    destruct (emit_items spaces items) as [b|] eqn:Eb; [|discriminate].
    intros [= <-]. apply closed_app; [|now apply IH].
    destruct item as [|s|l|props]; cbn [emit_item] in Ea.
    + discriminate.
    + injection Ea as <-. right.
      exists (spaces ++ lit "  - " ++ [DQ] ++ s ++ [DQ]).
      now rewrite <- !app_assoc.
    + eapply emit_record_closed; eassumption.
    + eapply emit_record_closed; eassumption.
Qed.

Lemma emit_block_closed (spaces s : jstr) :
  exists c, emit_block spaces s = c ++ [NL].
Proof.
  unfold emit_block, split. destruct (split1 NL s) as [h t].
  revert h; induction t as [|x t IH]; intros h.
  - simpl. exists (spaces ++ lit "  " ++ h).
    now rewrite app_nil_r, <- !app_assoc.
  - destruct (IH x) as [c E]. cbn [List.map concat] in *.
    rewrite E. exists ((spaces ++ lit "  " ++ h ++ [NL]) ++ c).
    now rewrite <- !app_assoc.
Qed.

Lemma after_header_closed (spaces key sub : jstr) :
  (sub = [] \/ exists c, sub = c ++ [NL]) ->
  exists c, spaces ++ key ++ [COLON; NL] ++ sub = c ++ [NL].
Proof.
  intros [->|[c ->]].
  - exists (spaces ++ key ++ [COLON]). now rewrite <- !app_assoc.
  - exists (spaces ++ key ++ [COLON; NL] ++ c). now rewrite <- !app_assoc.
Qed.

Lemma emit_entry_closed (v : value) :
  forall (indent : nat) (key y : jstr),
    emit_entry indent key v = OK y -> y = [] \/ exists c, y = c ++ [NL].
Proof.
  induction v as [|s|items _|props IH] using value_nested_ind;
    intros indent key y.
  - intros [= <-]. now left.
  - cbn [emit_entry]. destruct (includes NL s); intros [= <-]; right.
    + destruct (emit_block_closed (repeat_str (lit "  ") indent) s) as [c E].
      rewrite E.
      exists (repeat_str (lit "  ") indent ++ key ++ lit ": |" ++ [NL] ++ c).
      now rewrite <- !app_assoc.
    + exists (repeat_str (lit "  ") indent ++ key ++ lit ": " ++ [DQ] ++ s ++ [DQ]).
      now rewrite <- !app_assoc.
  - cbn [emit_entry].
    destruct (emit_items (repeat_str (lit "  ") indent) items) as [sub|] eqn:E;
      [|discriminate].
    intros [= <-]. right. apply after_header_closed.
    eapply emit_items_closed; eassumption.
  - rewrite emit_entry_object.
    destruct (toYAML props (S indent)) as [sub|] eqn:E; [|discriminate].
    intros [= <-]. right. apply after_header_closed.
    clear key. revert sub E.
    induction props as [|[k x] props IHp]; intros sub; cbn [toYAML].
    + intros [= <-]. now left.
    + apply Forall_cons_iff in IH as [Hx IH].
      destruct (emit_entry (S indent) k x) as [a|] eqn:Ea; [|discriminate].
      destruct (toYAML props (S indent)) as [b|] eqn:Eb; [|discriminate].
      intros [= <-]. apply closed_app.
      * eapply Hx; eassumption.
      * now apply IHp.
Qed.

End SerializerOutput.

(* ================================================================== *)
(** * Further properties of the parser *)
(* ================================================================== *)

Section ParserLines.

Lemma split_join (lines : list jstr) :
  lines <> [] -> Forall (fun l => includes NL l = false) lines ->
  split NL (join NL lines) = lines.
Proof.
  intros Hne H. induction H as [|l lines Hl Hrest IH]; [contradiction|].
  destruct lines as [|l2 lines].
  - simpl. now apply split_no_sep.
  - cbn [join]. rewrite split_app by assumption. f_equal.
    apply IH. discriminate.
Qed.

(** A text is read line by line. *)
Lemma parseYAML_lines (lines : list jstr) :
  Forall (fun l => includes NL l = false) lines ->
  parseYAML (text_of lines) = finish (fold_left step lines init_state).
Proof.
  intros H. unfold parseYAML, text_of. destruct lines as [|l lines].
  - reflexivity.
  - rewrite split_join; [reflexivity | discriminate | assumption].
Qed.

Lemma step_stays_outside_block (st : pstate) (line : jstr) :
  inMultilineString st = false ->
  skippable line || negb (opens_block line) = true ->
  inMultilineString (step st line) = false.
Proof.
  intros HM H. unfold step. fold (skippable line).
  destruct (skippable line) eqn:S.
  - unfold skip_line. now rewrite HM.
  - simpl in H. apply negb_true_iff in H. unfold opens_block in H.
    unfold multiline_line. rewrite HM, H.
    destruct (startsWith [DASH; SP] (trim line)).
    + unfold list_item.
      destruct (includes COLON (skipn 2 (trim line))).
      * now destruct (split1 COLON (skipn 2 (trim line))).
      * destruct (currentListItem st) as [item|]; [|assumption].
        now destruct (has_fields item).
    + assert (K : forall s, inMultilineString s = false ->
                            inMultilineString (key_value s (trim line)) = false).
      { intros s Hs. unfold key_value.
        destruct (includes COLON (trim line) && negb (startsWith [DASH] (trim line)));
          [|assumption].
        match goal with |- context [if ?b then _ else _] => now destruct b end. }
      assert (C : forall z, inMultilineString (close_list st z (trim line)) = false).
      { intros z. unfold close_list.
        destruct (currentList st); [|assumption].
        destruct ((z =? 0)%Z && includes COLON (trim line)); [|assumption].
        destruct (currentListItem st) as [item|]; [|assumption].
        now destruct (has_fields item). }
      destruct (currentListItem st) as [item|].
      * destruct (4 <=? search_nonspace line)%Z; [|now apply K].
        unfold record_field. destruct (includes COLON (trim line)); [|assumption].
        now destruct (split1 COLON (trim line)).
      * now apply K.
Qed.

Lemma fold_step_skips (lines : list jstr) (st : pstate) :
  inMultilineString st = false ->
  forallb (fun l => skippable l || negb (opens_block l)) lines = true ->
  fold_left step (filter (fun l => negb (skippable l)) lines) st
  = fold_left step lines st.
Proof.
  revert st; induction lines as [|l lines IH]; intros st HM H; [reflexivity|].
  simpl in H. apply andb_true_iff in H as [Hl H].
  cbn [filter fold_left]. destruct (skippable l) eqn:S; cbn [negb].
  - rewrite (step_skipped_outside_block st l HM S). now apply IH.
  - cbn [fold_left]. apply IH; [|assumption].
    apply step_stays_outside_block; [assumption|]. now rewrite S.
Qed.

Lemma filter_keeps_Forall (P : jstr -> Prop) (f : jstr -> bool)
  (lines : list jstr) :
  Forall P lines -> Forall P (filter f lines).
Proof.
  induction 1 as [|l lines Hl _ IH]; simpl; [constructor|].
  destruct (f l); [now constructor | assumption].
Qed.

(** *** Reading a property back *)

Lemma obj_get_update (o : object) (k k' : jstr) (v : value) :
  obj_get (obj_update o k v) k'
  = if eqb k k' then (if obj_has o k then Some v else None) else obj_get o k'.
Proof.
  induction o as [|[k0 v0] o IH]; simpl.
  - now destruct (eqb k k').
  - destruct (eqb k0 k) eqn:E0; simpl.
    + apply eqb_eq in E0. subst k0. now destruct (eqb k k').
    + rewrite IH. destruct (eqb k k') eqn:E; [|reflexivity].
      apply eqb_eq in E. subst k'. now rewrite E0.
Qed.

Lemma obj_get_insert_index (n : N) (o : object) (k k' : jstr) (v : value) :
  obj_has o k = false ->
  obj_get (obj_insert_index n k v o) k'
  = if eqb k k' then Some v else obj_get o k'.
Proof.
  induction o as [|[k0 v0] o IH]; intros H; simpl; [reflexivity|].
  simpl in H. apply orb_false_iff in H as [H0 H].
  destruct (array_index k0) as [m|]; [destruct (m <? n)%N|]; simpl;
    try reflexivity.
  rewrite (IH H). destruct (eqb k k') eqn:E; [|reflexivity].
  apply eqb_eq in E. subst k'. now rewrite H0.
Qed.

Lemma obj_get_app_last (o : object) (k k' : jstr) (v : value) :
  obj_has o k = false ->
  obj_get (o ++ [(k, v)]) k' = if eqb k k' then Some v else obj_get o k'.
Proof.
  induction o as [|[k0 v0] o IH]; intros H; simpl.
  - now destruct (eqb k k').
  - simpl in H. apply orb_false_iff in H as [H0 H]. rewrite (IH H).
    destruct (eqb k k') eqn:E; [|reflexivity].
    apply eqb_eq in E. subst k'. now rewrite H0.
Qed.

(** After [o[k] = v], reading [k] gives [v] and every other key reads as
    before; only the key [__proto__] cannot be written. *)
Lemma obj_get_set (o : object) (k k' : jstr) (v : value) :
  eqb k (lit "__proto__") = false ->
  obj_get (obj_set o k v) k' = if eqb k k' then Some v else obj_get o k'.
Proof.
  intros Hp. unfold obj_set, obj_define. rewrite Hp.
  destruct (obj_has o k) eqn:H.
  - rewrite obj_get_update. now rewrite H.
  - destruct (array_index k); [now apply obj_get_insert_index|].
    now apply obj_get_app_last.
Qed.

Lemma obj_get_write_all (kvs : list (jstr * jstr)) (acc : object) (k : jstr) :
  forallb source_entry kvs = true ->
  obj_get (write_all acc (flat_mapping kvs)) k
  = match fold_left (fun found ks => if eqb (fst ks) k then Some (snd ks)
                                     else found) kvs None with
    | Some s => Some (VStr s)
    | None => obj_get acc k
    end.
Proof.
  unfold write_all.
  revert acc; induction kvs as [|[k0 s0] kvs IH]; intros acc H; [reflexivity|].
  simpl in H. apply andb_true_iff in H as [H0 H].
  unfold source_entry in H0. apply andb_true_iff in H0 as [Hk _].
  apply key_ok_inv in Hk as [_ [_ [_ [_ [_ Hp]]]]]. simpl in Hp.
  cbn [flat_mapping List.map fold_left fst snd]. fold (flat_mapping kvs).
  rewrite (IH _ H).
  assert (G : forall init,
    fold_left (fun found ks => if eqb (fst ks) k then Some (snd ks) else found)
              kvs init
    = match fold_left (fun found ks => if eqb (fst ks) k then Some (snd ks)
                                       else found) kvs None with
      | Some s => Some s
      | None => init
      end).
  { clear. induction kvs as [|[k1 s1] kvs IHk]; intros init; [reflexivity|].
    cbn [fold_left fst snd]. destruct (eqb k1 k).
    - rewrite (IHk (Some s1)). now destruct (fold_left _ kvs None).
    - apply IHk. }
  rewrite (G (if eqb k0 k then Some s0 else None)).
  destruct (fold_left _ kvs None) as [s|]; [reflexivity|].
  rewrite (obj_get_set acc k0 k (VStr s0) Hp). now destruct (eqb k0 k).
Qed.

End ParserLines.

(* ================================================================== *)
(** * Further properties of the frontmatter codec *)
(* ================================================================== *)

Section FrontmatterRoundTrip.

Lemma trimStart_head (s r : jstr) (c : char) :
  trimStart s = c :: r -> is_ws c = false.
Proof.
  induction s as [|x s IH]; simpl; [discriminate|].
  destruct (is_ws x) eqn:E; [assumption|]. now intros [= <- _].
Qed.

Lemma trimStart_idem (s : jstr) : trimStart (trimStart s) = trimStart s.
Proof.
  destruct (trimStart s) as [|c r] eqn:E; [reflexivity|].
  apply trimStart_head in E. simpl. now rewrite E.
Qed.

Lemma trimStart_suffix (s : jstr) : exists w, s = w ++ trimStart s.
Proof.
  induction s as [|c s [w IH]]; [now exists []|].
  simpl. destruct (is_ws c); [|now exists []].
  exists (c :: w). simpl. now f_equal.
Qed.

Lemma trimEnd_prefix (s : jstr) : exists w, s = trimEnd s ++ w.
Proof.
  destruct (trimStart_suffix (rev s)) as [w E]. exists (rev w).
  unfold trimEnd. rewrite <- rev_app_distr, <- E. now rewrite rev_involutive.
Qed.

Lemma trimEnd_idem (s : jstr) : trimEnd (trimEnd s) = trimEnd s.
Proof.
  unfold trimEnd. now rewrite rev_involutive, trimStart_idem.
Qed.

Lemma trimStart_trimEnd (t : jstr) :
  trimStart t = t -> trimStart (trimEnd t) = trimEnd t.
Proof.
  intros H. destruct (trimEnd_prefix t) as [w E].
  destruct (trimEnd t) as [|c r]; [reflexivity|].
  rewrite E in H. simpl in H. simpl.
  destruct (is_ws c) eqn:C; [|reflexivity].
  exfalso. apply (f_equal (@length char)) in H. simpl in H.
  pose proof (trimStart_length (r ++ w)). lia.
Qed.

Lemma trim_idem (s : jstr) : trim (trim s) = trim s.
Proof.
  unfold trim. rewrite trimStart_trimEnd by apply trimStart_idem.
  apply trimEnd_idem.
Qed.

(** *** Where the closing delimiter is found behind serialized metadata *)

Lemma closing_eq : closing = [NL; DASH; DASH; DASH; NL].
Proof. reflexivity. Qed.

Lemma cut_closing_line (l rest : jstr) :
  includes NL l = false ->
  cut closing (l ++ rest)
  = match cut closing rest with
    | Some (a, b) => Some (l ++ a, b)
    | None => None
    end.
Proof.
  induction l as [|c l IH]; intros H; simpl app.
  - now destruct (cut closing rest) as [[a b]|].
  - apply includes_false_cons in H as [Hc H]. rewrite cut_eq.
    assert (S : startsWith closing (c :: l ++ rest) = false).
    { rewrite closing_eq. cbn [startsWith]. now rewrite N.eqb_sym, Hc. }
    rewrite S, (IH H). now destruct (cut closing rest) as [[a b]|].
Qed.

Lemma cut_closing_newline (c : char) (rest : jstr) :
  (DASH =? c)%N = false ->
  cut closing (NL :: c :: rest)
  = match cut closing (c :: rest) with
    | Some (a, b) => Some (NL :: a, b)
    | None => None
    end.
Proof.
  intros H. rewrite cut_eq.
  assert (S : startsWith closing (NL :: c :: rest) = false).
  { rewrite closing_eq. cbn [startsWith]. now rewrite N.eqb_refl, H. }
  now rewrite S.
Qed.

Lemma cut_closing_here (b : jstr) : cut closing (closing ++ b) = Some ([], b).
Proof.
  rewrite cut_eq, startsWith_app. now rewrite skipn_length_app.
Qed.

Lemma cut_scalar_lines (kv : jstr * jstr) (kvs : list (jstr * jstr))
  (b : jstr) :
  forallb source_entry (kv :: kvs) = true ->
  cut closing (scalar_lines (kv :: kvs) ++ delimiter ++ NL :: b)
  = Some (text_of (List.map (fun ks => scalar_line (fst ks) (snd ks))
                            (kv :: kvs)), b).
Proof.
  revert kv; induction kvs as [|kv2 kvs IH]; intros [k s] H.
  - simpl in H. rewrite andb_true_r in H. unfold source_entry in H.
    apply andb_true_iff in H as [Hk Hs]. simpl in Hk, Hs.
    cbn [scalar_lines List.map text_of join fst snd].
    rewrite <- app_assoc. cbn [app].
    change (NL :: delimiter ++ NL :: b) with (closing ++ b).
    rewrite cut_closing_line by now apply scalar_line_no_newline.
    rewrite cut_closing_here. now rewrite app_nil_r.
  - cbn [forallb] in H. apply andb_true_iff in H as [H1 H2].
    unfold source_entry in H1. apply andb_true_iff in H1 as [Hk Hs].
    simpl in Hk, Hs. specialize (IH kv2 H2).
    destruct kv2 as [k2 s2]. pose proof H2 as H2'.
    cbn [forallb] in H2'. apply andb_true_iff in H2' as [H3 _].
    unfold source_entry in H3. apply andb_true_iff in H3 as [Hk2 _].
    simpl in Hk2.
    destruct (scalar_line_shape k2 s2 Hk2) as [c [mid [E [_ [_ Hd]]]]].
    change (scalar_lines ((k, s) :: (k2, s2) :: kvs))
      with (scalar_line k s ++ NL :: scalar_lines ((k2, s2) :: kvs)).
    rewrite <- app_assoc. cbn [app].
    rewrite cut_closing_line by now apply scalar_line_no_newline.
    change (scalar_lines ((k2, s2) :: kvs))
      with (scalar_line k2 s2 ++ NL :: scalar_lines kvs) in *.
    rewrite E in *. cbn [app] in *.
    rewrite (cut_closing_newline c _ Hd), IH.
    unfold text_of. cbn [List.map join fst snd]. rewrite E. reflexivity.
Qed.

Lemma parseYAML_joined_scalar_lines (kvs : list (jstr * jstr)) :
  forallb source_entry kvs = true ->
  parseYAML (text_of (List.map (fun ks => scalar_line (fst ks) (snd ks)) kvs))
  = write_all [] (flat_mapping kvs).
Proof.
  intros H. rewrite parseYAML_lines.
  - destruct (fold_scalar_lines kvs init_state) as [st' [Ht [E R]]];
      [now repeat split | assumption |].
    rewrite E. unfold finish. destruct Ht as [-> _]. exact R.
  - apply Forall_forall. intros l Hl. apply in_map_iff in Hl as [[k s] [<- Hks]].
    apply (proj1 (forallb_forall _ _) H) in Hks. unfold source_entry in Hks.
    apply andb_true_iff in Hks as [Hk Hs]. now apply scalar_line_no_newline.
Qed.

Lemma trim_after_newline (body : jstr) : trim (NL :: body) = trim body.
Proof. reflexivity. Qed.

End FrontmatterRoundTrip.

(* ================================================================== *)
(** * Lists of strings, and what the page shows of them *)
(* ================================================================== *)

Section ListsOfStrings.

Lemma list_line_eq (s : jstr) :
  list_line s = SP :: SP :: DASH :: SP :: DQ :: s ++ [DQ].
Proof. reflexivity. Qed.

Lemma item_ok_inv (s : jstr) :
  item_ok s = true -> includes COLON s = false /\ includes NL s = false.
Proof.
  unfold item_ok. intros H. apply andb_true_iff in H as [H1 H2].
  now apply negb_true_iff in H1, H2.
Qed.

Lemma toYAML_string_list (k : jstr) (ss : list jstr) :
  toYAML [(k, VList (List.map VStr ss))] 0
  = OK (list_header k ++ NL :: list_lines ss).
Proof.
  assert (E : emit_items [] (List.map VStr ss) = OK (list_lines ss)).
  { induction ss as [|s ss IH]; [reflexivity|].
    cbn [List.map emit_items emit_item]. rewrite IH. cbn [bind app list_lines].
    f_equal. unfold list_line, quoted. rewrite <- !app_assoc. cbn [app].
    rewrite <- !app_assoc. reflexivity. }
  cbn [toYAML emit_entry repeat_str]. rewrite E. cbn [bind app].
  rewrite app_nil_r. unfold list_header. now rewrite <- app_assoc.
Qed.

(** The line [k:] at the top level makes [k] the pending key. *)
Lemma step_list_header (st : pstate) (k : jstr) :
  at_top st -> key_ok k = true -> k <> [] ->
  step st (list_header k) = with_currentKey (Some k) st.
Proof.
  intros [HL [HI HM]] Hk Hne.
  apply key_ok_inv in Hk as [Ht [Hc [_ [Hh [Hd _]]]]].
  destruct k as [|c k]; [contradiction|].
  pose proof (trim_fixed_head c k Ht) as Hws.
  cbn [startsWith] in Hh, Hd. rewrite andb_true_r in Hh, Hd.
  assert (T : trim (list_header (c :: k)) = list_header (c :: k)).
  { unfold list_header. cbn [app]. now apply trim_between. }
  assert (E1 : truthy (list_header (c :: k)) = true) by reflexivity.
  assert (E2 : startsWith [HASH] (list_header (c :: k)) = false).
  { unfold list_header. cbn [app startsWith]. now rewrite Hh. }
  assert (E3 : endsWith [PIPE] (list_header (c :: k)) = false).
  { unfold endsWith, list_header. now rewrite rev_app_distr. }
  assert (E4 : startsWith [DASH; SP] (list_header (c :: k)) = false).
  { unfold list_header. cbn [app startsWith]. now rewrite Hd. }
  assert (E5 : startsWith [DASH] (list_header (c :: k)) = false).
  { unfold list_header. cbn [app startsWith]. now rewrite Hd. }
  assert (E6 : includes COLON (list_header (c :: k)) = true).
  { unfold list_header. rewrite includes_app. simpl. apply orb_true_r. }
  unfold step. rewrite T, E1, E2. cbn [orb negb].
  unfold multiline_line. rewrite HM, E3, E4, HI.
  unfold close_list. rewrite HL.
  unfold key_value. rewrite E6, E5, E3. cbn [andb negb].
  unfold list_header.
  rewrite (indexOf_app COLON (c :: k) [] Hc), firstn_length_app.
  rewrite skipn_succ_app, Ht. reflexivity.
Qed.

(** A line [- "s"] behind it adds the record [{text: s}] to the list. *)
Lemma step_list_line (k s : jstr) (items : option (list value)) :
  item_ok s = true ->
  step (in_list k items) (list_line s)
  = in_list k (Some (match items with Some l => l | None => [] end
                     ++ [text_record s])).
Proof.
  intros Hs. apply item_ok_inv in Hs as [Hc _].
  assert (T : trim (list_line s) = DASH :: SP :: DQ :: s ++ [DQ]).
  { rewrite list_line_eq. unfold trim. cbn [trimStart is_ws].
    change (trimStart (SP :: SP :: DASH :: SP :: DQ :: s ++ [DQ]))
      with (DASH :: SP :: DQ :: s ++ [DQ]).
    change (DASH :: SP :: DQ :: s ++ [DQ])
      with ((DASH :: SP :: DQ :: s) ++ [DQ]).
    now apply trimEnd_snoc. }
  unfold step. rewrite T.
  assert (E3 : endsWith [PIPE] (DASH :: SP :: DQ :: s ++ [DQ]) = false).
  { unfold endsWith.
    change (DASH :: SP :: DQ :: s ++ [DQ])
      with ((DASH :: SP :: DQ :: s) ++ [DQ]).
    now rewrite rev_app_distr. }
  cbn [truthy negb orb]. change (startsWith [HASH] (DASH :: SP :: DQ :: s ++ [DQ]))
    with false. cbn [orb].
  unfold multiline_line. cbn [in_list inMultilineString]. rewrite E3.
  change (startsWith [DASH; SP] (DASH :: SP :: DQ :: s ++ [DQ])) with true.
  unfold list_item. cbn [skipn currentList currentListItem].
  assert (C : includes COLON (DQ :: s ++ [DQ]) = false).
  { change (DQ :: s ++ [DQ]) with ([DQ] ++ s ++ [DQ]).
    now rewrite !includes_app, Hc. }
  rewrite C. rewrite (stripQuotes_pair DQ DQ s eq_refl eq_refl).
  reflexivity.
Qed.

Lemma fold_list_lines (k : jstr) (ss : list jstr) (l : list value) :
  forallb item_ok ss = true ->
  fold_left step (List.map list_line ss) (in_list k (Some l))
  = in_list k (Some (l ++ List.map text_record ss)).
Proof.
  revert l; induction ss as [|s ss IH]; intros l H.
  - simpl. now rewrite app_nil_r.
  - simpl in H. apply andb_true_iff in H as [Hs H].
    cbn [List.map fold_left]. rewrite (step_list_line k s (Some l) Hs).
    rewrite (IH _ H). now rewrite <- app_assoc.
Qed.

Lemma split_list_lines (ss : list jstr) :
  forallb item_ok ss = true ->
  split NL (list_lines ss) = List.map list_line ss ++ [[]].
Proof.
  induction ss as [|s ss IH]; intros H; [reflexivity|].
  simpl in H. apply andb_true_iff in H as [Hs H].
  apply item_ok_inv in Hs as [_ Hn].
  cbn [list_lines List.map app]. rewrite split_app.
  - now rewrite (IH H).
  - rewrite list_line_eq.
    change (SP :: SP :: DASH :: SP :: DQ :: s ++ [DQ])
      with ([SP; SP; DASH; SP; DQ] ++ s ++ [DQ]).
    now rewrite !includes_app, Hn.
Qed.

Lemma commit_first_key (k : jstr) (v : value) :
  eqb k (lit "__proto__") = false -> obj_set [] k v = [(k, v)].
Proof.
  intros H. unfold obj_set, obj_define. rewrite H. simpl.
  now destruct (array_index k).
Qed.

(** A list of strings that is written and read again comes back as the list
    of their [text] records. *)
Lemma parseYAML_toYAML_string_list (k : jstr) (ss : list jstr) :
  key_ok k = true -> k <> [] -> ss <> [] -> forallb item_ok ss = true ->
  exists y, toYAML [(k, VList (List.map VStr ss))] 0 = OK y
            /\ parseYAML y = [(k, VList (List.map text_record ss))].
Proof.
  intros Hk Hne Hss H. eexists. split; [apply toYAML_string_list|].
  pose proof (key_ok_inv k Hk) as [_ [_ [Hn [_ [_ Hp]]]]].
  unfold parseYAML. rewrite split_app.
  2:{ unfold list_header. now rewrite includes_app, Hn. }
  rewrite split_list_lines by assumption.
  cbn [fold_left]. rewrite step_list_header;
    [| now repeat split | assumption | assumption].
  change (with_currentKey (Some k) init_state) with (in_list k None).
  destruct ss as [|s ss]; [contradiction|].
  simpl in H. apply andb_true_iff in H as [Hs H].
  cbn [List.map app fold_left]. rewrite (step_list_line k s None Hs).
  rewrite fold_left_app, (fold_list_lines k ss _ H). cbn [fold_left].
  change (step (in_list k (Some ([] ++ [text_record s] ++ List.map text_record ss))) [])
    with (in_list k (Some ([] ++ [text_record s] ++ List.map text_record ss))).
  unfold finish. cbn [in_list currentList currentListItem result currentKey app].
  destruct k as [|c k]; [contradiction|].
  cbn [commit_list]. now apply commit_first_key.
Qed.

Lemma map_quotes_text_records (ss : list jstr) :
  forallb truthy ss = true ->
  map_quotes (List.map text_record ss) = OK (List.map VStr ss).
Proof.
  induction ss as [|s ss IH]; intros H; [reflexivity|].
  simpl in H. apply andb_true_iff in H as [Hs H].
  cbn [List.map map_quotes]. rewrite (IH H).
  unfold quote_text, text_record. cbn [obj_get]. rewrite eqb_refl.
  cbn [truthy_value]. now rewrite Hs.
Qed.

End ListsOfStrings.

(* ================================================================== *)
(** * The slug and the file of a post *)
(* ================================================================== *)

Section Slugs.

Lemma slug_char_not_dash (c : char) :
  is_slug_char c = true -> (c =? DASH)%N = false.
Proof.
  unfold is_slug_char, DASH. intros H. apply N.eqb_neq. intros ->.
  discriminate H.
Qed.

Lemma dashify_chars (s : jstr) (in_run : bool) :
  Forall (fun c => is_slug_char c || (c =? DASH)%N = true)
         (dashify_from in_run s).
Proof.
  revert in_run; induction s as [|c s IH]; intros in_run; simpl;
    [constructor|].
  destruct (is_slug_char c) eqn:E.
  - constructor; [now rewrite E | apply IH].
  - destruct in_run; [apply IH|]. constructor; [reflexivity | apply IH].
Qed.

(** The letters and digits are kept, in their order. *)
Lemma dashify_keeps_slug_chars (s : jstr) (in_run : bool) :
  filter is_slug_char (dashify_from in_run s) = filter is_slug_char s.
Proof.
  revert in_run; induction s as [|c s IH]; intros in_run; simpl;
    [reflexivity|].
  destruct (is_slug_char c) eqn:E.
  - simpl. now rewrite E, IH.
  - destruct in_run; [apply IH|]. simpl. apply IH.
Qed.

Lemma dashify_in_run_head (s r : jstr) :
  dashify_from true s <> DASH :: r.
Proof.
  induction s as [|c s IH]; simpl; [discriminate|].
  destruct (is_slug_char c) eqn:E; [|assumption].
  intros [= -> _]. discriminate E.
Qed.

Lemma dashify_no_double_dash (s : jstr) (in_run : bool) (a b : jstr) :
  dashify_from in_run s <> a ++ DASH :: DASH :: b.
Proof.
  revert in_run a; induction s as [|c s IH]; intros in_run a; simpl.
  - now destruct a.
  - destruct (is_slug_char c) eqn:E.
    + destruct a as [|x a]; simpl.
      * intros [= -> _]. discriminate E.
      * intros [= _ H]. now apply (IH false a).
    + destruct in_run; [apply IH|].
      destruct a as [|x a]; simpl.
      * intros [= H]. now apply (dashify_in_run_head s b).
      * intros [= _ H]. now apply (IH true a).
Qed.

Lemma drop_trailing_dash_snoc (t : jstr) (e : char) :
  drop_trailing_dash (t ++ [e]) = if (e =? DASH)%N then t else t ++ [e].
Proof.
  unfold drop_trailing_dash. rewrite rev_app_distr. simpl.
  destruct (e =? DASH)%N; [apply rev_involutive | reflexivity].
Qed.

Lemma drop_trailing_dash_cons (c d : char) (s : jstr) :
  drop_trailing_dash (c :: d :: s) = c :: drop_trailing_dash (d :: s).
Proof.
  destruct (exists_last (l := d :: s)) as [t [e E]]; [discriminate|].
  rewrite E. change (c :: t ++ [e]) with ((c :: t) ++ [e]).
  rewrite !drop_trailing_dash_snoc. now destruct (e =? DASH)%N.
Qed.

Lemma replace_dashes_inner (s : jstr) :
  replace_dashes_from false s = drop_trailing_dash s.
Proof.
  induction s as [|c s IH]; [reflexivity|].
  destruct s as [|d s].
  - simpl. unfold drop_trailing_dash. simpl.
    rewrite andb_true_r. now destruct (c =? DASH)%N.
  - rewrite drop_trailing_dash_cons, <- IH.
    cbn [replace_dashes_from truthy negb orb]. now rewrite andb_false_r.
Qed.

(** The scan removes one dash at the start and one at the end. *)
Lemma replace_dashes_reading (s : jstr) :
  replace_dashes_from true s = drop_trailing_dash (drop_leading_dash s).
Proof.
  destruct s as [|c s]; [reflexivity|].
  cbn [replace_dashes_from drop_leading_dash orb].
  rewrite andb_true_r, replace_dashes_inner.
  destruct (c =? DASH)%N eqn:E; [reflexivity|].
  destruct s as [|d s].
  - unfold drop_trailing_dash. simpl. now rewrite E.
  - now rewrite drop_trailing_dash_cons.
Qed.

Lemma drop_leading_dash_cases (d : jstr) :
  (drop_leading_dash d = d /\ forall r, d <> DASH :: r)
  \/ d = DASH :: drop_leading_dash d.
Proof.
  destruct d as [|c d]; [left; split; [reflexivity | discriminate]|].
  simpl. destruct (c =? DASH)%N eqn:E.
  - right. apply N.eqb_eq in E. now subst.
  - left. split; [reflexivity|]. intros r [= -> _].
    now rewrite N.eqb_refl in E.
Qed.

Lemma drop_trailing_dash_cases (e : jstr) :
  (drop_trailing_dash e = e /\ forall r, e <> r ++ [DASH])
  \/ e = drop_trailing_dash e ++ [DASH].
Proof.
  destruct e as [|c e] using rev_ind;
    [left; split; [reflexivity | intros []; discriminate]|].
  rewrite drop_trailing_dash_snoc. destruct (c =? DASH)%N eqn:E.
  - right. apply N.eqb_eq in E. now subst.
  - left. split; [reflexivity|]. intros r H.
    apply app_inj_tail in H as [_ ->]. now rewrite N.eqb_refl in E.
Qed.

(** The slug lies inside the dashed title. *)
Lemma newSlug_inside (toLowerCase : jstr -> jstr) (title : jstr) :
  exists p q,
    dashify_from false (toLowerCase title)
    = p ++ newSlug toLowerCase title ++ q
    /\ (p = [] \/ p = [DASH]) /\ (q = [] \/ q = [DASH]).
Proof.
  unfold newSlug. rewrite replace_dashes_reading.
  set (d := dashify_from false (toLowerCase title)).
  destruct (drop_leading_dash_cases d) as [[E1 _]|E1];
    destruct (drop_trailing_dash_cases (drop_leading_dash d)) as [[E2 _]|E2].
  - exists [], []. rewrite E2, E1, app_nil_r. auto.
  - exists [], [DASH]. rewrite <- E2. auto.
  - exists [DASH], []. rewrite E2, app_nil_r. auto.
  - exists [DASH], [DASH]. rewrite <- E2. auto.
Qed.

(** The slug of a title: only [a-z], [0-9] and dashes, no dash at either
    end and no two dashes in a row; its letters and digits are those of the
    lowercased title, in their order. *)
Lemma newSlug_shape (toLowerCase : jstr -> jstr) (title : jstr) :
  let slug := newSlug toLowerCase title in
  Forall (fun c => is_slug_char c || (c =? DASH)%N = true) slug
  /\ (forall r, slug <> DASH :: r)
  /\ (forall r, slug <> r ++ [DASH])
  /\ (forall a b, slug <> a ++ DASH :: DASH :: b)
  /\ filter is_slug_char slug = filter is_slug_char (toLowerCase title).
Proof.
  intros slug.
  destruct (newSlug_inside toLowerCase title) as [p [q [E [Hp Hq]]]].
  fold slug in E.
  pose proof (dashify_no_double_dash (toLowerCase title) false) as ND.
  pose proof (dashify_chars (toLowerCase title) false) as CH.
  pose proof (dashify_keeps_slug_chars (toLowerCase title) false) as KP.
  rewrite E in ND, CH, KP.
  assert (Hin : forall a b, slug <> a ++ DASH :: DASH :: b).
  { intros a b H. apply (ND (p ++ a) (b ++ q)). rewrite H.
    now rewrite <- !app_assoc. }
  repeat split.
  - apply Forall_app in CH as [_ CH]. now apply Forall_app in CH as [CH _].
  - intros r H. unfold slug in H, E. unfold newSlug in H, E.
    rewrite replace_dashes_reading in H, E.
    set (d := dashify_from false (toLowerCase title)) in *.
    destruct (drop_leading_dash_cases d) as [[E1 N1]|E1].
    + rewrite E1 in H.
      destruct (drop_trailing_dash_cases d) as [[E2 _]|E2].
      * rewrite E2 in H. now apply (N1 r).
      * rewrite H in E2. now apply (N1 (r ++ [DASH])).
    + destruct (drop_trailing_dash_cases (drop_leading_dash d)) as [[E2 _]|E2].
      * rewrite E2 in H. rewrite H in E1.
        apply (dashify_no_double_dash (toLowerCase title) false [] r).
        exact E1.
      * rewrite H in E2. rewrite E2 in E1.
        apply (dashify_no_double_dash (toLowerCase title) false []
                 (r ++ [DASH])).
        exact E1.
  - intros r H. unfold slug in H. unfold newSlug in H.
    rewrite replace_dashes_reading in H.
    set (d := dashify_from false (toLowerCase title)) in *.
    set (e := drop_leading_dash d) in *.
    assert (He : forall a b, e <> a ++ DASH :: DASH :: b).
    { intros a b Hab. unfold e in Hab.
      destruct (drop_leading_dash_cases d) as [[E1 _]|E1].
      - rewrite E1 in Hab.
        now apply (dashify_no_double_dash (toLowerCase title) false a b).
      - rewrite Hab in E1.
        now apply (dashify_no_double_dash (toLowerCase title) false
                     (DASH :: a) b). }
    destruct (drop_trailing_dash_cases e) as [[E2 N2]|E2].
    + rewrite E2 in H. now apply (N2 r).
    + rewrite H in E2. apply (He r []). rewrite E2.
      now rewrite <- app_assoc.
  - exact Hin.
  - rewrite !filter_app in KP.
    assert (F : forall x, x = [] \/ x = [DASH] -> filter is_slug_char x = []).
    { intros x [->| ->]; reflexivity. }
    now rewrite (F p Hp), (F q Hq), app_nil_r in KP.
Qed.

Lemma filter_no_slug_chars (s : jstr) :
  forallb (fun c => negb (is_slug_char c)) s = true ->
  filter is_slug_char s = [].
Proof.
  induction s as [|c s IH]; intros H; [reflexivity|].
  simpl in H. apply andb_true_iff in H as [Hc H].
  apply negb_true_iff in Hc. simpl. rewrite Hc. now apply IH.
Qed.

End Slugs.

(* ================================================================== *)
(** * The token of a request, the name of a listed file *)
(* ================================================================== *)

Section Requests.

Lemma cut_not_occurs (pat s : jstr) : ~ occurs pat s -> cut pat s = None.
Proof.
  intros H. destruct (cut pat s) as [[a b]|] eqn:E; [|reflexivity].
  exfalso. apply H. exists a, b. now apply cut_Some.
Qed.

Lemma remove_substring_prefix (pat t : jstr) :
  remove_substring pat (pat ++ t) = t.
Proof.
  unfold remove_substring. rewrite cut_eq, startsWith_app.
  now rewrite skipn_length_app.
Qed.

Lemma remove_substring_absent (pat s : jstr) :
  ~ occurs pat s -> remove_substring pat s = s.
Proof.
  intros H. unfold remove_substring. now rewrite cut_not_occurs.
Qed.

Lemma remove_substring_nil (pat s : jstr) :
  remove_substring pat s = [] -> s = [] \/ s = pat.
Proof.
  unfold remove_substring. destruct (cut pat s) as [[a b]|] eqn:E.
  - intros H. apply app_eq_nil in H as [-> ->]. apply cut_Some in E.
    right. now rewrite app_nil_r in E.
  - now left.
Qed.

(** No token is found exactly when the header is missing, empty, or the
    bare scheme. *)
Lemma bearer_token_empty (authorization : option jstr) :
  bearer_token authorization = []
  <-> authorization = None \/ authorization = Some []
      \/ authorization = Some (lit "Bearer ").
Proof.
  split.
  - destruct authorization as [h|]; [|now left].
    unfold bearer_token. destruct h as [|c h]; [now right; left|].
    cbn [truthy]. intros H. apply remove_substring_nil in H as [H|H];
      [discriminate|]. right; right. now rewrite H.
  - intros [->|[->| ->]]; reflexivity.
Qed.

(** *** File names *)

Lemma endsWith_app (p s : jstr) : endsWith p (s ++ p) = true.
Proof. unfold endsWith. rewrite rev_app_distr. apply startsWith_app. Qed.

Lemma cut_md_at_end (base : jstr) :
  ~ occurs (lit ".md") base ->
  cut (lit ".md") (base ++ lit ".md") = Some (base, []).
Proof.
  intros H. destruct (cut (lit ".md") (base ++ lit ".md")) as [[a b]|] eqn:E.
  - apply cut_Some in E.
    apply app_eq_app in E as [l [[E1 E2]|[E1 E2]]].
    + destruct l as [|x [|y [|z l]]].
      * rewrite app_nil_r in E1. subst a.
        change (lit ".md" ++ b = lit ".md" ++ []) in E2.
        apply app_inv_head in E2. now subst b.
      * discriminate E2.
      * discriminate E2.
      * exfalso. apply H. exists a, l. rewrite E1. f_equal.
        injection E2 as <- <- <- _. reflexivity.
    + apply (f_equal (@length char)) in E2. rewrite !length_app in E2.
      simpl in E2. destruct l; [|simpl in E2; lia].
      destruct b; [|simpl in E2; lia].
      now rewrite app_nil_r in E1; subst a.
  - exfalso. apply (cut_occurs (lit ".md") (base ++ lit ".md")); [|assumption].
    exists base, []. now rewrite app_nil_r.
Qed.

Lemma slug_without_md (toLowerCase : jstr -> jstr) (title : jstr) :
  ~ occurs (lit ".md") (newSlug toLowerCase title).
Proof.
  intros [a [b E]].
  destruct (newSlug_shape toLowerCase title) as [CH _].
  cbv zeta in CH. rewrite E in CH.
  apply Forall_app in CH as [_ CH]. apply Forall_cons_iff in CH as [CH _].
  discriminate CH.
Qed.

End Requests.

(* ================================================================== *)
(** * Block scalars that a later line closes *)
(* ================================================================== *)

Section BlockScalars.

Lemma trim_fixed_last (s : jstr) (d : char) :
  trim (s ++ [d]) = s ++ [d] -> is_ws d = false.
Proof.
  intros H. destruct (is_ws d) eqn:E; [|reflexivity]. exfalso.
  destruct (trimEnd_prefix (trimStart (s ++ [d]))) as [w1 H1].
  destruct (trimStart_suffix (s ++ [d])) as [w2 H2].
  fold (trim (s ++ [d])) in H1. rewrite H in H1. rewrite H1 in H2.
  assert (W : w2 = [] /\ w1 = []).
  { apply (f_equal (@length char)) in H2. rewrite !length_app in H2.
    destruct w1, w2; simpl in H2; try lia. now split. }
  destruct W as [-> ->]. rewrite app_nil_r in H1.
  assert (T : trimEnd (s ++ [d]) = s ++ [d]).
  { unfold trim in H. now rewrite H1 in H. }
  unfold trimEnd in T. rewrite rev_app_distr in T. simpl in T.
  rewrite E in T. apply (f_equal (@length char)) in T.
  rewrite length_rev, length_app in T. simpl in T.
  pose proof (trimStart_length (rev s)) as L. rewrite length_rev in L. lia.
Qed.

Lemma clean_line_inv (b : jstr) :
  clean_line b = true ->
  trim b = b /\ includes NL b = false /\ startsWith [HASH] b = false
  /\ exists c b', b = c :: b' /\ is_ws c = false.
Proof.
  unfold clean_line. intros H.
  repeat (apply andb_true_iff in H as [H ?]).
  repeat match goal with G : negb _ = true |- _ =>
    apply negb_true_iff in G end.
  match goal with G : eqb _ _ = true |- _ => apply eqb_eq in G end.
  repeat split; try assumption.
  destruct b as [|c b']; [discriminate|]. exists c, b'. split; [reflexivity|].
  now apply (trim_fixed_head c b').
Qed.

Lemma search_nonspace_block_line (b : jstr) :
  clean_line b = true -> search_nonspace (block_line b) = 2%Z.
Proof.
  intros H. apply clean_line_inv in H as [_ [_ [_ [c [b' [-> Hc]]]]]].
  unfold search_nonspace, block_line. simpl. now rewrite Hc.
Qed.

Lemma trim_block_line (b : jstr) :
  clean_line b = true -> trim (block_line b) = b.
Proof.
  intros H. apply clean_line_inv in H as [Ht _].
  rewrite <- Ht at 2. reflexivity.
Qed.

(** A clean line deeper than the key is appended to the text. *)
Lemma step_block_line (st : pstate) (k text b : jstr) :
  clean_line b = true ->
  step (in_block st k text) (block_line b)
  = in_block st k (text ++ (if truthy text then [NL] else []) ++ b).
Proof.
  intros H. pose proof (clean_line_inv b H) as [_ [_ [Hh [c [b' [E _]]]]]].
  unfold step. rewrite (trim_block_line b H), Hh.
  assert (T : truthy b = true) by now rewrite E.
  rewrite T. cbn [negb orb]. unfold multiline_line.
  cbn [in_block inMultilineString indentLevel].
  now rewrite (search_nonspace_block_line b H).
Qed.

(** An empty line inside the block adds a newline. *)
Lemma step_block_blank (st : pstate) (k text : jstr) :
  step (in_block st k text) (block_line []) = in_block st k (text ++ [NL]).
Proof. reflexivity. Qed.

Lemma fold_block_lines (st : pstate) (k : jstr) (bs : list jstr)
  (text : jstr) :
  truthy text = true ->
  forallb (fun b => clean_line b || negb (truthy b)) bs = true ->
  fold_left step (List.map block_line bs) (in_block st k text)
  = in_block st k (text ++ concat (List.map (fun b => NL :: b) bs)).
Proof.
  revert text; induction bs as [|b bs IH]; intros text Ht H.
  - simpl. now rewrite app_nil_r.
  - simpl in H. apply andb_true_iff in H as [Hb H].
    cbn [List.map fold_left concat].
    assert (S : step (in_block st k text) (block_line b)
                = in_block st k (text ++ NL :: b)).
    { destruct (clean_line b) eqn:C.
      - rewrite (step_block_line st k text b C). now rewrite Ht.
      - simpl in Hb. apply negb_true_iff in Hb.
        destruct b; [|discriminate]. apply step_block_blank. }
    rewrite S, IH; [| now destruct text | assumption].
    now rewrite <- app_assoc.
Qed.

Lemma join_cons_concat (b : jstr) (bs : list jstr) :
  join NL (b :: bs) = b ++ concat (List.map (fun x => NL :: x) bs).
Proof.
  revert b; induction bs as [|b2 bs IH]; intros b.
  - simpl. now rewrite app_nil_r.
  - change (join NL (b :: b2 :: bs)) with (b ++ NL :: join NL (b2 :: bs)).
    rewrite IH. reflexivity.
Qed.

Lemma trim_snoc_space (s : jstr) : trim s = s -> trim (s ++ [SP]) = s.
Proof.
  intros H. destruct s as [|x s]; [reflexivity|].
  pose proof (trim_fixed_head x s H) as Hx.
  assert (TE : trimEnd (x :: s) = x :: s).
  { unfold trim in H. simpl trimStart in H. now rewrite Hx in H. }
  unfold trim. cbn [app trimStart]. rewrite Hx.
  change (x :: s ++ [SP]) with ((x :: s) ++ [SP]).
  unfold trimEnd in *. rewrite rev_app_distr. exact TE.
Qed.

(** The line [k: |] at the top level opens the block of [k]. *)
Lemma step_block_header (st : pstate) (k : jstr) :
  at_top st -> key_ok k = true ->
  step st (block_header k) = in_block st k [].
Proof.
  intros [HL [HI HM]] Hk.
  apply key_ok_inv in Hk as [Ht [Hc [_ [Hh [Hd _]]]]].
  assert (E : block_header k = k ++ [COLON; SP; PIPE]) by reflexivity.
  assert (S : exists c mid, block_header k = c :: mid ++ [PIPE]
                /\ is_ws c = false /\ (HASH =? c)%N = false).
  { rewrite E. destruct k as [|c k].
    - exists COLON, [SP]. repeat split.
    - exists c, (k ++ [COLON; SP]). repeat split.
      + simpl. now rewrite <- app_assoc.
      + now apply (trim_fixed_head c k).
      + cbn [startsWith] in Hh. now rewrite andb_true_r in Hh. }
  destruct S as [c [mid [Es [Hws Hhc]]]].
  assert (T : trim (block_header k) = block_header k).
  { rewrite Es. now apply trim_between. }
  assert (E1 : truthy (block_header k) = true) by now rewrite Es.
  assert (E2 : startsWith [HASH] (block_header k) = false).
  { rewrite Es. cbn [startsWith]. now rewrite Hhc. }
  assert (E3 : endsWith [PIPE] (block_header k) = true).
  { unfold endsWith. rewrite Es.
    change (c :: mid ++ [PIPE]) with ((c :: mid) ++ [PIPE]).
    now rewrite rev_app_distr. }
  assert (E4 : search_nonspace (block_header k) = 0%Z).
  { rewrite Es. unfold search_nonspace. simpl. now rewrite Hws. }
  assert (E5 : trim (removeFirst COLON (dropLast (block_header k))) = k).
  { rewrite E. unfold dropLast.
    change (k ++ [COLON; SP; PIPE]) with (k ++ [COLON; SP] ++ [PIPE]).
    rewrite app_assoc, removelast_last.
    assert (R : removeFirst COLON (k ++ [COLON; SP]) = k ++ [SP]).
    { clear - Hc. induction k as [|x k IH]; [reflexivity|].
      apply includes_false_cons in Hc as [Hx Hc]. simpl. rewrite Hx.
      now rewrite (IH Hc). }
    rewrite R. now apply trim_snoc_space. }
  unfold step. rewrite T, E1, E2. cbn [negb orb].
  unfold multiline_line. rewrite HM, E3. unfold open_block.
  rewrite E4, E5. unfold in_block. now rewrite HL, HI.
Qed.

(** A line at column 0 closes the block, then is read as usual. *)
Lemma step_closes_block (st : pstate) (k text line : jstr) :
  skippable line = false -> search_nonspace line = 0%Z ->
  step (in_block st k text) line = step (block_closed st k text) line.
Proof.
  intros Hs Hi. unfold step. fold (skippable line). rewrite Hs.
  unfold multiline_line. cbn [in_block block_closed inMultilineString
    indentLevel]. rewrite Hi. reflexivity.
Qed.

Lemma scalar_line_at_column_0 (k s : jstr) :
  key_ok k = true ->
  skippable (scalar_line k s) = false
  /\ search_nonspace (scalar_line k s) = 0%Z.
Proof.
  intros Hk.
  destruct (scalar_line_shape k s Hk) as [c [mid [E [Hws [Hh _]]]]].
  assert (T : trim (scalar_line k s) = scalar_line k s).
  { rewrite E. now apply trim_between. }
  unfold skippable. rewrite T, E. cbn [truthy negb orb startsWith].
  rewrite Hh. split; [reflexivity|].
  unfold search_nonspace. simpl. now rewrite Hws.
Qed.

(** *** The text of the serializer, line by line *)

Lemma split_lines_text (ls : list jstr) (rest : jstr) :
  Forall (fun l => includes NL l = false) ls ->
  split NL (concat (List.map (fun l => l ++ [NL]) ls) ++ rest)
  = ls ++ split NL rest.
Proof.
  induction 1 as [|l ls Hl _ IH]; [reflexivity|].
  cbn [List.map concat app]. rewrite <- !app_assoc. cbn [app].
  rewrite split_app by assumption. now rewrite IH.
Qed.

Lemma block_ok_inv (bs : list jstr) :
  block_ok bs = true ->
  exists b1 rest, bs = b1 :: rest /\ rest <> []
    /\ clean_line b1 = true /\ clean_line (last rest []) = true
    /\ forallb (fun b => clean_line b || negb (truthy b)) rest = true.
Proof.
  unfold block_ok. destruct bs as [|b1 [|b2 rest]]; try discriminate.
  intros H. apply andb_true_iff in H as [H Hr].
  apply andb_true_iff in H as [H1 Hn].
  exists b1, (b2 :: rest).
  repeat split; try assumption; try reflexivity. discriminate.
Qed.

Lemma block_lines_no_newline (bs : list jstr) :
  forallb (fun b => clean_line b || negb (truthy b)) bs = true ->
  Forall (fun l => includes NL l = false) bs.
Proof.
  intros H. apply Forall_forall. intros b Hb.
  apply (proj1 (forallb_forall _ _) H) in Hb.
  destruct (clean_line b) eqn:C.
  - now apply clean_line_inv in C as [_ [C _]].
  - simpl in Hb. apply negb_true_iff in Hb. now destruct b.
Qed.

Lemma block_text_trimmed (b1 : jstr) (rest : list jstr) :
  rest <> [] -> clean_line b1 = true -> clean_line (last rest []) = true ->
  trim (join NL (b1 :: rest)) = join NL (b1 :: rest).
Proof.
  intros Hne H1 Hn. rewrite join_cons_concat.
  apply clean_line_inv in H1 as [_ [_ [_ [c [b1' [-> Hc]]]]]].
  destruct (exists_last Hne) as [rest' [bn ->]]. rewrite last_last in Hn.
  apply clean_line_inv in Hn as [Htn [_ [_ [cn [bn' [En _]]]]]].
  assert (Hl : exists pre d, bn = pre ++ [d] /\ is_ws d = false).
  { destruct (exists_last (l := bn)) as [pre [d Ed]];
      [rewrite En; discriminate|].
    exists pre, d. split; [assumption|]. rewrite Ed in Htn.
    now apply (trim_fixed_last pre d). }
  destruct Hl as [pre [d [-> Hd]]].
  rewrite map_app, concat_app. cbn [List.map concat].
  rewrite app_nil_r.
  match goal with |- trim ?t = _ =>
    assert (X : t = c :: (b1' ++ concat (List.map (fun x => NL :: x) rest')
                          ++ NL :: pre) ++ [d])
      by (cbn [app]; f_equal; rewrite <- !app_assoc; reflexivity);
    rewrite X
  end.
  now apply trim_between.
Qed.

Lemma toYAML_block_then_scalar (k k2 v2 : jstr) (bs : list jstr) :
  block_ok bs = true -> single_line v2 = true ->
  toYAML [(k, VStr (join NL bs)); (k2, VStr v2)] 0
  = OK (concat (List.map (fun l => l ++ [NL])
                  (block_header k :: List.map block_line bs
                   ++ [scalar_line k2 v2]))).
Proof.
  intros Hb Hv. pose proof (block_ok_inv bs Hb) as [b1 [rest [E [Hne [H1 [_ Hr]]]]]].
  assert (Hnl : Forall (fun l => includes NL l = false) bs).
  { rewrite E. constructor; [|now apply block_lines_no_newline].
    now apply clean_line_inv in H1 as [_ [H1 _]]. }
  assert (I : includes NL (join NL bs) = true).
  { rewrite E. destruct rest as [|b2 rest]; [contradiction|].
    cbn [join]. rewrite includes_app. simpl. now rewrite orb_true_r. }
  assert (S : split NL (join NL bs) = bs).
  { apply split_join; [rewrite E; discriminate | assumption]. }
  unfold single_line in Hv. apply negb_true_iff in Hv.
  cbn [toYAML emit_entry repeat_str]. rewrite I, Hv. cbn [bind app].
  unfold emit_block. rewrite S. f_equal.
  cbn [List.map concat]. unfold block_header. rewrite <- !app_assoc.
  f_equal. f_equal. rewrite map_app, concat_app, map_map.
  cbn [List.map concat]. rewrite !app_nil_r.
  unfold block_line, scalar_line. rewrite <- !app_assoc. reflexivity.
Qed.

End BlockScalars.

(* ================================================================== *)
(** * A list that holds one record *)
(* ================================================================== *)

Section OneRecord.

Lemma join_split1 (c : char) (s : jstr) :
  join c (fst (split1 c s) :: snd (split1 c s)) = s.
Proof.
  induction s as [|x s IH]; [reflexivity|].
  cbn [split1]. destruct (split1 c s) as [h t]. cbn [fst snd] in *.
  destruct (x =? c)%N eqn:E; cbn [fst snd].
  - apply N.eqb_eq in E. subst x.
    change (join c ([] :: h :: t)) with ([] ++ c :: join c (h :: t)).
    now rewrite IH.
  - destruct t as [|t1 t].
    + simpl in *. now rewrite IH.
    + change (join c ((x :: h) :: t1 :: t))
        with (x :: (h ++ c :: join c (t1 :: t))).
      change (join c (h :: t1 :: t)) with (h ++ c :: join c (t1 :: t)) in IH.
      now rewrite IH.
Qed.

Lemma join_split (c : char) (s : jstr) : join c (split c s) = s.
Proof.
  unfold split. pose proof (join_split1 c s) as H.
  now destruct (split1 c s).
Qed.

Lemma field_ok_inv (f v : jstr) :
  field_ok (f, v) = true -> key_ok f = true /\ includes NL v = false.
Proof.
  unfold field_ok, single_line. cbn [fst snd]. intros H.
  apply andb_true_iff in H as [H1 H2]. now apply negb_true_iff in H2.
Qed.

(** The field of a line [f: "v"]: split at the first colon, the value
    trimmed and without its quotes. *)
Lemma field_of_scalar_line (f v : jstr) :
  key_ok f = true ->
  includes COLON (scalar_line f v) = true
  /\ (let (key, valueParts) := split1 COLON (scalar_line f v) in
      trim key = f /\ stripQuotes (trim (join COLON valueParts)) = v).
Proof.
  intros Hk. apply key_ok_inv in Hk as [Ht [Hc _]].
  rewrite scalar_line_eq. split.
  - rewrite includes_app. simpl. apply orb_true_r.
  - rewrite (split1_app COLON f _ Hc), join_split. split; [assumption|].
    unfold trim. simpl trimStart.
    change (DQ :: v ++ [DQ]) with ((DQ :: v) ++ [DQ]).
    rewrite trimEnd_snoc by reflexivity. now apply stripQuotes_pair.
Qed.

Lemma field_line_no_newline (pre f v : jstr) :
  includes NL pre = false -> field_ok (f, v) = true ->
  includes NL (pre ++ scalar_line f v) = false.
Proof.
  intros Hp H. apply field_ok_inv in H as [Hk Hv].
  apply key_ok_inv in Hk as [_ [_ [Hn _]]].
  rewrite scalar_line_eq, !includes_app, Hp, Hn. simpl.
  change (existsb (N.eqb NL) (v ++ [DQ])) with (includes NL (v ++ [DQ])).
  now rewrite includes_app, Hv.
Qed.

(** The first line of the record opens it with its field. *)
Lemma step_first_field_line (k f v : jstr) :
  field_ok (f, v) = true ->
  step (in_list k None) (first_field_line f v)
  = in_record k (obj_set [] f (VStr v)).
Proof.
  intros H. apply field_ok_inv in H as [Hk _].
  destruct (field_of_scalar_line f v Hk) as [Hc Hs].
  destruct (scalar_line_shape f v Hk) as [c [mid [E _]]].
  assert (T : trim (first_field_line f v) = DASH :: SP :: scalar_line f v).
  { unfold first_field_line, trim.
    change (trimStart (lit "  - " ++ scalar_line f v))
      with (DASH :: SP :: scalar_line f v).
    rewrite E. change (DASH :: SP :: c :: mid ++ [DQ])
      with ((DASH :: SP :: c :: mid) ++ [DQ]).
    now apply trimEnd_snoc. }
  assert (E3 : endsWith [PIPE] (DASH :: SP :: scalar_line f v) = false).
  { unfold endsWith. rewrite E.
    change (DASH :: SP :: c :: mid ++ [DQ])
      with ((DASH :: SP :: c :: mid) ++ [DQ]).
    now rewrite rev_app_distr. }
  unfold step. rewrite T. cbn [truthy negb orb].
  change (startsWith [HASH] (DASH :: SP :: scalar_line f v)) with false.
  cbn [orb]. unfold multiline_line. cbn [in_list inMultilineString].
  rewrite E3.
  change (startsWith [DASH; SP] (DASH :: SP :: scalar_line f v)) with true.
  unfold list_item. cbn [skipn currentList currentListItem]. rewrite Hc.
  destruct (split1 COLON (scalar_line f v)) as [key valueParts].
  destruct Hs as [-> ->]. reflexivity.
Qed.

(** A line four columns deep adds its field to the open record. *)
Lemma step_field_line (k f v : jstr) (item : object) :
  field_ok (f, v) = true ->
  step (in_record k item) (field_line f v)
  = in_record k (obj_set item f (VStr v)).
Proof.
  intros H. apply field_ok_inv in H as [Hk _].
  destruct (field_of_scalar_line f v Hk) as [Hc Hs].
  destruct (scalar_line_shape f v Hk) as [c [mid [E [Hws [Hh Hd]]]]].
  assert (T : trim (field_line f v) = scalar_line f v).
  { unfold field_line, trim.
    change (trimStart (lit "    " ++ scalar_line f v))
      with (trimStart (scalar_line f v)).
    rewrite E. cbn [trimStart]. rewrite Hws.
    change (c :: mid ++ [DQ]) with ((c :: mid) ++ [DQ]).
    now apply trimEnd_snoc. }
  assert (E1 : truthy (scalar_line f v) = true) by now rewrite E.
  assert (E2 : startsWith [HASH] (scalar_line f v) = false).
  { rewrite E. cbn [startsWith]. now rewrite Hh. }
  assert (E3 : endsWith [PIPE] (scalar_line f v) = false).
  { unfold endsWith. rewrite E.
    change (c :: mid ++ [DQ]) with ((c :: mid) ++ [DQ]).
    now rewrite rev_app_distr. }
  assert (E4 : startsWith [DASH; SP] (scalar_line f v) = false).
  { rewrite E. cbn [startsWith]. now rewrite Hd. }
  assert (E5 : search_nonspace (field_line f v) = 4%Z).
  { unfold field_line, search_nonspace. rewrite E. simpl. now rewrite Hws. }
  unfold step. rewrite T, E1, E2. cbn [negb orb].
  unfold multiline_line. cbn [in_record inMultilineString currentListItem].
  rewrite E3, E4, E5. cbn [Z.leb Z.compare Pos.compare Pos.compare_cont].
  unfold record_field. rewrite Hc.
  destruct (split1 COLON (scalar_line f v)) as [key valueParts].
  destruct Hs as [-> ->]. reflexivity.
Qed.

Lemma fold_field_lines (k : jstr) (fields : list (jstr * jstr))
  (item : object) :
  forallb field_ok fields = true ->
  fold_left step
    (List.map (fun fv => field_line (fst fv) (snd fv)) fields)
    (in_record k item)
  = in_record k (write_all item (flat_mapping fields)).
Proof.
  revert item; induction fields as [|[f v] fields IH]; intros item H;
    [reflexivity|].
  simpl in H. apply andb_true_iff in H as [Hf H].
  cbn [List.map fold_left fst snd]. rewrite (step_field_line k f v item Hf).
  now rewrite (IH _ H).
Qed.

Lemma fields_not_proto (fields : list (jstr * jstr)) :
  forallb field_ok fields = true ->
  forallb (fun kv => negb (eqb (fst kv) (lit "__proto__")))
          (flat_mapping fields) = true.
Proof.
  induction fields as [|[f v] fields IH]; intros H; [reflexivity|].
  simpl in H. apply andb_true_iff in H as [Hf H].
  apply field_ok_inv in Hf as [Hk _].
  apply key_ok_inv in Hk as [_ [_ [_ [_ [_ Hp]]]]].
  cbn [flat_mapping List.map forallb fst snd]. fold (flat_mapping fields).
  now rewrite Hp, (IH H).
Qed.

Lemma toYAML_one_record (k f v : jstr) (more : list (jstr * jstr)) :
  toYAML [(k, VList [VObj (flat_mapping ((f, v) :: more))])] 0
  = OK (concat (List.map (fun l => l ++ [NL])
          (list_header k :: first_field_line f v
           :: List.map (fun fv => field_line (fst fv) (snd fv)) more))).
Proof.
  assert (M : emit_more (lit "    ") (flat_mapping more)
              = OK (concat (List.map (fun l => l ++ [NL])
                      (List.map (fun fv => field_line (fst fv) (snd fv))
                                more)))).
  { induction more as [|[f2 v2] more IH]; [reflexivity|].
    cbn [flat_mapping List.map emit_more fst snd].
    fold (flat_mapping more). rewrite IH.
    unfold emit_field. cbn [fst snd toStr bind concat]. f_equal.
    unfold field_line, scalar_line.
    repeat rewrite <- app_assoc. cbn [app]. repeat rewrite <- app_assoc.
    reflexivity. }
  cbn [toYAML emit_entry emit_items emit_item emit_record flat_mapping
       List.map fst snd repeat_str app].
  fold (flat_mapping more). rewrite M.
  unfold emit_field. cbn [fst snd toStr bind concat List.map app].
  f_equal. rewrite ?app_nil_r. unfold list_header, first_field_line,
    scalar_line.
  repeat rewrite <- app_assoc. cbn [app]. repeat rewrite <- app_assoc.
  reflexivity.
Qed.

End OneRecord.

(* ================================================================== *)
(** * Texts of several entries *)
(* ================================================================== *)

Section Documents.

(** ** Lines read while a list is open *)

Lemma with_list_same (st : pstate) :
  with_list (currentList st) (currentListItem st) st = st.
Proof. now destruct st. Qed.

(** A line [- "s"] adds the record [{text: s}] to the list, whatever the
    result holds. *)
Lemma step_list_line_at (st : pstate) (s : jstr) :
  inMultilineString st = false -> currentListItem st = None ->
  item_ok s = true ->
  step st (list_line s)
  = with_list (Some (match currentList st with Some l => l | None => [] end
                     ++ [text_record s])) None st.
Proof.
  intros HM HI Hs. apply item_ok_inv in Hs as [Hc _].
  assert (T : trim (list_line s) = DASH :: SP :: DQ :: s ++ [DQ]).
  { rewrite list_line_eq. unfold trim. cbn [trimStart is_ws].
    change (trimStart (SP :: SP :: DASH :: SP :: DQ :: s ++ [DQ]))
      with (DASH :: SP :: DQ :: s ++ [DQ]).
    change (DASH :: SP :: DQ :: s ++ [DQ])
      with ((DASH :: SP :: DQ :: s) ++ [DQ]).
    now apply trimEnd_snoc. }
  unfold step. rewrite T.
  assert (E3 : endsWith [PIPE] (DASH :: SP :: DQ :: s ++ [DQ]) = false).
  { unfold endsWith.
    change (DASH :: SP :: DQ :: s ++ [DQ])
      with ((DASH :: SP :: DQ :: s) ++ [DQ]).
    now rewrite rev_app_distr. }
  cbn [truthy negb orb].
  change (startsWith [HASH] (DASH :: SP :: DQ :: s ++ [DQ])) with false.
  cbn [orb]. unfold multiline_line. rewrite HM, E3.
  change (startsWith [DASH; SP] (DASH :: SP :: DQ :: s ++ [DQ])) with true.
  unfold list_item. cbn [skipn].
  assert (C : includes COLON (DQ :: s ++ [DQ]) = false).
  { change (DQ :: s ++ [DQ]) with ([DQ] ++ s ++ [DQ]).
    now rewrite !includes_app, Hc. }
  rewrite C, HI. rewrite (stripQuotes_pair DQ DQ s eq_refl eq_refl).
  reflexivity.
Qed.

Lemma fold_list_lines_at (ss : list jstr) (st : pstate) (l : list value) :
  inMultilineString st = false -> currentListItem st = None ->
  currentList st = Some l -> forallb item_ok ss = true ->
  fold_left step (List.map list_line ss) st
  = with_list (Some (l ++ List.map text_record ss)) None st.
Proof.
  revert st l; induction ss as [|s ss IH]; intros st l HM HI HL H.
  - simpl. rewrite app_nil_r, <- HL, <- HI. symmetry. apply with_list_same.
  - simpl in H. apply andb_true_iff in H as [Hs H].
    cbn [List.map fold_left]. rewrite (step_list_line_at st s HM HI Hs), HL.
    rewrite (IH _ (l ++ [text_record s])); try assumption; try reflexivity.
    now rewrite <- app_assoc.
Qed.

(** The first line of a record opens it with its field. *)
Lemma step_first_field_line_at (st : pstate) (f v : jstr) :
  inMultilineString st = false -> currentListItem st = None ->
  field_ok (f, v) = true ->
  step st (first_field_line f v)
  = with_list (Some (match currentList st with Some l => l | None => [] end))
              (Some (obj_set [] f (VStr v))) st.
Proof.
  intros HM HI H. apply field_ok_inv in H as [Hk _].
  destruct (field_of_scalar_line f v Hk) as [Hc Hs].
  destruct (scalar_line_shape f v Hk) as [c [mid [E _]]].
  assert (T : trim (first_field_line f v) = DASH :: SP :: scalar_line f v).
  { unfold first_field_line, trim.
    change (trimStart (lit "  - " ++ scalar_line f v))
      with (DASH :: SP :: scalar_line f v).
    rewrite E. change (DASH :: SP :: c :: mid ++ [DQ])
      with ((DASH :: SP :: c :: mid) ++ [DQ]).
    now apply trimEnd_snoc. }
  assert (E3 : endsWith [PIPE] (DASH :: SP :: scalar_line f v) = false).
  { unfold endsWith. rewrite E.
    change (DASH :: SP :: c :: mid ++ [DQ])
      with ((DASH :: SP :: c :: mid) ++ [DQ]).
    now rewrite rev_app_distr. }
  unfold step. rewrite T. cbn [truthy negb orb].
  change (startsWith [HASH] (DASH :: SP :: scalar_line f v)) with false.
  cbn [orb]. unfold multiline_line. rewrite HM, E3.
  change (startsWith [DASH; SP] (DASH :: SP :: scalar_line f v)) with true.
  unfold list_item. cbn [skipn]. rewrite Hc, HI.
  destruct (split1 COLON (scalar_line f v)) as [key valueParts].
  destruct Hs as [-> ->]. reflexivity.
Qed.

(** A line four columns deep adds its field to the open record. *)
Lemma step_field_line_at (st : pstate) (f v : jstr) (item : object) :
  inMultilineString st = false -> currentListItem st = Some item ->
  field_ok (f, v) = true ->
  step st (field_line f v)
  = with_list (currentList st) (Some (obj_set item f (VStr v))) st.
Proof.
  intros HM HI H. apply field_ok_inv in H as [Hk _].
  destruct (field_of_scalar_line f v Hk) as [Hc Hs].
  destruct (scalar_line_shape f v Hk) as [c [mid [E [Hws [Hh Hd]]]]].
  assert (T : trim (field_line f v) = scalar_line f v).
  { unfold field_line, trim.
    change (trimStart (lit "    " ++ scalar_line f v))
      with (trimStart (scalar_line f v)).
    rewrite E. cbn [trimStart]. rewrite Hws.
    change (c :: mid ++ [DQ]) with ((c :: mid) ++ [DQ]).
    now apply trimEnd_snoc. }
  assert (E1 : truthy (scalar_line f v) = true) by now rewrite E.
  assert (E2 : startsWith [HASH] (scalar_line f v) = false).
  { rewrite E. cbn [startsWith]. now rewrite Hh. }
  assert (E3 : endsWith [PIPE] (scalar_line f v) = false).
  { unfold endsWith. rewrite E.
    change (c :: mid ++ [DQ]) with ((c :: mid) ++ [DQ]).
    now rewrite rev_app_distr. }
  assert (E4 : startsWith [DASH; SP] (scalar_line f v) = false).
  { rewrite E. cbn [startsWith]. now rewrite Hd. }
  assert (E5 : search_nonspace (field_line f v) = 4%Z).
  { unfold field_line, search_nonspace. rewrite E. simpl. now rewrite Hws. }
  unfold step. rewrite T, E1, E2. cbn [negb orb].
  unfold multiline_line. rewrite HM, E3, E4, E5, HI.
  cbn [Z.leb Z.compare Pos.compare Pos.compare_cont].
  unfold record_field. rewrite Hc.
  destruct (split1 COLON (scalar_line f v)) as [key valueParts].
  destruct Hs as [-> ->]. reflexivity.
Qed.

Lemma fold_field_lines_at (fields : list (jstr * jstr)) (st : pstate)
  (item : object) :
  inMultilineString st = false -> currentListItem st = Some item ->
  forallb field_ok fields = true ->
  fold_left step
    (List.map (fun fv => field_line (fst fv) (snd fv)) fields) st
  = with_list (currentList st)
              (Some (write_all item (flat_mapping fields))) st.
Proof.
  revert st item; induction fields as [|[f v] fields IH];
    intros st item HM HI H.
  - simpl. rewrite <- HI. symmetry. apply with_list_same.
  - simpl in H. apply andb_true_iff in H as [Hf H].
    cbn [List.map fold_left fst snd].
    rewrite (step_field_line_at st f v item HM HI Hf).
    rewrite (IH _ (obj_set item f (VStr v))); try assumption; reflexivity.
Qed.

(** ** The first line of an entry closes what is open *)

Lemma key_line_inv (line : jstr) :
  key_line line = true ->
  skippable line = false /\ search_nonspace line = 0%Z
  /\ includes COLON (trim line) = true
  /\ startsWith [DASH; SP] (trim line) = false.
Proof.
  unfold key_line. intros H.
  apply andb_true_iff in H as [H Hd]. apply andb_true_iff in H as [H Hc].
  apply andb_true_iff in H as [Hs Hi].
  apply negb_true_iff in Hs, Hd. apply Z.eqb_eq in Hi. tauto.
Qed.

Lemma scalar_line_key_line (k s : jstr) :
  key_ok k = true ->
  key_line (scalar_line k s) = true /\ opens_block (scalar_line k s) = false.
Proof.
  intros Hk. destruct (scalar_line_at_column_0 k s Hk) as [Hs Hi].
  destruct (scalar_line_shape k s Hk) as [c [mid [E [Hws [Hh Hd]]]]].
  assert (T : trim (scalar_line k s) = scalar_line k s).
  { rewrite E. now apply trim_between. }
  unfold key_line, opens_block. rewrite Hs, Hi, T. cbn [negb Z.eqb andb].
  split.
  - rewrite scalar_line_eq, includes_app. cbn [includes existsb].
    rewrite N.eqb_refl, orb_true_r. cbn [andb].
    rewrite <- scalar_line_eq, E. cbn [startsWith]. now rewrite Hd.
  - unfold endsWith. rewrite E.
    change (c :: mid ++ [DQ]) with ((c :: mid) ++ [DQ]).
    now rewrite rev_app_distr.
Qed.

Lemma list_header_key_line (k : jstr) :
  key_ok k = true -> k <> [] ->
  key_line (list_header k) = true /\ opens_block (list_header k) = false.
Proof.
  intros Hk Hne.
  apply key_ok_inv in Hk as [Ht [Hc [_ [Hh [Hd _]]]]].
  destruct k as [|c k]; [contradiction|].
  pose proof (trim_fixed_head c k Ht) as Hws.
  cbn [startsWith] in Hh, Hd. rewrite andb_true_r in Hh, Hd.
  assert (T : trim (list_header (c :: k)) = list_header (c :: k)).
  { unfold list_header. cbn [app]. now apply trim_between. }
  unfold key_line, opens_block, skippable. rewrite T. split.
  - assert (E2 : startsWith [HASH] (list_header (c :: k)) = false).
    { unfold list_header. cbn [app startsWith]. now rewrite Hh. }
    assert (E4 : startsWith [DASH; SP] (list_header (c :: k)) = false).
    { unfold list_header. cbn [app startsWith]. now rewrite Hd. }
    assert (E6 : includes COLON (list_header (c :: k)) = true).
    { unfold list_header. rewrite includes_app. simpl. apply orb_true_r. }
    assert (E7 : search_nonspace (list_header (c :: k)) = 0%Z).
    { unfold list_header, search_nonspace. simpl. now rewrite Hws. }
    rewrite E2, E4, E6, E7. reflexivity.
  - unfold endsWith, list_header. now rewrite rev_app_distr.
Qed.

Lemma block_header_key_line (k : jstr) :
  key_ok k = true ->
  key_line (block_header k) = true /\ opens_block (block_header k) = true.
Proof.
  intros Hk.
  apply key_ok_inv in Hk as [Ht [Hc [_ [Hh [Hd _]]]]].
  assert (E : block_header k = k ++ [COLON; SP; PIPE]) by reflexivity.
  assert (S : exists c mid, block_header k = c :: mid ++ [PIPE]
                /\ is_ws c = false /\ (HASH =? c)%N = false
                /\ (DASH =? c)%N = false).
  { rewrite E. destruct k as [|c k].
    - exists COLON, [SP]. repeat split.
    - exists c, (k ++ [COLON; SP]). repeat split.
      + simpl. now rewrite <- app_assoc.
      + now apply (trim_fixed_head c k).
      + cbn [startsWith] in Hh. now rewrite andb_true_r in Hh.
      + cbn [startsWith] in Hd. now rewrite andb_true_r in Hd. }
  destruct S as [c [mid [Es [Hws [Hhc Hdc]]]]].
  assert (T : trim (block_header k) = block_header k).
  { rewrite Es. now apply trim_between. }
  unfold key_line, opens_block, skippable. rewrite T. split.
  - assert (E1 : truthy (block_header k) = true) by now rewrite Es.
    assert (E2 : startsWith [HASH] (block_header k) = false).
    { rewrite Es. cbn [startsWith]. now rewrite Hhc. }
    assert (E4 : startsWith [DASH; SP] (block_header k) = false).
    { rewrite Es. cbn [startsWith]. now rewrite Hdc. }
    assert (E6 : includes COLON (block_header k) = true).
    { rewrite E, includes_app. simpl. apply orb_true_r. }
    assert (E7 : search_nonspace (block_header k) = 0%Z).
    { rewrite Es. unfold search_nonspace. simpl. now rewrite Hws. }
    rewrite E1, E2, E4, E6, E7. reflexivity.
  - unfold endsWith. rewrite Es.
    change (c :: mid ++ [PIPE]) with ((c :: mid) ++ [PIPE]).
    now rewrite rev_app_distr.
Qed.

(** A key at column 0 that opens no block closes the list, then is read as
    at the top level. *)
Lemma step_closes_list (st : pstate) (l : list value) (line : jstr) :
  inMultilineString st = false -> currentList st = Some l ->
  key_line line = true -> opens_block line = false ->
  step st line = step (close_list st 0 (trim line)) line.
Proof.
  intros HM HL Hk Ho. apply key_line_inv in Hk as [Hs [Hi [Hc Hd]]].
  unfold opens_block in Ho.
  set (cl := close_list st 0 (trim line)).
  assert (CL : currentList cl = None).
  { unfold cl, close_list. rewrite HL, Hc. cbn [Z.eqb andb].
    destruct (currentListItem st) as [item|];
      [destruct (has_fields item)|]; reflexivity. }
  assert (CM : inMultilineString cl = false).
  { unfold cl, close_list. rewrite HL, Hc. cbn [Z.eqb andb].
    destruct (currentListItem st) as [item|];
      [destruct (has_fields item)|]; exact HM. }
  assert (C2 : close_list cl 0 (trim line) = cl).
  { unfold close_list at 1. now rewrite CL. }
  unfold step. fold (skippable line). rewrite Hs.
  unfold multiline_line. rewrite HM, CM, Ho, Hd, Hi, C2.
  fold cl. change (4 <=? 0)%Z with false.
  destruct (currentListItem st), (currentListItem cl); reflexivity.
Qed.

Lemma has_fields_obj_set (o : object) (k : jstr) (v : value) :
  has_fields o = true -> has_fields (obj_set o k v) = true.
Proof.
  intros H. unfold obj_set, obj_define.
  destruct (eqb k (lit "__proto__")); [assumption|].
  destruct o as [|[k0 v0] o]; [discriminate|].
  destruct (obj_has ((k0, v0) :: o) k).
  - simpl. now destruct (eqb k0 k).
  - destruct (array_index k) as [n|]; [|reflexivity].
    simpl. destruct (array_index k0) as [m|]; [|reflexivity].
    now destruct (m <? n)%N.
Qed.

Lemma has_fields_write_all (es acc : object) :
  has_fields acc = true -> has_fields (write_all acc es) = true.
Proof.
  unfold write_all. revert acc; induction es as [|[k v] es IH]; intros acc H;
    [assumption|].
  cbn [fold_left fst snd]. apply IH. now apply has_fields_obj_set.
Qed.

Lemma record_has_fields (fields : list (jstr * jstr)) :
  nonempty fields = true -> forallb field_ok fields = true ->
  has_fields (write_all [] (flat_mapping fields)) = true.
Proof.
  destruct fields as [|[f v] fields]; [discriminate|]. intros _ H.
  simpl in H. apply andb_true_iff in H as [Hf _].
  apply field_ok_inv in Hf as [Hk _].
  apply key_ok_inv in Hk as [_ [_ [_ [_ [_ Hp]]]]].
  unfold write_all. cbn [flat_mapping List.map fold_left fst snd].
  apply has_fields_write_all. now rewrite (commit_first_key f _ Hp).
Qed.

(** ** One entry *)

Lemma entry_ok_inv (e : entry) :
  entry_ok e = true ->
  match e with
  | EScalar k s => key_ok k = true /\ scalar_ok s = true
  | EStrings k ss =>
      key_ok k = true /\ k <> [] /\ ss <> []
      /\ forallb item_ok ss = true
  | ERecord k fields =>
      key_ok k = true /\ k <> [] /\ nonempty fields = true
      /\ forallb field_ok fields = true
  | EBlock k bs => key_ok k = true /\ block_ok bs = true
  end.
Proof.
  destruct e as [k s|k ss|k fields|k bs]; cbn [entry_ok]; intros H.
  - now apply andb_true_iff in H.
  - apply andb_true_iff in H as [H H4]. apply andb_true_iff in H as [H H3].
    apply andb_true_iff in H as [H1 H2].
    repeat split; try assumption; intros ->; discriminate.
  - apply andb_true_iff in H as [H H4]. apply andb_true_iff in H as [H H3].
    apply andb_true_iff in H as [H1 H2].
    repeat split; try assumption. intros ->; discriminate.
  - now apply andb_true_iff in H.
Qed.

Lemma entry_ok_key (e : entry) :
  entry_ok e = true -> key_ok (entry_key e) = true.
Proof.
  intros H. apply entry_ok_inv in H. destruct e; cbn [entry_key]; tauto.
Qed.

(** The first line of an entry is a key at column 0; it opens a block
    exactly when the entry is a multiline string. *)
Lemma entry_first_line (e : entry) :
  entry_ok e = true ->
  exists line more, entry_lines e = line :: more
    /\ key_line line = true /\ opens_block line = is_block_entry e.
Proof.
  intros H. pose proof (entry_ok_key e H) as Hk.
  destruct e as [k s|k ss|k fields|k bs]; cbn [entry_key] in Hk.
  - exists (scalar_line k s), []. split; [reflexivity|].
    now apply scalar_line_key_line.
  - apply entry_ok_inv in H as [_ [Hne _]].
    exists (list_header k), (List.map list_line ss). split; [reflexivity|].
    now apply list_header_key_line.
  - apply entry_ok_inv in H as [_ [Hne _]].
    assert (L : key_line (list_header k) = true
                /\ opens_block (list_header k) = false).
    { now apply list_header_key_line. }
    destruct fields as [|[f v] more].
    + now exists (list_header k), [].
    + now exists (list_header k),
        (first_field_line f v
         :: List.map (fun fv => field_line (fst fv) (snd fv)) more).
  - exists (block_header k), (List.map block_line bs).
    split; [reflexivity|]. now apply block_header_key_line.
Qed.

(** The lines of an entry, read at the top level. *)
Lemma entry_from_top (st : pstate) (e : entry) :
  at_top st -> entry_ok e = true ->
  after (result st) e (fold_left step (entry_lines e) st).
Proof.
  intros Ht H. pose proof Ht as [HL [HI HM]].
  apply entry_ok_inv in H.
  destruct e as [k s|k ss|k fields|k bs].
  - destruct H as [Hk Hs].
    cbn [entry_lines fold_left]. rewrite (step_scalar_line st k s Ht Hk Hs).
    split; [exact Ht | reflexivity].
  - destruct H as [Hk [Hne [Hss0 Hall]]].
    destruct ss as [|s ss]; [contradiction|].
    simpl in Hall. apply andb_true_iff in Hall as [Hs Hss].
    cbn [entry_lines List.map fold_left].
    rewrite (step_list_header st k Ht Hk Hne).
    rewrite (step_list_line_at _ s); [| exact HM | exact HI | assumption].
    rewrite (fold_list_lines_at ss _ [text_record s]);
      [| exact HM | reflexivity | | assumption].
    + cbn [after with_list with_currentKey result currentKey currentList
           currentListItem inMultilineString List.map app].
      repeat split. exact HM.
    + cbn [with_list with_currentKey currentList]. now rewrite HL.
  - destruct H as [Hk [Hne [Hf0 Hall]]].
    destruct fields as [|[f v] more]; [discriminate|].
    simpl in Hall. apply andb_true_iff in Hall as [Hf Hmore].
    cbn [entry_lines fold_left].
    rewrite (step_list_header st k Ht Hk Hne).
    rewrite (step_first_field_line_at _ f v);
      [| exact HM | exact HI | assumption].
    rewrite (fold_field_lines_at more _ (obj_set [] f (VStr v)));
      [| exact HM | reflexivity | assumption].
    cbn [after with_list with_currentKey result currentKey currentList
         currentListItem inMultilineString].
    rewrite HL. repeat split. exact HM.
  - destruct H as [Hk Hb].
    apply block_ok_inv in Hb as [b1 [rest [-> [Hne [H1 [_ Hr]]]]]].
    cbn [entry_lines List.map fold_left].
    rewrite (step_block_header st k Ht Hk).
    rewrite (step_block_line st k [] b1 H1). cbn [truthy app].
    rewrite fold_block_lines; [| | assumption].
    + exists st. split; [reflexivity|]. now rewrite join_cons_concat.
    + now apply clean_line_inv in H1 as [_ [_ [_ [c [b' [-> _]]]]]].
Qed.

Lemma after_outside_block (r : object) (e : entry) (st : pstate) :
  after r e st -> is_block_entry e = false -> inMultilineString st = false.
Proof.
  destruct e; simpl; intros H B; try discriminate.
  - now destruct H as [[_ [_ H]] _].
  - now destruct H as [_ [_ [_ [_ H]]]].
  - now destruct H as [_ [_ [_ [_ H]]]].
Qed.

(** What is still open once the lines of an entry are read is stored when
    the first line of the next entry is read, and that line is then read
    at the top level. *)
Lemma close_pending (r : object) (e : entry) (st : pstate) (line : jstr) :
  after r e st -> entry_ok e = true -> key_line line = true ->
  is_list_entry e && opens_block line = false ->
  exists st', step st line = step st' line
    /\ at_top st' /\ result st' = settled r e.
Proof.
  intros HA H Hk Hseq. pose proof (key_line_inv line Hk) as [Hs [Hi [Hc _]]].
  apply entry_ok_inv in H.
  destruct e as [k s|k ss|k fields|k bs]; cbn [after is_list_entry] in HA, Hseq.
  - exists st. now destruct HA.
  - destruct H as [_ [Hne _]].
    destruct HA as [HR [HK [HL [HI HM]]]].
    exists (close_list st 0 (trim line)).
    split; [now apply (step_closes_list st _ line HM HL)|].
    unfold close_list. rewrite HL, Hc, HI, HK, HR. cbn [Z.eqb andb].
    destruct k as [|c k]; [contradiction|].
    split; [repeat split; exact HM | reflexivity].
  - destruct H as [_ [Hne [Hf0 Hall]]].
    destruct HA as [HR [HK [HL [HI HM]]]].
    exists (close_list st 0 (trim line)).
    split; [now apply (step_closes_list st _ line HM HL)|].
    unfold close_list. rewrite HL, Hc, HI, HK, HR. cbn [Z.eqb andb].
    rewrite record_has_fields by assumption.
    destruct k as [|c k]; [contradiction|].
    split; [repeat split; exact HM | reflexivity].
  - destruct H as [_ Hb].
    apply block_ok_inv in Hb as [b1 [rest [-> [Hne [H1 [Hn _]]]]]].
    destruct HA as [st0 [HR ->]].
    exists (block_closed st0 k (join NL (b1 :: rest))).
    split; [now apply step_closes_block|].
    split; [now repeat split|].
    unfold block_closed, settled. cbn [result entry_key entry_parsed].
    now rewrite block_text_trimmed, HR.
Qed.

(** When nothing follows, the end of the input stores what is open. *)
Lemma finish_after (r : object) (e : entry) (st : pstate) :
  after r e st -> entry_ok e = true -> is_block_entry e = false ->
  finish st = settled r e.
Proof.
  intros HA H B. apply entry_ok_inv in H.
  destruct e as [k s|k ss|k fields|k bs]; cbn [after] in HA;
    try discriminate.
  - destruct HA as [[HL _] HR]. unfold finish. now rewrite HL.
  - destruct H as [_ [Hne _]].
    destruct HA as [HR [HK [HL [HI HM]]]].
    unfold finish. rewrite HL, HI, HK, HR.
    now destruct k as [|c k]; [contradiction|].
  - destruct H as [_ [Hne [Hf0 Hall]]].
    destruct HA as [HR [HK [HL [HI HM]]]].
    unfold finish. rewrite HL, HI, HK, HR.
    rewrite record_has_fields by assumption.
    now destruct k as [|c k]; [contradiction|].
Qed.

(** ** Several entries *)

Lemma doc_ok_inv (e : entry) (doc : list entry) :
  doc_ok (e :: doc) = true ->
  entry_ok e = true /\ doc_ok doc = true
  /\ match doc with
     | [] => True
     | e2 :: _ => is_list_entry e && is_block_entry e2 = false
     end.
Proof.
  cbn [doc_ok]. intros H. apply andb_true_iff in H as [H Hd].
  apply andb_true_iff in H as [He Hs].
  repeat split; try assumption.
  destruct doc; [exact I | now apply negb_true_iff in Hs].
Qed.

Lemma last_cons (e e2 : entry) (doc : list entry) :
  last (e2 :: doc) e = last doc e2.
Proof.
  revert e e2; induction doc as [|e3 doc IH]; intros e e2; [reflexivity|].
  change (last (e2 :: e3 :: doc) e) with (last (e3 :: doc) e).
  change (last (e3 :: doc) e2) with (last (e3 :: doc) e2).
  now rewrite !IH.
Qed.

Lemma doc_ok_last (doc : list entry) (e : entry) :
  doc_ok (e :: doc) = true -> entry_ok (last doc e) = true.
Proof.
  revert e; induction doc as [|e2 doc IH]; intros e H.
  - now apply doc_ok_inv in H as [He _].
  - apply doc_ok_inv in H as [_ [H _]]. rewrite last_cons. now apply IH.
Qed.

Lemma fold_entries (doc : list entry) (e : entry) (r : object)
  (st : pstate) :
  after r e st -> doc_ok (e :: doc) = true ->
  exists r', after r' (last doc e) (fold_left step (doc_lines doc) st)
    /\ settled r' (last doc e) = write_all (settled r e) (doc_parsed doc)
    /\ r' = write_all r (doc_parsed (removelast (e :: doc))).
Proof.
  revert e r st; induction doc as [|e2 doc IH]; intros e r st HA H.
  - exists r. split; [exact HA | split; reflexivity].
  - apply doc_ok_inv in H as [He [Hd Hseq]].
    pose proof Hd as Hd'. apply doc_ok_inv in Hd' as [He2 _].
    destruct (entry_first_line e2 He2) as [line [more [EL [Hk Ho]]]].
    rewrite <- Ho in Hseq.
    destruct (close_pending r e st line HA He Hk Hseq) as [st' [ES [Ht HR]]].
    unfold doc_lines. cbn [List.map concat]. fold (doc_lines doc).
    rewrite fold_left_app.
    assert (F : fold_left step (entry_lines e2) st
                = fold_left step (entry_lines e2) st').
    { rewrite EL. cbn [fold_left]. now rewrite ES. }
    rewrite F.
    pose proof (entry_from_top st' e2 Ht He2) as HA2. rewrite HR in HA2.
    destruct (IH e2 (settled r e) _ HA2 Hd) as [r' [HA' [HS HR']]].
    exists r'. rewrite last_cons.
    split; [exact HA' | split; [exact HS | exact HR']].
Qed.

Lemma entry_lines_no_newline (e : entry) :
  entry_ok e = true ->
  Forall (fun l => includes NL l = false) (entry_lines e).
Proof.
  intros H. pose proof (entry_ok_key e H) as Hk.
  pose proof (key_ok_inv _ Hk) as [_ [_ [Hn _]]].
  assert (HH : forall k, includes NL k = false ->
                         includes NL (list_header k) = false).
  { intros k Hkn. unfold list_header. now rewrite includes_app, Hkn. }
  apply entry_ok_inv in H.
  destruct e as [k s|k ss|k fields|k bs]; cbn [entry_key] in Hk, Hn.
  - destruct H as [_ Hs]. repeat constructor.
    now apply scalar_line_no_newline.
  - destruct H as [_ [_ [_ Hall]]].
    cbn [entry_lines]. constructor; [now apply HH|].
    apply Forall_forall. intros l Hl. apply in_map_iff in Hl as [s [<- Hs]].
    apply (proj1 (forallb_forall _ _) Hall) in Hs.
    apply item_ok_inv in Hs as [_ Hs]. rewrite list_line_eq.
    change (SP :: SP :: DASH :: SP :: DQ :: s ++ [DQ])
      with ([SP; SP; DASH; SP; DQ] ++ s ++ [DQ]).
    now rewrite !includes_app, Hs.
  - destruct H as [_ [_ [Hf0 Hall]]].
    destruct fields as [|[f v] more]; [discriminate|].
    simpl in Hall. apply andb_true_iff in Hall as [Hf Hmore].
    cbn [entry_lines]. constructor; [now apply HH|].
    constructor; [now apply field_line_no_newline|].
    apply Forall_forall. intros l Hl.
    apply in_map_iff in Hl as [[f2 v2] [<- Hfv]].
    apply (proj1 (forallb_forall _ _) Hmore) in Hfv.
    now apply field_line_no_newline.
  - destruct H as [_ Hb].
    apply block_ok_inv in Hb as [b1 [rest [-> [_ [H1 [_ Hr]]]]]].
    cbn [entry_lines]. constructor.
    { unfold block_header. now rewrite includes_app, Hn. }
    assert (B : Forall (fun l => includes NL l = false) (b1 :: rest)).
    { constructor; [|now apply block_lines_no_newline].
      now apply clean_line_inv in H1 as [_ [H1 _]]. }
    apply Forall_forall. intros l Hl. apply in_map_iff in Hl as [b [<- Hb]].
    apply (proj1 (Forall_forall _ _) B) in Hb. unfold block_line.
    now rewrite includes_app, Hb.
Qed.

Lemma doc_ok_entries (doc : list entry) :
  doc_ok doc = true -> Forall (fun e => entry_ok e = true) doc.
Proof.
  induction doc as [|e doc IH]; intros H; [constructor|].
  apply doc_ok_inv in H as [He [Hd _]]. constructor; auto.
Qed.

Lemma doc_lines_no_newline (doc : list entry) :
  doc_ok doc = true ->
  Forall (fun l => includes NL l = false) (doc_lines doc).
Proof.
  intros H. apply doc_ok_entries in H.
  induction H as [|e doc He _ IH]; [constructor|].
  unfold doc_lines. cbn [List.map concat]. apply Forall_app.
  split; [now apply entry_lines_no_newline | exact IH].
Qed.

(** A text of entries is read entry by entry, and each is written into the
    result in its turn; a multiline string that comes last is left out. *)
Lemma parseYAML_doc_stored (doc : list entry) :
  doc_ok doc = true ->
  parseYAML (doc_text doc)
  = write_all [] (doc_parsed (if ends_in_block doc then removelast doc
                              else doc)).
Proof.
  intros H. destruct doc as [|e doc]; [reflexivity|].
  unfold parseYAML, doc_text.
  rewrite <- (app_nil_r (concat _)).
  rewrite split_lines_text by now apply doc_lines_no_newline.
  change (split NL []) with [@nil char].
  rewrite fold_left_app. unfold doc_lines at 1. cbn [List.map concat].
  fold (doc_lines doc). rewrite fold_left_app.
  pose proof (doc_ok_inv e doc H) as [He _].
  pose proof (entry_from_top init_state e) as HA.
  cbn [init_state result] in HA. fold init_state in HA.
  specialize (HA (conj eq_refl (conj eq_refl eq_refl)) He).
  destruct (fold_entries doc e [] _ HA H) as [r' [HA' [HS HR]]].
  pose proof (doc_ok_last doc e H) as Hl.
  cbn [fold_left ends_in_block].
  destruct (is_block_entry (last doc e)) eqn:Hb.
  - destruct (last doc e) as [k s|k ss|k fields|k bs]; try discriminate.
    destruct HA' as [st0 [HR0 ->]]. rewrite <- HR, <- HR0. reflexivity.
  - assert (B : forall st, inMultilineString st = false -> step st [] = st).
    { intros st HM. unfold step, skip_line. simpl. now rewrite HM. }
    rewrite B by now apply (after_outside_block r' (last doc e)).
    rewrite (finish_after r' (last doc e) _ HA' Hl Hb). exact HS.
Qed.

Lemma parseYAML_doc (doc : list entry) :
  doc_ok doc = true -> ends_in_block doc = false ->
  parseYAML (doc_text doc) = write_all [] (doc_parsed doc).
Proof.
  intros H Hb. rewrite (parseYAML_doc_stored doc H). now rewrite Hb.
Qed.

(** ** What the serializer writes for them *)

Lemma list_lines_concat (ss : list jstr) :
  list_lines ss = concat (List.map (fun l => l ++ [NL]) (List.map list_line ss)).
Proof.
  induction ss as [|s ss IH]; [reflexivity|].
  cbn [list_lines List.map concat]. rewrite IH, <- app_assoc. reflexivity.
Qed.

Lemma emit_entry_of_toYAML (k : jstr) (v : value) (y : jstr) :
  toYAML [(k, v)] 0 = OK y -> emit_entry 0 k v = OK y.
Proof.
  cbn [toYAML]. destruct (emit_entry 0 k v) as [a|]; cbn [bind];
    [|discriminate].
  rewrite app_nil_r. trivial.
Qed.

Lemma emit_entry_lines (e : entry) :
  entry_ok e = true ->
  emit_entry 0 (entry_key e) (entry_value e)
  = OK (concat (List.map (fun l => l ++ [NL]) (entry_lines e))).
Proof.
  intros H. apply entry_ok_inv in H.
  destruct e as [k s|k ss|k fields|k bs];
    cbn [entry_key entry_value entry_lines].
  - destruct H as [_ Hs]. unfold scalar_ok in Hs.
    apply andb_true_iff in Hs as [_ Hs]. unfold single_line in Hs.
    apply negb_true_iff in Hs.
    cbn [emit_entry repeat_str]. rewrite Hs. cbn [List.map concat app].
    f_equal. rewrite app_nil_r. unfold scalar_line.
    repeat rewrite <- app_assoc. reflexivity.
  - apply emit_entry_of_toYAML. rewrite toYAML_string_list.
    cbn [List.map concat]. rewrite list_lines_concat, <- app_assoc.
    reflexivity.
  - destruct H as [_ [_ [Hf0 _]]].
    destruct fields as [|[f v] more]; [discriminate|].
    apply emit_entry_of_toYAML. apply toYAML_one_record.
  - destruct H as [_ Hb].
    pose proof (block_ok_inv bs Hb) as [b1 [rest [E [Hne [H1 [_ Hr]]]]]].
    assert (Hnl : Forall (fun l => includes NL l = false) bs).
    { rewrite E. constructor; [|now apply block_lines_no_newline].
      now apply clean_line_inv in H1 as [_ [H1 _]]. }
    assert (I : includes NL (join NL bs) = true).
    { rewrite E. destruct rest as [|b2 rest]; [contradiction|].
      cbn [join]. rewrite includes_app. simpl. now rewrite orb_true_r. }
    assert (S : split NL (join NL bs) = bs).
    { apply split_join; [rewrite E; discriminate | assumption]. }
    cbn [emit_entry repeat_str]. rewrite I. unfold emit_block. rewrite S.
    f_equal. cbn [List.map concat app]. unfold block_header.
    rewrite <- !app_assoc. f_equal. f_equal. rewrite map_map.
    reflexivity.
Qed.

Lemma doc_text_cons (e : entry) (doc : list entry) :
  doc_text (e :: doc)
  = concat (List.map (fun l => l ++ [NL]) (entry_lines e)) ++ doc_text doc.
Proof.
  unfold doc_text, doc_lines. cbn [List.map concat].
  now rewrite map_app, concat_app.
Qed.

(** [toYAML] writes the entries one after the other, in their order. *)
Lemma toYAML_doc (doc : list entry) :
  doc_ok doc = true -> toYAML (doc_object doc) 0 = OK (doc_text doc).
Proof.
  induction doc as [|e doc IH]; intros H; [reflexivity|].
  apply doc_ok_inv in H as [He [Hd _]].
  cbn [doc_object List.map toYAML]. fold (doc_object doc).
  rewrite (emit_entry_lines e He), (IH Hd). cbn [bind].
  now rewrite doc_text_cons.
Qed.

(** ** The keys of what is written *)

Lemma obj_set_keys_In (o : object) (k x : jstr) (v : value) :
  eqb k (lit "__proto__") = false ->
  In x (keys (obj_set o k v)) <-> x = k \/ In x (keys o).
Proof.
  intros Hp. unfold obj_set, obj_define. rewrite Hp.
  destruct (obj_has o k) eqn:H.
  - rewrite obj_update_keys. apply obj_has_In in H.
    split; [tauto | intros [->|]; assumption].
  - destruct (array_index k) as [n|]; [apply obj_insert_index_In|].
    unfold keys. rewrite map_app, in_app_iff. simpl. intuition.
Qed.

Lemma obj_insert_index_plain_keys (n : N) (k : jstr) (v : value)
  (o : object) :
  plain_key k = false ->
  filter plain_key (keys (obj_insert_index n k v o))
  = filter plain_key (keys o).
Proof.
  intros Hk. induction o as [|[k0 v0] o IH].
  - cbn [obj_insert_index keys List.map fst filter]. now rewrite Hk.
  - cbn [obj_insert_index].
    destruct (array_index k0) as [m|] eqn:E0; [destruct (m <? n)%N|];
      cbn [keys List.map fst filter]; rewrite ?Hk; try reflexivity.
    fold (keys (obj_insert_index n k v o)). fold (keys o). rewrite IH.
    reflexivity.
Qed.

Lemma obj_set_new_plain_keys (o : object) (k : jstr) (v : value) :
  obj_has o k = false -> eqb k (lit "__proto__") = false ->
  filter plain_key (keys (obj_set o k v))
  = filter plain_key (keys o) ++ filter plain_key [k].
Proof.
  intros H Hp. unfold obj_set, obj_define. rewrite Hp, H.
  destruct (array_index k) as [n|] eqn:E.
  - assert (P : plain_key k = false) by (unfold plain_key; now rewrite E).
    rewrite obj_insert_index_plain_keys by assumption.
    cbn [filter]. now rewrite P, app_nil_r.
  - unfold keys. rewrite map_app, filter_app. reflexivity.
Qed.

Lemma write_all_keys_In (es acc : object) (x : jstr) :
  forallb (fun kv => negb (eqb (fst kv) (lit "__proto__"))) es = true ->
  In x (keys (write_all acc es)) <-> In x (keys acc) \/ In x (keys es).
Proof.
  unfold write_all. revert acc; induction es as [|[k v] es IH]; intros acc H.
  - simpl. tauto.
  - simpl in H. apply andb_true_iff in H as [Hk H].
    apply negb_true_iff in Hk. cbn [fold_left fst snd].
    rewrite (IH _ H), (obj_set_keys_In acc k x v Hk). simpl.
    intuition.
Qed.

(** Keys that are new and distinct and no array indices are enumerated in
    the order in which they were written, behind those that were there. *)
Lemma write_all_plain_keys (es acc : object) :
  NoDup (keys es) -> (forall k, In k (keys es) -> ~ In k (keys acc)) ->
  forallb (fun kv => negb (eqb (fst kv) (lit "__proto__"))) es = true ->
  filter plain_key (keys (write_all acc es))
  = filter plain_key (keys acc) ++ filter plain_key (keys es).
Proof.
  unfold write_all.
  revert acc; induction es as [|[k v] es IH]; intros acc Hnd Hnew H.
  - simpl. now rewrite app_nil_r.
  - simpl in H. apply andb_true_iff in H as [Hk H].
    apply negb_true_iff in Hk. simpl in Hnd.
    apply NoDup_cons_iff in Hnd as [Hin Hnd]. cbn [fold_left fst snd].
    rewrite IH; [| assumption | | assumption].
    + rewrite obj_set_new_plain_keys;
        [| apply obj_has_not_In, Hnew; now left | assumption].
      change (keys ((k, v) :: es)) with ([k] ++ keys es).
      now rewrite filter_app, app_assoc.
    + intros x Hx Hx'. apply (obj_set_keys_In acc k x v Hk) in Hx'.
      destruct Hx' as [->|Hx']; [contradiction|].
      apply (Hnew x); [now right | assumption].
Qed.

Lemma doc_parsed_keys (doc : list entry) :
  keys (doc_parsed doc) = List.map entry_key doc.
Proof. unfold keys, doc_parsed. rewrite map_map. reflexivity. Qed.

Lemma doc_parsed_not_proto (doc : list entry) :
  Forall (fun e => entry_ok e = true) doc ->
  forallb (fun kv => negb (eqb (fst kv) (lit "__proto__")))
          (doc_parsed doc) = true.
Proof.
  induction 1 as [|e doc He _ IH]; [reflexivity|].
  cbn [doc_parsed List.map forallb fst]. fold (doc_parsed doc).
  apply entry_ok_key, key_ok_inv in He as [_ [_ [_ [_ [_ Hp]]]]].
  now rewrite Hp, IH.
Qed.

(** The keys of the result that are no array indices are a beginning of
    those of the text. *)
Lemma doc_plain_keys_prefix (doc : list entry) :
  doc_ok doc = true -> NoDup (List.map entry_key doc) ->
  exists more : list jstr,
    filter plain_key (List.map entry_key doc)
    = filter plain_key (keys (parseYAML (doc_text doc))) ++ more.
Proof.
  intros H Hnd. rewrite (parseYAML_doc_stored doc H).
  pose proof (doc_ok_entries doc H) as He.
  destruct (ends_in_block doc) eqn:Hb.
  - destruct doc as [|e doc]; [discriminate|].
    assert (E : e :: doc = removelast (e :: doc) ++ [last (e :: doc) e])
      by (apply app_removelast_last; discriminate).
    set (front := removelast (e :: doc)) in *.
    set (lst := last (e :: doc) e) in *.
    rewrite E in Hnd, He. rewrite E. clear E. rewrite map_app in Hnd.
    apply NoDup_app_remove_r in Hnd. apply Forall_app in He as [He _].
    exists (filter plain_key [entry_key lst]).
    rewrite map_app, filter_app, write_all_plain_keys.
    + now rewrite doc_parsed_keys.
    + now rewrite doc_parsed_keys.
    + intros k _ [].
    + now apply doc_parsed_not_proto.
  - exists []. rewrite app_nil_r, write_all_plain_keys.
    + now rewrite doc_parsed_keys.
    + now rewrite doc_parsed_keys.
    + intros k _ [].
    + now apply doc_parsed_not_proto.
Qed.

Lemma filter_all (f : jstr -> bool) (l : list jstr) :
  (forall x, In x l -> f x = true) -> filter f l = l.
Proof.
  induction l as [|a l IH]; intros H; [reflexivity|].
  simpl. rewrite (H a) by now left. f_equal. apply IH.
  intros x Hx. apply H. now right.
Qed.

(** ** What is stored keeps its place *)

Lemma keeps_order_refl (o : object) : keeps_order o o.
Proof. exists []. now rewrite app_nil_r. Qed.

Lemma keeps_order_trans (o1 o2 o3 : object) :
  keeps_order o1 o2 -> keeps_order o2 o3 -> keeps_order o1 o3.
Proof.
  intros [m1 E1] [m2 E2]. exists (m1 ++ m2).
  now rewrite E2, E1, app_assoc.
Qed.

Lemma keeps_order_set (o : object) (k : jstr) (v : value) :
  keeps_order o (obj_set o k v).
Proof.
  destruct (eqb k (lit "__proto__")) eqn:Hp.
  - unfold obj_set. rewrite Hp. apply keeps_order_refl.
  - destruct (obj_has o k) eqn:H.
    + exists []. unfold obj_set, obj_define.
      now rewrite Hp, H, obj_update_keys, app_nil_r.
    + eexists. now apply obj_set_new_plain_keys.
Qed.

Lemma keeps_order_commit (r : object) (k : option jstr) (l : list value) :
  keeps_order r (commit_list r k l).
Proof.
  unfold commit_list. destruct k as [[|c k]|]; try apply keeps_order_refl.
  apply keeps_order_set.
Qed.

Lemma key_value_keeps_order (st : pstate) (trimmed : jstr) :
  keeps_order (result st) (result (key_value st trimmed)).
Proof.
  unfold key_value.
  destruct (includes COLON trimmed && negb (startsWith [DASH] trimmed));
    [|apply keeps_order_refl].
  match goal with |- context [if ?b then _ else _] => destruct b end.
  - apply keeps_order_refl.
  - apply keeps_order_set.
Qed.

Lemma close_list_keeps_order (st : pstate) (z : Z) (trimmed : jstr) :
  keeps_order (result st) (result (close_list st z trimmed)).
Proof.
  unfold close_list. destruct (currentList st) as [l|];
    [|apply keeps_order_refl].
  destruct ((z =? 0)%Z && includes COLON trimmed); [|apply keeps_order_refl].
  destruct (currentListItem st) as [item|];
    [destruct (has_fields item)|]; apply keeps_order_commit.
Qed.

Lemma list_item_result (st : pstate) (trimmed : jstr) :
  result (list_item st trimmed) = result st.
Proof.
  unfold list_item. destruct (includes COLON (skipn 2 trimmed)).
  - now destruct (split1 COLON (skipn 2 trimmed)).
  - destruct (currentListItem st) as [item|]; [|reflexivity].
    now destruct (has_fields item).
Qed.

Lemma record_field_result (st : pstate) (item : object) (trimmed : jstr) :
  result (record_field st item trimmed) = result st.
Proof.
  unfold record_field. destruct (includes COLON trimmed); [|reflexivity].
  now destruct (split1 COLON trimmed).
Qed.

(** Whatever the line, the keys that the result holds keep their order and
    the keys that the line stores come behind them. *)
Lemma step_keeps_order (st : pstate) (line : jstr) :
  keeps_order (result st) (result (step st line)).
Proof.
  unfold step.
  destruct (negb (truthy (trim line)) || startsWith [HASH] (trim line)).
  { unfold skip_line.
    destruct (inMultilineString st && negb (truthy (trim line)));
      apply keeps_order_refl. }
  assert (M : match multiline_line st line (trim line) with
              | inl st' => result st' = result st
              | inr st1 => keeps_order (result st) (result st1)
              end).
  { unfold multiline_line.
    destruct (inMultilineString st); [|apply keeps_order_refl].
    destruct (indentLevel st <? search_nonspace line)%Z; [reflexivity|].
    apply keeps_order_set. }
  destruct (multiline_line st line (trim line)) as [st'|st1].
  { rewrite M. apply keeps_order_refl. }
  apply (keeps_order_trans _ _ _ M).
  destruct (endsWith [PIPE] (trim line)); [apply keeps_order_refl|].
  destruct (startsWith [DASH; SP] (trim line)).
  { rewrite list_item_result. apply keeps_order_refl. }
  assert (K : keeps_order (result st1)
                (result (key_value
                           (close_list st1 (search_nonspace line) (trim line))
                           (trim line)))).
  { apply (keeps_order_trans _ _ _
             (close_list_keeps_order st1 (search_nonspace line) (trim line))).
    apply key_value_keeps_order. }
  destruct (currentListItem st1) as [item|]; [|exact K].
  destruct (4 <=? search_nonspace line)%Z; [|exact K].
  rewrite record_field_result. apply keeps_order_refl.
Qed.

Lemma fold_keeps_order (lines : list jstr) (st : pstate) :
  keeps_order (result st) (result (fold_left step lines st)).
Proof.
  revert st; induction lines as [|l lines IH]; intros st;
    [apply keeps_order_refl|].
  cbn [fold_left].
  apply (keeps_order_trans _ _ _ (step_keeps_order st l)). apply IH.
Qed.

Lemma finish_keeps_order (st : pstate) : keeps_order (result st) (finish st).
Proof.
  unfold finish. destruct (currentList st) as [l|];
    [|apply keeps_order_refl].
  apply keeps_order_commit.
Qed.

End Documents.

(* ================================================================== *)
(** * The order of the keys *)
(* ================================================================== *)




(* ================================================================== *)
(** * The listing and the creation of a post *)
(* ================================================================== *)

Section Listing.

Lemma obj_get_define (o : object) (k k' : jstr) (v : value) :
  obj_get (obj_define o k v) k' = if eqb k k' then Some v else obj_get o k'.
Proof.
  unfold obj_define. destruct (obj_has o k) eqn:H.
  - rewrite obj_get_update. now rewrite H.
  - destruct (array_index k); [now apply obj_get_insert_index|].
    now apply obj_get_app_last.
Qed.

Lemma obj_get_absent (o : object) (k : jstr) :
  ~ In k (keys o) -> obj_get o k = None.
Proof.
  induction o as [|[k0 v0] o IH]; intros H; [reflexivity|].
  simpl in *. destruct (eqb k0 k) eqn:E.
  - apply eqb_eq in E. tauto.
  - apply IH. tauto.
Qed.

(** A spread property wins over the property of the same key that was
    there. *)
Lemma obj_get_spread (source target : object) (k : jstr) :
  NoDup (keys source) ->
  obj_get (spread target source) k
  = match obj_get source k with
    | Some v => Some v
    | None => obj_get target k
    end.
Proof.
  unfold spread.
  revert target; induction source as [|[k0 v0] source IH]; intros target H;
    [reflexivity|].
  simpl in H. apply NoDup_cons_iff in H as [Hin H].
  cbn [fold_left fst snd obj_get]. rewrite (IH _ H), obj_get_define.
  destruct (eqb k0 k) eqn:E; [|reflexivity].
  apply eqb_eq in E. subst k0. now rewrite (obj_get_absent source k Hin).
Qed.

Lemma parseFrontmatter_data_keys (text : jstr) :
  NoDup (keys (data (parseFrontmatter text))).
Proof.
  unfold parseFrontmatter.
  destruct (frontmatter_match text) as [[g1 g2]|]; cbn [data].
  - apply parseYAML_parsed_mapping.
  - constructor.
Qed.

(** What the listing shows under [k] for a file: the property of the
    metadata if there is one, and else the one the listing puts first. *)
Lemma listed_post_get (base sha text k : jstr) :
  ~ occurs (lit ".md") base ->
  exists post,
    listed_post (base ++ lit ".md") sha text = Some post
    /\ obj_get post k
       = match obj_get (data (parseFrontmatter text)) k with
         | Some v => Some v
         | None => obj_get [ (lit "slug", VStr base); (lit "sha", VStr sha) ] k
         end.
Proof.
  intros H. unfold listed_post, remove_substring.
  rewrite endsWith_app, cut_md_at_end by assumption. rewrite app_nil_r.
  eexists. split; [reflexivity|].
  apply obj_get_spread, parseFrontmatter_data_keys.
Qed.

Lemma obj_get_flat_mapping (kvs : list (jstr * jstr)) (k : jstr) (v : value) :
  obj_get (flat_mapping kvs) k = Some v ->
  exists s, v = VStr s /\ In (k, s) kvs.
Proof.
  induction kvs as [|[k0 s0] kvs IH]; [discriminate|].
  cbn [flat_mapping List.map obj_get fst snd]. fold (flat_mapping kvs).
  destruct (eqb k0 k) eqn:E.
  - apply eqb_eq in E. subst k0. intros [= <-]. exists s0. split; [reflexivity|].
    now left.
  - intros H. destruct (IH H) as [s [-> Hin]]. exists s.
    split; [reflexivity | now right].
Qed.

(** A mapping of strings, composed and split again. *)
Lemma toMarkdown_parsed_again (kvs : list (jstr * jstr)) (body : jstr) :
  kvs <> [] -> wf_obj (flat_mapping kvs) ->
  forallb source_entry kvs = true ->
  exists md, toMarkdown (flat_mapping kvs) body = OK md
             /\ parseFrontmatter md = mkDoc (flat_mapping kvs) (trim body).
Proof.
  intros Hne Hwf H.
  exists (opening ++ scalar_lines kvs ++ delimiter ++ NL :: NL :: body).
  split.
  - unfold toMarkdown.
    rewrite toYAML_flat_mapping by now apply source_entries_single_line.
    cbn [bind]. f_equal. unfold opening. rewrite <- !app_assoc. reflexivity.
  - unfold parseFrontmatter, frontmatter_match. fold opening.
    rewrite startsWith_app. change 4 with (length opening).
    rewrite skipn_length_app.
    destruct kvs as [|kv kvs]; [contradiction|].
    change (NL :: opening) with closing.
    rewrite (cut_scalar_lines kv kvs (NL :: body) H).
    rewrite parseYAML_joined_scalar_lines by assumption.
    rewrite trim_after_newline. f_equal.
    apply (write_all_wf [] (flat_mapping (kv :: kvs))); [assumption|].
    now apply source_entries_not_proto.
Qed.

End Listing.


(* ================================================================== *)
(** * Further properties *)
(* ================================================================== *)

(** X1: whatever text was parsed, serializing the mapping that
    [parseYAML] returned does not raise: [toYAML] returns a text. *)
Theorem serialize_parsed_never_raises (text : jstr) :
  exists y, toYAML (parseYAML text) 0 = OK y.
Proof.
  apply toYAML_parsed_values. apply parseYAML_parsed_mapping.
Qed.

(** X2: entries whose value is [null] leave no trace: serializing a mapping
    and serializing it without those entries give the same result. *)
Theorem toYAML_null_entries_skipped (o : object) (indent : nat) :
  toYAML (filter (fun kv => match snd kv with VNull => false | _ => true end) o)
         indent
  = toYAML o indent.
Proof.
  induction o as [|[k v] o IH]; [reflexivity|].
  destruct v; cbn [filter snd toYAML]; rewrite IH; try reflexivity.
  cbn [emit_entry bind]. now destruct (toYAML o indent).
Qed.

(** X3: a text that [toYAML] returns is empty or ends with a newline, at
    every indentation and for every mapping. *)
Theorem toYAML_ends_with_newline (o : object) (indent : nat) (y : jstr) :
  toYAML o indent = OK y -> y = [] \/ exists c, y = c ++ [NL].
Proof.
  revert y; induction o as [|[k v] o IH]; intros y; cbn [toYAML].
  - intros [= <-]. now left.
  - destruct (emit_entry indent k v) as [a|] eqn:Ea; [|discriminate].
    destruct (toYAML o indent) as [b|] eqn:Eb; [|discriminate].
    intros [= <-]. apply closed_app.
    + eapply emit_entry_closed; eassumption.
    + now apply IH.
Qed.

Lemma toYAML_ends_with_newline_witness :
  lit "a:" ++ NL :: lit "  - " ++ quoted (lit "x") ++ [NL] = []
  \/ exists c, lit "a:" ++ NL :: lit "  - " ++ quoted (lit "x") ++ [NL]
               = c ++ [NL].
Proof.
  apply (toYAML_ends_with_newline [(lit "a", VList [VStr (lit "x")])] 0).
  reflexivity.
Defined.

(** X4: a document composed by [toMarkdown] from a mapping of strings that
    is not empty and from a body is split by [parseFrontmatter] into the
    same mapping and the trimmed body. *)
Theorem frontmatter_round_trip (kvs : list (jstr * jstr)) (body : jstr) :
  kvs <> [] -> wf_obj (flat_mapping kvs) ->
  forallb source_entry kvs = true ->
  exists md, toMarkdown (flat_mapping kvs) body = OK md
             /\ parseFrontmatter md = mkDoc (flat_mapping kvs) (trim body).
Proof.
  intros Hne Hwf H.
  exists (opening ++ scalar_lines kvs ++ delimiter ++ NL :: NL :: body).
  split.
  - unfold toMarkdown.
    rewrite toYAML_flat_mapping by now apply source_entries_single_line.
    cbn [bind]. f_equal. unfold opening. rewrite <- !app_assoc. reflexivity.
  - unfold parseFrontmatter, frontmatter_match. fold opening.
    rewrite startsWith_app. change 4 with (length opening).
    rewrite skipn_length_app.
    destruct kvs as [|kv kvs]; [contradiction|].
    change (NL :: opening) with closing.
    rewrite (cut_scalar_lines kv kvs (NL :: body) H).
    rewrite parseYAML_joined_scalar_lines by assumption.
    rewrite trim_after_newline. f_equal.
    apply (write_all_wf [] (flat_mapping (kv :: kvs))); [assumption|].
    now apply source_entries_not_proto.
Qed.

Lemma frontmatter_round_trip_witness :
  exists md,
    toMarkdown (flat_mapping [(lit "title", lit "Leg day"); (lit "date", lit "2024-05-01")])
               (lit "Squats first. ")
    = OK md
    /\ parseFrontmatter md
       = mkDoc (flat_mapping [(lit "title", lit "Leg day"); (lit "date", lit "2024-05-01")])
               (trim (lit "Squats first. ")).
Proof.
  apply frontmatter_round_trip.
  - discriminate.
  - apply flat_mapping_wf; [|reflexivity].
    repeat constructor; simpl; intuition discriminate.
  - reflexivity.
Defined.

(** X5: a document composed with empty metadata is not split again:
    [parseFrontmatter] returns it whole as the body, delimiters included,
    with empty metadata, unless the body itself holds a closing delimiter
    line. *)
Theorem frontmatter_empty_metadata_not_split (body : jstr) :
  ~ occurs closing (NL :: body) ->
  exists md, toMarkdown [] body = OK md
             /\ md = lit "---" ++ NL :: lit "---" ++ NL :: NL :: body
             /\ parseFrontmatter md = mkDoc [] md.
Proof.
  intros H. eexists. split; [reflexivity|]. split; [reflexivity|].
  apply parseFrontmatter_no_match. unfold frontmatter_match.
  cbn [startsWith delimiter lit List.map list_ascii_of_string N_of_ascii
       N_of_digits app bind toYAML skipn].
  rewrite !N.eqb_refl. cbn [andb].
  destruct (cut _ _) as [[a b]|] eqn:E; [|reflexivity].
  exfalso. apply cut_Some in E.
  destruct a as [|x1 [|x2 [|x3 [|x4 a]]]]; try discriminate E.
  apply H. exists a, b. injection E as _ _ _ _ E. exact E.
Qed.

Lemma frontmatter_empty_metadata_not_split_witness :
  exists md, toMarkdown [] (lit "Hello") = OK md
             /\ md = lit "---" ++ NL :: lit "---" ++ NL :: NL :: lit "Hello"
             /\ parseFrontmatter md = mkDoc [] md.
Proof.
  apply frontmatter_empty_metadata_not_split. apply cut_None. reflexivity.
Defined.

(** X6: the body that [parseFrontmatter] returns for a text with
    frontmatter has no white space at its ends: trimming it again changes
    nothing. *)
Theorem frontmatter_body_trimmed (text : jstr) :
  frontmatter_pattern text ->
  trim (content (parseFrontmatter text)) = content (parseFrontmatter text).
Proof.
  intros H. apply frontmatter_match_pattern in H. unfold parseFrontmatter.
  destruct (frontmatter_match text) as [[g1 g2]|]; [|contradiction].
  apply trim_idem.
Qed.

Lemma frontmatter_body_trimmed_witness :
  trim (content (parseFrontmatter (opening ++ lit "a: 1" ++ closing ++ lit "  body  ")))
  = content (parseFrontmatter (opening ++ lit "a: 1" ++ closing ++ lit "  body  ")).
Proof.
  apply frontmatter_body_trimmed. exists (lit "a: 1"), (lit "  body  ").
  reflexivity.
Defined.

(** X7: in a text where no line other than a comment ends with the block
    scalar marker, blank lines and comment lines can be removed: [parseYAML]
    returns the same mapping. *)
Theorem comments_and_blank_lines_ignored (lines : list jstr) :
  Forall (fun l => includes NL l = false) lines ->
  forallb (fun l => skippable l || negb (opens_block l)) lines = true ->
  parseYAML (text_of (filter (fun l => negb (skippable l)) lines))
  = parseYAML (text_of lines).
Proof.
  intros Hnl H. rewrite !parseYAML_lines;
    [| assumption | now apply filter_keeps_Forall].
  now rewrite fold_step_skips.
Qed.

Lemma comments_and_blank_lines_ignored_witness :
  parseYAML (text_of (filter (fun l => negb (skippable l))
                        [lit "# site"; lit "title: x"; []; lit "tags:";
                         lit "  # first"; lit "  - a"]))
  = parseYAML (text_of [lit "# site"; lit "title: x"; []; lit "tags:";
                        lit "  # first"; lit "  - a"]).
Proof.
  apply comments_and_blank_lines_ignored.
  - repeat constructor.
  - reflexivity.
Defined.

(** X8: a list of strings without colon and newline, written by [toYAML]
    and read by [parseYAML], comes back under its key as the list of the
    records [{text: s}], in the same order. *)
Theorem string_list_comes_back_as_text_records (k : jstr) (ss : list jstr) :
  key_ok k = true -> k <> [] -> ss <> [] -> forallb item_ok ss = true ->
  exists y, toYAML [(k, VList (List.map VStr ss))] 0 = OK y
            /\ parseYAML y = [(k, VList (List.map text_record ss))].
Proof. apply parseYAML_toYAML_string_list. Qed.

Lemma string_list_comes_back_as_text_records_witness :
  exists y,
    toYAML [(lit "tags", VList (List.map VStr [lit "legs"; lit "core"]))] 0
    = OK y
    /\ parseYAML y
       = [(lit "tags", VList (List.map text_record [lit "legs"; lit "core"]))].
Proof.
  apply string_list_comes_back_as_text_records;
    [reflexivity | discriminate | discriminate | reflexivity].
Defined.

(** X9: the quotes the page shows are the quotes that were written: for
    strings that are not empty and hold no colon and no newline, what
    [loadQuotes] assigns from the parsed text of [toYAML] is the list of
    those strings. *)
Theorem quotes_shown_as_written (ss : list jstr) :
  ss <> [] -> forallb item_ok ss = true -> forallb truthy ss = true ->
  exists y, toYAML [(lit "quotes", VList (List.map VStr ss))] 0 = OK y
            /\ dynamicQuotes (parseYAML y) = OK (Some (List.map VStr ss)).
Proof.
  intros Hne Hi Ht.
  destruct (parseYAML_toYAML_string_list (lit "quotes") ss)
    as [y [Ey Ep]]; try assumption; [reflexivity | discriminate |].
  exists y. split; [assumption|]. rewrite Ep.
  unfold dynamicQuotes. cbn [obj_get]. rewrite eqb_refl.
  now rewrite map_quotes_text_records.
Qed.

Lemma quotes_shown_as_written_witness :
  exists y,
    toYAML [(lit "quotes",
             VList (List.map VStr [lit "Your mind is the only limit."]))] 0
    = OK y
    /\ dynamicQuotes (parseYAML y)
       = OK (Some (List.map VStr [lit "Your mind is the only limit."])).
Proof.
  apply quotes_shown_as_written; [discriminate | reflexivity | reflexivity].
Defined.







(** X13: the slug of a new post holds only the letters [a-z], digits and
    dashes, has no dash at its start or end and no two dashes in a row (so
    no slash and no dot reach the file path), and its letters and digits are
    those of the lowercased title, in their order; whatever [toLowerCase]
    does. *)
Theorem slug_shape (toLowerCase : jstr -> jstr) (title : jstr) :
  let slug := newSlug toLowerCase title in
  Forall (fun c => is_slug_char c || (c =? DASH)%N = true) slug
  /\ (forall r, slug <> DASH :: r)
  /\ (forall r, slug <> r ++ [DASH])
  /\ (forall a b, slug <> a ++ DASH :: DASH :: b)
  /\ filter is_slug_char slug = filter is_slug_char (toLowerCase title).
Proof. apply newSlug_shape. Qed.

(** X14: the slug is empty exactly when the lowercased title has no letter
    of [a-z] and no digit; every such title is saved to the same file. *)
Theorem slug_empty_iff (toLowerCase : jstr -> jstr) (title : jstr) :
  (newSlug toLowerCase title = []
   <-> forallb (fun c => negb (is_slug_char c)) (toLowerCase title) = true)
  /\ (newSlug toLowerCase title = [] ->
      blog_file (newSlug toLowerCase title) = lit "content/blog/.md").
Proof.
  split; [|now intros ->].
  destruct (newSlug_shape toLowerCase title) as [CH [NH [NT [ND KP]]]].
  split.
  - intros H. rewrite H in KP. simpl in KP.
    apply forallb_forall. intros c Hc.
    destruct (is_slug_char c) eqn:E; [|reflexivity].
    assert (In c (filter is_slug_char (toLowerCase title)))
      by (apply filter_In; now split).
    rewrite <- KP in *. contradiction.
  - intros H.
    rewrite (filter_no_slug_chars _ H) in KP.
    destruct (newSlug toLowerCase title) as [|c s] eqn:E; [reflexivity|].
    exfalso. apply Forall_cons_iff in CH as [Hc CH].
    simpl in KP. destruct (is_slug_char c) eqn:Ec; [discriminate|].
    simpl in Hc. apply N.eqb_eq in Hc. subst c. now apply (NH s).
Qed.

Lemma slug_empty_iff_witness :
  newSlug (fun s => s) (lit "?!") = []
  /\ blog_file (newSlug (fun s => s) (lit "?!")) = lit "content/blog/.md".
Proof.
  assert (E : newSlug (fun s => s) (lit "?!") = []).
  { apply (proj2 (proj1 (slug_empty_iff (fun s => s) (lit "?!")))).
    reflexivity. }
  split; [exact E|].
  apply (proj2 (slug_empty_iff (fun s => s) (lit "?!"))). exact E.
Defined.

(** X15: the listing shows a file [base.md] of the blog directory, where
    [base] does not itself hold [.md], under the slug [base] and with the
    hash of the file, unless the metadata of the file has a key [slug] or
    [sha]: the metadata is spread behind the two and its value is shown
    instead. *)
Theorem listed_post_slug_and_sha (base sha text : jstr) :
  ~ occurs (lit ".md") base ->
  exists post,
    listed_post (base ++ lit ".md") sha text = Some post
    /\ obj_get post (lit "slug")
       = Some (match obj_get (data (parseFrontmatter text)) (lit "slug") with
               | Some v => v
               | None => VStr base
               end)
    /\ obj_get post (lit "sha")
       = Some (match obj_get (data (parseFrontmatter text)) (lit "sha") with
               | Some v => v
               | None => VStr sha
               end).
Proof.
  intros H. unfold listed_post, remove_substring.
  rewrite endsWith_app, cut_md_at_end by assumption. rewrite app_nil_r.
  eexists. split; [reflexivity|].
  rewrite !obj_get_spread by apply parseFrontmatter_data_keys.
  split.
  - now destruct (obj_get (data (parseFrontmatter text)) (lit "slug")).
  - now destruct (obj_get (data (parseFrontmatter text)) (lit "sha")).
Qed.

Lemma listed_post_slug_and_sha_witness :
  exists post,
    listed_post (lit "leg-day" ++ lit ".md") (lit "abc")
                (text_of [lit "---"; lit "slug: other"; lit "---"; lit "x"])
    = Some post
    /\ obj_get post (lit "slug")
       = Some (match obj_get (data (parseFrontmatter
                 (text_of [lit "---"; lit "slug: other"; lit "---"; lit "x"])))
                 (lit "slug") with
               | Some v => v
               | None => VStr (lit "leg-day")
               end)
    /\ obj_get post (lit "sha")
       = Some (match obj_get (data (parseFrontmatter
                 (text_of [lit "---"; lit "slug: other"; lit "---"; lit "x"])))
                 (lit "sha") with
               | Some v => v
               | None => VStr (lit "abc")
               end).
Proof.
  apply listed_post_slug_and_sha. apply cut_None. reflexivity.
Defined.



(** X17: [authenticateRequest] finds no token exactly when the header is
    missing, empty or the bare scheme ["Bearer "], and then rejects the
    request without asking [verifyJWT]; it authenticates a user only when
    [verifyJWT] accepts the token, which is then not empty. *)
Theorem authenticateRequest_token (P : Type)
  (verifyJWT : jstr -> verification P) (authorization : option jstr) :
  (bearer_token authorization = []
   <-> authorization = None \/ authorization = Some []
       \/ authorization = Some (lit "Bearer "))
  /\ (bearer_token authorization = [] ->
      authenticateRequest verifyJWT authorization
      = Rejected (lit "No token provided"))
  /\ (forall user,
        authenticateRequest verifyJWT authorization = Authenticated user ->
        bearer_token authorization <> []
        /\ verifyJWT (bearer_token authorization) = Valid user).
Proof.
  split; [apply bearer_token_empty|].
  unfold authenticateRequest. split.
  - now intros ->.
  - intros user. destruct (bearer_token authorization) as [|c t] eqn:E;
      [discriminate|].
    cbn [truthy negb].
    destruct (verifyJWT (c :: t)) as [p|e]; [|discriminate].
    intros [= ->]. split; [discriminate | reflexivity].
Qed.

Lemma authenticateRequest_token_witness :
  authenticateRequest (fun _ : jstr => Valid tt) (Some (lit "Bearer "))
  = Rejected (lit "No token provided")
  /\ bearer_token (Some (lit "Bearer abc")) <> [].
Proof.
  split.
  - apply (proj1 (proj2 (authenticateRequest_token unit
                           (fun _ => Valid tt) (Some (lit "Bearer "))))).
    reflexivity.
  - apply (proj2 (proj2 (authenticateRequest_token unit
                           (fun _ => Valid tt) (Some (lit "Bearer abc")))) tt).
    reflexivity.
Defined.

(** X18: the scheme is not required. A header that is the token alone is
    treated like the same token behind ["Bearer "], for every token that
    does not hold ["Bearer "] itself. *)
Theorem bearer_scheme_optional (P : Type)
  (verifyJWT : jstr -> verification P) (token : jstr) :
  ~ occurs (lit "Bearer ") token ->
  authenticateRequest verifyJWT (Some (lit "Bearer " ++ token))
  = authenticateRequest verifyJWT (Some token).
Proof.
  intros H. unfold authenticateRequest.
  assert (E1 : bearer_token (Some (lit "Bearer " ++ token)) = token).
  { unfold bearer_token.
    change (truthy (lit "Bearer " ++ token)) with true.
    apply remove_substring_prefix. }
  assert (E2 : bearer_token (Some token) = token).
  { unfold bearer_token. destruct token as [|c t]; [reflexivity|].
    cbn [truthy]. now apply remove_substring_absent. }
  now rewrite E1, E2.
Qed.

Lemma bearer_scheme_optional_witness :
  authenticateRequest (fun t : jstr => Valid t) (Some (lit "Bearer " ++ lit "abc"))
  = authenticateRequest (fun t : jstr => Valid t) (Some (lit "abc")).
Proof.
  apply bearer_scheme_optional. apply cut_None. reflexivity.
Defined.
